(** * simple-diffusion-ui: the text-to-image sampling script

    A shallow embedding of [client/stable_diffusion.py].  The script is an
    orchestration layer: the tokenizer, the three OpenVINO models, the
    scheduler, NumPy's random generator, [requests] and OpenCV are libraries
    it calls.  They are the fields of an environment record; what the script
    itself computes (which calls it makes, in which order, with which
    arguments, and the arithmetic it does on arrays and on the progress
    figure) is written out.

    Part I holds the definitions, Part II the lemmas about them, and
    Part III runs of the script in a small environment. *)

From Stdlib Require Import ZArith QArith Qround Qpower Qabs Lqa Lia Bool.
From Stdlib Require Import List String Ascii DecimalString Floats.
Import ListNotations.

Set Implicit Arguments.
#[local] Set Warnings "-inexact-float".

(* ================================================================= *)
(** * Part I: definitions *)

(* ----------------------------------------------------------------- *)
(** ** Exceptions *)

(** The exceptions the script can die of.  [External] stands for whatever a
    called library raises (a download, a forward pass, the network). *)
Inductive exn : Type :=
| ZeroDivisionError
| OverflowError
| KeyError
| IndexError
| ValueError
| MissingSchema
| External (who : string).

Inductive outcome (A : Type) : Type :=
| Ok (a : A)
| Raise (e : exn).

Arguments Ok {A} a.
Arguments Raise {A} e.

Definition is_ok {A} (r : outcome A) : bool :=
  match r with Ok _ => true | Raise _ => false end.

Definition obind {A B} (r : outcome A) (f : A -> outcome B) : outcome B :=
  match r with Ok a => f a | Raise e => Raise e end.

(* ----------------------------------------------------------------- *)
(** ** Python floats: binary64 over the rationals

    [i / n] on two ints is the quotient rounded to the nearest double, and
    [x * 100] is the product rounded to the nearest double.  A finite double
    is a rational, so the arithmetic is written on [Q]: the exact result is
    computed and then rounded to 53 significant bits, ties to even, on the
    grid of step [2 ^ E], with the exponent bounded below for subnormals.
    A result beyond the largest double is an infinity ([None]). *)
Module Binary64.

Local Open Scope Q_scope.

(** [round(x)] with one argument: the nearest integer, ties to even. *)
Definition round_half_even (x : Q) : Z :=
  let f := Qfloor x in
  match Qcompare (x - inject_Z f) (1 # 2) with
  | Lt => f
  | Gt => (f + 1)%Z
  | Eq => if Z.even f then f else (f + 1)%Z
  end.

Definition pow2 (k : Z) : Q := 2 ^ k.

(** The exponent of a positive rational: [2 ^ e <= x < 2 ^ (e + 1)]. *)
Definition ilog2 (x : Q) : Z :=
  let e0 := (Z.log2 (Qnum x) - Z.log2 (Zpos (Qden x)))%Z in
  if Qle_bool (pow2 e0) x then e0 else (e0 - 1)%Z.

Definition prec : Z := 53.
Definition emin : Z := -1074.
Definition emax : Z := 1024.

(** The multiple of [2 ^ E] nearest to [x], ties to the even multiple. *)
Definition grid (E : Z) (x : Q) : Q :=
  inject_Z (round_half_even (x / pow2 E)) * pow2 E.

Definition ulp_exp (x : Q) : Z := Z.max (ilog2 x - (prec - 1)) emin.

Definition round_finite (x : Q) : Q :=
  match Qnum x with
  | Z0 => 0
  | Zpos _ => grid (ulp_exp x) x
  | Zneg _ => - grid (ulp_exp (- x)) (- x)
  end.

Definition max_float : Q := (pow2 prec - 1) * pow2 (emax - prec).

Definition binary64 (x : Q) : option Q :=
  let r := round_finite x in
  if Qle_bool (Qabs r) max_float then Some r else None.

End Binary64.

(** [i / n] for two Python ints. *)
Definition true_div (i n : Z) : outcome Q :=
  if (n =? 0)%Z then Raise ZeroDivisionError
  else match Binary64.binary64 (inject_Z i / inject_Z n) with
       | Some q => Ok q
       | None => Raise OverflowError
       end.

(** [x * k] for a float and an int; [None] is an infinity. *)
Definition float_mul_int (x : Q) (k : Z) : option Q :=
  Binary64.binary64 (x * inject_Z k).

(** [round(x)]: an infinity has no integer value. *)
Definition py_round (x : option Q) : outcome Z :=
  match x with
  | Some q => Ok (Binary64.round_half_even q)
  | None => Raise OverflowError
  end.

(** Lines 133, 136 and 139:
    [percent = (i / num_inference_steps) * 100] and then [round(percent)]. *)
Definition generated_percent (i num_inference_steps : Z) : outcome Z :=
  obind (true_div i num_inference_steps)
        (fun x => py_round (float_mul_int x 100)).

(** The figure as a function of the exact ratio [i / n], when nothing
    overflows. *)
Definition report (q : Q) : Z :=
  Binary64.round_half_even
    (Binary64.round_finite (Binary64.round_finite q * 100)%Q).

(** The same figure as the hardware computes it, on the kernel's binary64
    numbers; it is compared with [generated_percent] in Part II. *)
Definition SF2Q (f : SpecFloat.spec_float) : option Q :=
  match f with
  | SpecFloat.S754_zero _ => Some 0%Q
  | SpecFloat.S754_finite s m e =>
      Some ((if s then - inject_Z (Zpos m) else inject_Z (Zpos m)) * Binary64.pow2 e)%Q
  | _ => None
  end.

Definition hardware_percent (i n : Z) : option Z :=
  let x := (PrimFloat.of_uint63 (Uint63.of_Z i) / PrimFloat.of_uint63 (Uint63.of_Z n))%float in
  option_map Binary64.round_half_even (SF2Q (Prim2SF (x * 100)%float)).

(* ----------------------------------------------------------------- *)
(** ** Strings and dictionaries *)

(** [str(n)] as an f-string prints an int. *)
Definition str_of_int (n : Z) : string := NilZero.string_of_int (Z.to_int n).

Inductive pyval : Type :=
| PInt (n : Z)
| PStr (s : string).

Definition format (v : pyval) : string :=
  match v with PInt n => str_of_int n | PStr s => s end.

(** A dict with string keys, as an association list; [d[k]]. *)
Definition dict := list (string * pyval).

Fixpoint getitem (d : dict) (k : string) : outcome pyval :=
  match d with
  | [] => Raise KeyError
  | (k', v) :: d' => if String.eqb k k' then Ok v else getitem d' k
  end.

(** [l[i]] on a sequence. *)
Definition list_index {A} (l : list A) (i : nat) : outcome A :=
  match nth_error l i with Some x => Ok x | None => Raise IndexError end.

(** [":" in url]. *)
Definition has_colon (url : string) : bool :=
  existsb (Ascii.eqb ":"%char) (list_ascii_of_string url).

(* ----------------------------------------------------------------- *)
(** ** NumPy arrays

    An array is its shape and its elements in row-major order. *)
Record ndarray (A : Type) : Type := mk_ndarray {
  shape : list nat;
  data : list A
}.

Arguments mk_ndarray {A} shape data.

Definition size (s : list nat) : nat := fold_right Nat.mul 1%nat s.

Definition well_formed {A} (a : ndarray A) : Prop :=
  List.length (data a) = size (shape a).

(** An operation applied element by element. *)
Definition np_map {A B} (f : A -> B) (a : ndarray A) : ndarray B :=
  mk_ndarray (shape a) (map f (data a)).

(** A binary operation on two arrays of one shape. *)
Definition np_zip {A B C} (f : A -> B -> C) (a : ndarray A) (b : ndarray B) : ndarray C :=
  mk_ndarray (shape a) (map (fun p => f (fst p) (snd p)) (combine (data a) (data b))).

(** [np.array([l])]. *)
Definition np_array1 {A} (l : list A) : ndarray A :=
  mk_ndarray [1%nat; List.length l] l.

(** [a[k]]. *)
Definition np_index {A} (a : ndarray A) (k : nat) : outcome (ndarray A) :=
  match shape a with
  | [] => Raise IndexError
  | n :: s =>
      if (k <? n)%nat
      then Ok (mk_ndarray s (firstn (size s) (skipn (k * size s) (data a))))
      else Raise IndexError
  end.

(** [np.concatenate((a, b), axis=0)]. *)
Definition np_concatenate0 {A} (a b : ndarray A) : outcome (ndarray A) :=
  match shape a, shape b with
  | n :: s, m :: s' =>
      if list_eq_dec Nat.eq_dec s s'
      then Ok (mk_ndarray ((n + m)%nat :: s) (data a ++ data b))
      else Raise ValueError
  | _, _ => Raise ValueError
  end.

(** [np.stack([a, a], 0)]. *)
Definition np_stack_pair {A} (a : ndarray A) : ndarray A :=
  mk_ndarray (2%nat :: shape a) (data a ++ data a).

(** [np.expand_dims(a, 0)]. *)
Definition np_expand_dims0 {A} (a : ndarray A) : ndarray A :=
  mk_ndarray (1%nat :: shape a) (data a).

Definition pick {A} (d : list A) (k : nat) : list A :=
  match nth_error d k with Some x => [x] | None => [] end.

(** The three nested loops of [transpose(1, 2, 0)] on [c] planes of [h]
    rows of [w] elements: element [(i, j, k)] of the result is element
    [(k, i, j)] of the argument. *)
Definition transposed {A} (d : list A) (c h w : nat) : list A :=
  flat_map (fun i =>
    flat_map (fun j =>
      flat_map (fun k => pick d ((k * h + i) * w + j)) (seq 0 c))
             (seq 0 w))
           (seq 0 h).

(** [a.transpose(1, 2, 0)]. *)
Definition np_transpose_120 {A} (a : ndarray A) : outcome (ndarray A) :=
  match shape a with
  | [c; h; w] => Ok (mk_ndarray [h; w; c] (transposed (data a) c h w))
  | _ => Raise ValueError
  end.

(** [n] runs of [c] elements, each run reversed. *)
Definition flipped {A} (d : list A) (n c : nat) : list A :=
  flat_map (fun p => rev (firstn c (skipn (p * c) d))) (seq 0 n).

(** [a[:, :, ::-1]]: the last axis of a 3-dimensional array reversed. *)
Definition np_flip_axis2 {A} (a : ndarray A) : outcome (ndarray A) :=
  match shape a with
  | [h; w; c] => Ok (mk_ndarray [h; w; c] (flipped (data a) (h * w) c))
  | _ => Raise IndexError
  end.

(** The floating-point element type of the arrays: the models compute in
    their own precision, so the operations are an interface. *)
Class Dtype (F : Type) : Type := {
  of_int : Z -> F;
  of_float : float -> F;
  fadd : F -> F -> F;
  fsub : F -> F -> F;
  fmul : F -> F -> F;
  fdiv : F -> F -> F;
  fpow : F -> F -> F;
  fclip : F -> F -> F -> F;
  ftrunc : F -> Z
}.

(** [astype(np.uint8)]: the integer part, kept in eight bits. *)
Definition astype_uint8 {F} `{Dtype F} (x : F) : Z := (ftrunc x mod 256)%Z.

(** One pixel, from one element of the decoder's output: lines 159-161 on
    a single value. *)
Definition pixel {F} `{Dtype F} (x : F) : Z :=
  astype_uint8
    (fmul (fclip (fadd (fdiv x (of_int 2)) (of_float 0.5%float)) (of_int 0) (of_int 1))
          (of_int 255)).

(* ----------------------------------------------------------------- *)
(** ** The libraries the script calls *)

(** [padding=] of a tokenizer call. *)
Inductive padding : Type :=
| PadMaxLength
| PadLongest
| DoNotPad.

Section Pipeline.

(** Array elements, scheduler time values, and the objects of the
    libraries: a tokenizer, a model as read, a model as compiled, a
    scheduler, and the state of NumPy's process-wide random generator. *)
Variables F Time Tokenizer Graph Compiled Sched Gen : Type.
Context {DF : Dtype F}.

(** The second positional argument of [scheduler.step]. *)
Inductive step_arg : Type :=
| StepIndex (i : nat)
| StepTime (t : Time).

(** The calls that leave the process or touch process-wide state. *)
Inductive call : Type :=
| CSeed (seed : Z)
| CNewScheduler (beta_start beta_end : float) (beta_schedule : string)
| CFromPretrained (name : string)
| CDownload (repo_id filename : string)
| CReadModel (xml bin : string)
| CCompileModel (device : string)
| CTokenize (text : string) (max_length : nat)
| CEncode (tokens : ndarray Z)
| CRandn (g : Gen) (dims : list nat)
| CSetTimesteps (s : Sched) (n : Z) (offset : option Z)
| CPrint (i : nat) (percent : option Z)
| CUnet (latent_model_input : ndarray F) (t : Time) (encoder_hidden_states : ndarray F)
| CPut (url : string) (generated_percent : Z)
| CStep (s : Sched) (noise_pred : ndarray F) (arg : step_arg) (latents : ndarray F)
        (eta : option float)
| CDecode (latents : ndarray F)
| CImwrite (path : string) (image : ndarray Z).

(** A call is logged when it returns or raises; [ev_ok] tells which. *)
Record event : Type := mk_event {
  ev_call : call;
  ev_ok : bool
}.

(** The libraries.  A forward pass is a function of its inputs (the
    models are fixed once loaded); each call may raise. *)
Record Env : Type := {
  (* transformers *)
  from_pretrained : string -> outcome Tokenizer;
  model_max_length : Tokenizer -> nat;
  tokenize : Tokenizer -> string -> padding -> nat -> bool -> outcome (list Z);
  (* huggingface_hub, openvino *)
  hf_hub_download : string -> string -> outcome string;
  read_model : string -> string -> outcome Graph;
  compile_model : Graph -> string -> outcome Compiled;
  input_shape : Graph -> list nat;
  infer_tokens : Compiled -> ndarray Z -> outcome (ndarray F);
  infer_unet : Compiled -> ndarray F -> Time -> ndarray F -> outcome (ndarray F);
  infer_latents : Compiled -> ndarray F -> outcome (ndarray F);
  (* numpy.random *)
  np_seed : Z -> outcome Gen;
  randn : Gen -> list nat -> ndarray F * Gen;
  (* diffusers *)
  LMSDiscreteScheduler : float -> float -> string -> outcome Sched;
  is_LMS : Sched -> bool;
  set_timesteps_params : Sched -> list string;
  step_params : Sched -> list string;
  set_timesteps : Sched -> Z -> option Z -> outcome Sched;
  timesteps : Sched -> list Time;
  sigmas : Sched -> list F;
  step : Sched -> ndarray F -> step_arg -> ndarray F -> option float ->
         outcome (ndarray F * Sched);
  (* the status endpoint, which may answer differently each time *)
  net_put : list event -> string -> Z -> outcome unit;
  (* cv2 *)
  imwrite : string -> ndarray Z -> outcome bool
}.

Variable env : Env.

(* --------------------------------------------------------------- *)
(** ** Running the script: a log of calls, the generator, exceptions *)

Record state : Type := mk_state {
  trace : list event;
  rng : Gen
}.

Definition M (A : Type) : Type := state -> outcome A * state.

Definition ret {A} (a : A) : M A := fun st => (Ok a, st).

Definition bind {A B} (m : M A) (f : A -> M B) : M B :=
  fun st =>
    match m st with
    | (Ok a, st') => f a st'
    | (Raise e, st') => (Raise e, st')
    end.

Definition lift {A} (r : outcome A) : M A := fun st => (r, st).

Definition log (c : call) (ok : bool) (st : state) : state :=
  mk_state (trace st ++ [mk_event c ok]) (rng st).

(** A library call with its answer. *)
Definition perform {A} (c : call) (r : outcome A) : M A :=
  fun st => (r, log c (is_ok r) st).

Notation "x <- m ;; k" := (bind m (fun x => k))
  (at level 61, m at next level, right associativity).
Notation "' p <- m ;; k" := (bind m (fun p => k))
  (at level 61, p pattern, m at next level, right associativity).

(** [np.random.seed(seed)]. *)
Definition np_random_seed (seed : Z) : M unit :=
  fun st =>
    match np_seed env seed with
    | Ok g => (Ok tt, mk_state (trace st ++ [mk_event (CSeed seed) true]) g)
    | Raise e => (Raise e, log (CSeed seed) false st)
    end.

(** [np.random.randn] on the dimensions of the latent. *)
Definition np_random_randn (dims : list nat) : M (ndarray F) :=
  fun st =>
    let (x, g) := randn env (rng st) dims in
    (Ok x, mk_state (trace st ++ [mk_event (CRandn (rng st) dims) true]) g).

(** [requests.put(url, json=...)].  [requests] prepares the URL before it
    sends anything: a URL with no [":"] has no scheme and [MissingSchema]
    is raised.  Any other URL is left to the endpoint, whose answer (or
    the exception raised on the way) is [net_put]'s. *)
Definition requests_put (url : string) (percent : Z) : M unit :=
  fun st =>
    let r := if has_colon url then net_put env (trace st) url percent
             else Raise MissingSchema in
    (r, log (CPut url percent) (is_ok r) st).

(* --------------------------------------------------------------- *)
(** ** [StableDiffusion.__init__], lines 20-49 *)

Record StableDiffusion : Type := {
  sd_tokenizer : Tokenizer;
  sd_scheduler : Sched;
  sd_text_encoder : Compiled;
  sd_unet : Compiled;
  sd_latent_shape : list nat;
  sd_vae : Compiled
}.

(** [core.read_model(hf_hub_download(.xml), hf_hub_download(.bin))] and
    [core.compile_model]. *)
Definition load_model (model name device : string) : M (Graph * Compiled) :=
  xml <- perform (CDownload model (name ++ ".xml"))
                 (hf_hub_download env model (name ++ ".xml")) ;;
  bin <- perform (CDownload model (name ++ ".bin"))
                 (hf_hub_download env model (name ++ ".bin")) ;;
  g <- perform (CReadModel xml bin) (read_model env xml bin) ;;
  c <- perform (CCompileModel device) (compile_model env g device) ;;
  ret (g, c).

Definition init (scheduler : Sched) (model tokenizer device : string) : M StableDiffusion :=
  tk <- perform (CFromPretrained tokenizer) (from_pretrained env tokenizer) ;;
  te <- load_model model "text_encoder" device ;;
  un <- load_model model "unet" device ;;
  va <- load_model model "vae_decoder" device ;;
  ret {| sd_tokenizer := tk;
         sd_scheduler := scheduler;
         sd_text_encoder := snd te;
         sd_unet := snd un;
         sd_latent_shape := tl (input_shape env (fst un));
         sd_vae := snd va |}.

(* --------------------------------------------------------------- *)
(** ** [StableDiffusion.__call__], lines 51-162 *)

Section Call.

Variable sd : StableDiffusion.

(** [guidance_scale > 1.0]. *)
Definition guidance_on (guidance_scale : float) : bool := (1 <? guidance_scale)%float.

(** Lines 57-65, and again lines 69-78 for the empty string: tokenize
    with [padding="max_length"], [truncation=True], and run the encoder
    on a batch of one. *)
Definition embed (text : string) : M (ndarray F) :=
  let max_length := model_max_length env (sd_tokenizer sd) in
  tokens <- perform (CTokenize text max_length)
              (tokenize env (sd_tokenizer sd) text PadMaxLength max_length true) ;;
  perform (CEncode (np_array1 tokens))
          (infer_tokens env (sd_text_encoder sd) (np_array1 tokens)).

(** Lines 57-80. *)
Definition text_conditioning (prompt : string) (guidance_scale : float) : M (ndarray F) :=
  text_embeddings <- embed prompt ;;
  if guidance_on guidance_scale then
    uncond_embeddings <- embed "" ;;
    lift (np_concatenate0 uncond_embeddings text_embeddings)
  else ret text_embeddings.

(** [name in set(inspect.signature(f).parameters.keys())]. *)
Definition accepts (name : string) (params : list string) : bool :=
  existsb (String.eqb name) params.

(** Lines 86-90. *)
Definition extra_set_kwargs (s : Sched) : option Z :=
  if accepts "offset" (set_timesteps_params env s) then Some 1%Z else None.

(** Lines 102-106. *)
Definition extra_step_kwargs (s : Sched) (eta : float) : option float :=
  if accepts "eta" (step_params env s) then Some eta else None.

(** Lines 83-106: the noise, the time steps, the first sigma. *)
Definition prepare (num_inference_steps : Z) (eta : float)
  : M (ndarray F * Sched * option float) :=
  latents <- np_random_randn (sd_latent_shape sd) ;;
  let kw := extra_set_kwargs (sd_scheduler sd) in
  s <- perform (CSetTimesteps (sd_scheduler sd) num_inference_steps kw)
               (set_timesteps env (sd_scheduler sd) num_inference_steps kw) ;;
  latents <- (if is_LMS env s
              then sigma0 <- lift (list_index (sigmas env s) 0) ;;
                   ret (np_map (fun x => fmul x sigma0) latents)
              else ret latents) ;;
  ret (latents, s, extra_step_kwargs s eta).

(** [x / ((sigma**2 + 1) ** 0.5)], lines 116-117. *)
Definition lms_scale (sigma : F) (x : ndarray F) : ndarray F :=
  np_map (fun v => fdiv v (fpow (fadd (fpow sigma (of_int 2)) (of_int 1))
                                (of_float 0.5%float))) x.

(** Lines 114-117. *)
Definition scale_model_input (s : Sched) (i : nat) (x : ndarray F) : outcome (ndarray F) :=
  if is_LMS env s
  then obind (list_index (sigmas env s) i) (fun sigma => Ok (lms_scale sigma x))
  else Ok x.

(** The f-string of line 139. *)
Definition progress_url (server token : string) (next_prompt : dict) : outcome string :=
  obind (getitem next_prompt "id")
        (fun id => Ok (server ++ "/prompt/" ++ format id ++ "?token=" ++ token)%string).

(** [uncond + guidance_scale * (cond - uncond)] on two arrays. *)
Definition guided (guidance_scale : float) (uncond cond : ndarray F) : ndarray F :=
  np_zip fadd uncond (np_map (fmul (of_float guidance_scale)) (np_zip fsub cond uncond)).

(** Lines 142-144. *)
Definition guide (guidance_scale : float) (noise_pred : ndarray F) : outcome (ndarray F) :=
  if guidance_on guidance_scale then
    obind (np_index noise_pred 0) (fun uncond =>
    obind (np_index noise_pred 1) (fun cond =>
      Ok (guided guidance_scale uncond cond)))
  else Ok noise_pred.

(** Lines 147-152. *)
Definition step_argument (s : Sched) (i : nat) (t : Time) : step_arg :=
  if is_LMS env s then StepIndex i else StepTime t.

Variables (num_inference_steps : Z) (guidance_scale : float).
Variables (server token : string) (next_prompt : dict).

(** One turn of the loop, lines 111-152.  The elapsed-time figures of the
    console message are read from the clock and are not modelled. *)
Definition iteration (text_embeddings : ndarray F) (kw : option float)
    (i : nat) (t : Time) (acc : ndarray F * Sched) : M (ndarray F * Sched) :=
  let (latents, s) := acc in
  latent_model_input <-
    lift (scale_model_input s i
            (if guidance_on guidance_scale then np_stack_pair latents else latents)) ;;
  _ <- perform (CPrint i None) (Ok tt) ;;
  noise_pred <- perform (CUnet latent_model_input t text_embeddings)
                  (infer_unet env (sd_unet sd) latent_model_input t text_embeddings) ;;
  percent <- lift (generated_percent (Z.of_nat i) num_inference_steps) ;;
  _ <- perform (CPrint i (Some percent)) (Ok tt) ;;
  url <- lift (progress_url server token next_prompt) ;;
  _ <- requests_put url percent ;;
  noise_pred <- lift (guide guidance_scale noise_pred) ;;
  let arg := step_argument s i t in
  perform (CStep s noise_pred arg latents kw) (step env s noise_pred arg latents kw).

(** [for i, t in enumerate(self.scheduler.timesteps)]. *)
Fixpoint sampling_loop (text_embeddings : ndarray F) (kw : option float)
    (i : nat) (ts : list Time) (acc : ndarray F * Sched) : M (ndarray F * Sched) :=
  match ts with
  | [] => ret acc
  | t :: ts' =>
      acc' <- iteration text_embeddings kw i t acc ;;
      sampling_loop text_embeddings kw (S i) ts' acc'
  end.

(** Lines 159-161. *)
Definition postprocess (image : ndarray F) : outcome (ndarray Z) :=
  let image := np_map (fun x => fclip (fadd (fdiv x (of_int 2)) (of_float 0.5%float))
                                      (of_int 0) (of_int 1)) image in
  obind (np_index image 0) (fun chw =>
  obind (np_transpose_120 chw) (fun hwc =>
  obind (np_flip_axis2 hwc) (fun bgr =>
    Ok (np_map astype_uint8 (np_map (fun x => fmul x (of_int 255)) bgr))))).

(** Lines 154-162. *)
Definition decode_image (latents : ndarray F) : M (ndarray Z) :=
  image <- perform (CDecode (np_expand_dims0 latents))
             (infer_latents env (sd_vae sd) (np_expand_dims0 latents)) ;;
  lift (postprocess image).

Definition pipeline (prompt : string) (eta : float) : M (ndarray Z) :=
  text_embeddings <- text_conditioning prompt guidance_scale ;;
  '(latents, s, kw) <- prepare num_inference_steps eta ;;
  '(latents, _) <- sampling_loop text_embeddings kw 0 (timesteps env s) (latents, s) ;;
  decode_image latents.

End Call.

(* --------------------------------------------------------------- *)
(** ** The two entry points, lines 165-210 *)

(** The parsed command line, lines 214-243. *)
Record Args : Type := {
  model : string;
  beta_start : float;
  beta_end : float;
  beta_schedule : string;
  num_inference_steps : Z;
  guidance_scale : float;
  eta : float;
  tokenizer : string;
  prompt : string;
  seed : option Z;
  output : string
}.

(** The default of [next_prompt] in the signature of [__call__]. *)
Definition default_next_prompt : dict := [("id"%string, PInt 0)].

Definition main (args : Args) : M unit :=
  _ <- match seed args with
       | Some n => np_random_seed n
       | None => ret tt
       end ;;
  scheduler <- perform (CNewScheduler (beta_start args) (beta_end args) (beta_schedule args))
                 (LMSDiscreteScheduler env (beta_start args) (beta_end args)
                    (beta_schedule args)) ;;
  stable_diffusion <- init scheduler (model args) (tokenizer args) "CPU" ;;
  image <- pipeline stable_diffusion (num_inference_steps args) (guidance_scale args)
             "" "" default_next_prompt (prompt args) (eta args) ;;
  _ <- perform (CImwrite (output args) image) (imwrite env (output args) image) ;;
  ret tt.

Definition run_stable_diffusion (prompt : string) (iterations seed : Z) (output : string)
    (server token : string) (next_prompt : dict) : M unit :=
  _ <- np_random_seed seed ;;
  scheduler <- perform (CNewScheduler 0.00085%float 0.012%float "scaled_linear")
                 (LMSDiscreteScheduler env 0.00085%float 0.012%float "scaled_linear") ;;
  stable_diffusion <- init scheduler "bes-dev/stable-diffusion-v1-4-openvino"
                        "openai/clip-vit-large-patch14" "CPU" ;;
  image <- pipeline stable_diffusion iterations 7.5%float server token next_prompt
             prompt 0.0%float ;;
  _ <- perform (CImwrite output image) (imwrite env output image) ;;
  ret tt.

End Pipeline.

Arguments CSeed {F Time Sched Gen}.
Arguments CNewScheduler {F Time Sched Gen}.
Arguments CFromPretrained {F Time Sched Gen}.
Arguments CDownload {F Time Sched Gen}.
Arguments CReadModel {F Time Sched Gen}.
Arguments CCompileModel {F Time Sched Gen}.
Arguments CTokenize {F Time Sched Gen}.
Arguments CEncode {F Time Sched Gen}.
Arguments CRandn {F Time Sched Gen}.
Arguments CSetTimesteps {F Time Sched Gen}.
Arguments CPrint {F Time Sched Gen}.
Arguments CUnet {F Time Sched Gen}.
Arguments CPut {F Time Sched Gen}.
Arguments CStep {F Time Sched Gen}.
Arguments CDecode {F Time Sched Gen}.
Arguments CImwrite {F Time Sched Gen}.
Arguments StepIndex {Time} i.
Arguments StepTime {Time} t.

(* ----------------------------------------------------------------- *)
(** ** A small environment to run the script in *)

(** The arrays hold the kernel's binary64 numbers. *)
Definition float_of_Z (z : Z) : float :=
  if (z <? 0)%Z then (- PrimFloat.of_uint63 (Uint63.of_Z (- z)))%float
  else PrimFloat.of_uint63 (Uint63.of_Z z).

(** The integer part of a finite number; 0 for the others. *)
Definition float_trunc (x : float) : Z :=
  match Prim2SF x with
  | SpecFloat.S754_finite s m e =>
      let v := if (0 <=? e)%Z then (Zpos m * 2 ^ e)%Z else (Zpos m / 2 ^ (- e))%Z in
      if s then (- v)%Z else v
  | _ => 0%Z
  end.

#[export] Instance float64 : Dtype float := {|
  of_int := float_of_Z;
  of_float := fun x => x;
  fadd := PrimFloat.add;
  fsub := PrimFloat.sub;
  fmul := PrimFloat.mul;
  fdiv := PrimFloat.div;
  fpow := fun x y =>
    if (y =? 2)%float then (x * x)%float
    else if (y =? 0.5)%float then PrimFloat.sqrt x
    else PrimFloat.nan;
  fclip := fun x lo hi =>
    if (x <? lo)%float then lo else if (hi <? x)%float then hi else x;
  ftrunc := float_trunc
|}.

(** A scheduler of the small environment: its class and its time steps. *)
Record demo_scheduler : Type := {
  lms : bool;
  steps : list Z
}.

Definition demo_tokenize (text : string) (p : padding) (n : nat) (truncation : bool)
    : list Z :=
  let ids := map (fun c => Z.of_nat (nat_of_ascii c)) (list_ascii_of_string text) in
  let ids := if truncation then firstn n ids else ids in
  match p with
  | PadMaxLength => ids ++ repeat 0%Z (n - List.length ids)
  | _ => ids
  end.

(** Models of two tokens, one latent plane of 1 x 2 and an image of
    1 x 2 pixels; the status endpoint answers until three quarters of
    the run are done. *)
Definition demo_env : Env float Z nat string string demo_scheduler Z := {|
  from_pretrained := fun _ => Ok 4%nat;
  model_max_length := fun tk => tk;
  tokenize := fun _ text p n truncation => Ok (demo_tokenize text p n truncation);
  hf_hub_download := fun _ filename => Ok filename;
  read_model := fun xml _ => Ok xml;
  compile_model := fun g _ => Ok g;
  input_shape := fun _ => [2; 1; 1; 2]%nat;
  infer_tokens := fun _ tokens =>
    Ok (mk_ndarray [1; 2]%nat [float_of_Z (fold_right Z.add 0%Z (data tokens)); 1%float]);
  infer_unet := fun _ x _ _ => Ok x;
  infer_latents := fun _ _ =>
    Ok (mk_ndarray [1; 3; 1; 2]%nat [1; -1; 0; 0.5; 3; -3]%float);
  np_seed := fun n =>
    if ((0 <=? n) && (n <? 2 ^ 32))%Z then Ok n else Raise ValueError;
  randn := fun g dims => (mk_ndarray dims (repeat (float_of_Z g) (size dims)), (g + 1)%Z);
  LMSDiscreteScheduler := fun _ _ _ => Ok {| lms := true; steps := [] |};
  is_LMS := lms;
  set_timesteps_params := fun _ => ["num_inference_steps"%string];
  step_params := fun _ => ["model_output"; "timestep"; "sample"; "order"]%string;
  set_timesteps := fun s n _ =>
    Ok {| lms := lms s; steps := rev (map Z.of_nat (seq 0 (Z.to_nat n))) |};
  timesteps := steps;
  sigmas := fun s => map (fun _ => 1%float) (steps s) ++ [0%float];
  step := fun s noise_pred _ latents _ => Ok (np_zip PrimFloat.sub latents noise_pred, s);
  net_put := fun _ _ percent =>
    if (percent <? 75)%Z then Ok tt else Raise (External "ConnectionError"%string);
  imwrite := fun _ _ => Ok true
|}.

Definition demo_state : state float Z demo_scheduler Z := mk_state [] 0%Z.

Definition demo_sd : StableDiffusion nat string demo_scheduler := {|
  sd_tokenizer := 4%nat;
  sd_scheduler := {| lms := true; steps := [] |};
  sd_text_encoder := "text_encoder.xml"%string;
  sd_unet := "unet.xml"%string;
  sd_latent_shape := [1; 1; 2]%nat;
  sd_vae := "vae_decoder.xml"%string
|}.

(** The command line of the end-to-end scenario. *)
Definition red_cube : Args := {|
  model := "bes-dev/stable-diffusion-v1-4-openvino"%string;
  beta_start := 0.00085%float;
  beta_end := 0.012%float;
  beta_schedule := "scaled_linear"%string;
  num_inference_steps := 2;
  guidance_scale := 1.0%float;
  eta := 0.0%float;
  tokenizer := "openai/clip-vit-large-patch14"%string;
  prompt := "a red cube"%string;
  seed := Some 42%Z;
  output := "output.png"%string
|}.

Definition is_put {F Time Sched Gen} (c : call F Time Sched Gen) : bool :=
  match c with CPut _ _ => true | _ => false end.

Definition is_imwrite {F Time Sched Gen} (c : call F Time Sched Gen) : bool :=
  match c with CImwrite _ _ => true | _ => false end.

Definition is_unet {F Time Sched Gen} (c : call F Time Sched Gen) : bool :=
  match c with CUnet _ _ _ => true | _ => false end.

Definition is_decode {F Time Sched Gen} (c : call F Time Sched Gen) : bool :=
  match c with CDecode _ => true | _ => false end.

Definition count {F Time Sched Gen} (p : call F Time Sched Gen -> bool)
    (st : state F Time Sched Gen) : nat :=
  List.length (filter (fun ev => p (ev_call ev)) (trace st)).

(* ================================================================= *)
(** * Part II: lemmas *)

Unset Implicit Arguments.

(* ----------------------------------------------------------------- *)
(** ** Rounding to the nearest double is monotone *)

Module Binary64Facts.

Import Binary64.
Local Open Scope Q_scope.

Lemma round_half_even_comp x y : x == y -> round_half_even x = round_half_even y.
Proof.
  intros H. unfold round_half_even.
  rewrite (Qfloor_comp _ _ H).
  assert (E : x - inject_Z (Qfloor y) == y - inject_Z (Qfloor y)) by (rewrite H; reflexivity).
  rewrite (Qcompare_comp _ _ E _ _ (Qeq_refl (1#2))). reflexivity.
Qed.

Lemma round_half_even_near x :
  inject_Z (round_half_even x) - (1#2) <= x /\ x <= inject_Z (round_half_even x) + (1#2).
Proof.
  unfold round_half_even.
  pose proof (Qfloor_le x) as Hl. pose proof (Qlt_floor x) as Hu.
  rewrite inject_Z_plus in Hu. change (inject_Z 1) with 1 in Hu.
  destruct (Qcompare_spec (x - inject_Z (Qfloor x)) (1#2)) as [H|H|H].
  - destruct (Z.even (Qfloor x)); [|rewrite inject_Z_plus; change (inject_Z 1) with 1]; lra.
  - lra.
  - rewrite inject_Z_plus; change (inject_Z 1) with 1; lra.
Qed.

Lemma round_half_even_mono x y : x <= y -> (round_half_even x <= round_half_even y)%Z.
Proof.
  intros Hxy.
  destruct (Z_le_gt_dec (round_half_even x) (round_half_even y)) as [|Hgt]; [assumption|].
  exfalso.
  destruct (round_half_even_near x) as [Hx _].
  destruct (round_half_even_near y) as [_ Hy].
  assert (Hz : (round_half_even y + 1 <= round_half_even x)%Z) by lia.
  rewrite Zle_Qle, inject_Z_plus in Hz. change (inject_Z 1) with 1 in Hz.
  assert (E : x == y) by lra.
  apply round_half_even_comp in E. lia.
Qed.

Lemma round_half_even_Z k : round_half_even (inject_Z k) = k.
Proof.
  unfold round_half_even. rewrite Qfloor_Z.
  assert (E : inject_Z k - inject_Z k == 0) by ring.
  rewrite (Qcompare_comp _ _ E _ _ (Qeq_refl (1#2))). reflexivity.
Qed.


Lemma pow2_pos k : 0 < pow2 k.
Proof. apply Qpower_0_lt. reflexivity. Qed.

Lemma pow2_add a b : pow2 (a + b) == pow2 a * pow2 b.
Proof. apply Qpower_plus. discriminate. Qed.

Lemma pow2_succ a : pow2 (a + 1) == 2 * pow2 a.
Proof. rewrite pow2_add. change (pow2 1) with 2. ring. Qed.

Lemma pow2_le a b : (a <= b)%Z -> pow2 a <= pow2 b.
Proof. intros H. apply Qpower_le_compat_l; [assumption | discriminate]. Qed.

Lemma pow2_Z k : (0 <= k)%Z -> pow2 k == inject_Z (2 ^ k).
Proof. intros H. unfold pow2. rewrite Zpower_Qpower by assumption. reflexivity. Qed.

Lemma pow2_sub a b : pow2 (a - b) * pow2 b == pow2 a.
Proof. rewrite <- pow2_add. replace (a - b + b)%Z with a by ring. reflexivity. Qed.

Lemma Z_log2_pow2 a : (0 < a)%Z ->
  pow2 (Z.log2 a) <= inject_Z a /\ inject_Z a < 2 * pow2 (Z.log2 a).
Proof.
  intros Ha. destruct (Z.log2_spec a Ha) as [H1 H2].
  pose proof (Z.log2_nonneg a) as Hn.
  rewrite <- pow2_succ, !pow2_Z by lia.
  split; [rewrite <- Zle_Qle | rewrite <- Zlt_Qlt]; [assumption|].
  replace (Z.log2 a + 1)%Z with (Z.succ (Z.log2 a)) by lia. assumption.
Qed.

Lemma ilog2_spec x : 0 < x -> pow2 (ilog2 x) <= x /\ x < pow2 (ilog2 x + 1).
Proof.
  intros Hx. unfold ilog2.
  destruct x as [a b]. cbn [Qnum Qden].
  assert (Ha : (0 < a)%Z) by (unfold Qlt in Hx; cbn in Hx; lia).
  destruct (Z_log2_pow2 a Ha) as [A1 A2].
  destruct (Z_log2_pow2 (Zpos b) eq_refl) as [B1 B2].
  set (la := Z.log2 a) in *. set (lb := Z.log2 (Zpos b)) in *.
  pose proof (pow2_pos la) as Pa. pose proof (pow2_pos lb) as Pb.
  pose proof (pow2_sub la lb) as Hy.
  pose proof (pow2_pos (la - lb)) as Py.
  assert (Hxb : (a # b) * inject_Z (Zpos b) == inject_Z a).
  { unfold Qeq, Qmult, inject_Z; cbn [Qnum Qden]. rewrite Pos.mul_1_r, Z.mul_1_r. reflexivity. }
  set (y := pow2 (la - lb)) in *. set (x := a # b) in *.
  set (A := inject_Z a) in *. set (B := inject_Z (Zpos b)) in *.
  assert (Bp : 0 < B) by reflexivity.
  destruct (Qle_bool y x) eqn:E.
  - apply Qle_bool_iff in E. split; [assumption|].
    unfold y. rewrite pow2_succ. fold y.
    apply Qnot_le_lt. intros C.
    assert (2 * y * pow2 lb <= x * B) by (apply Qle_trans with (x * pow2 lb); [apply Qmult_le_compat_r; lra | rewrite !(Qmult_comm x); apply Qmult_le_compat_r; lra]).
    lra.
  - assert (E' : x < y).
    { apply Qnot_le_lt. intros C. apply Qle_bool_iff in C. congruence. }
    replace (la - lb - 1 + 1)%Z with (la - lb)%Z by ring. fold y.
    split; [|assumption].
    assert (Hh : pow2 (la - lb - 1) * 2 == y).
    { unfold y. replace (la - lb)%Z with (la - lb - 1 + 1)%Z at 2 by ring. rewrite pow2_succ. ring. }
    pose proof (pow2_pos (la - lb - 1)) as Ph.
    set (h := pow2 (la - lb - 1)) in *.
    apply Qnot_lt_le. intros C.
    assert (x * B < h * (2 * pow2 lb)).
    { apply Qle_lt_trans with (x * (2 * pow2 lb)).
      - rewrite !(Qmult_comm x). apply Qmult_le_compat_r; lra.
      - apply Qmult_lt_compat_r; lra. }
    rewrite <- Hh in Hy. lra.
Qed.

Lemma ilog2_mono x y : 0 < x -> x <= y -> (ilog2 x <= ilog2 y)%Z.
Proof.
  intros Hx Hxy.
  destruct (ilog2_spec x Hx) as [X1 _].
  destruct (ilog2_spec y) as [_ Y2]; [lra|].
  destruct (Z_le_gt_dec (ilog2 x) (ilog2 y)) as [|Hgt]; [assumption|exfalso].
  assert (H : pow2 (ilog2 y + 1) <= pow2 (ilog2 x)) by (apply pow2_le; lia).
  lra.
Qed.

Lemma grid_mono E x y : x <= y -> grid E x <= grid E y.
Proof.
  intros H. unfold grid. pose proof (pow2_pos E) as P.
  apply Qmult_le_compat_r; [|lra].
  rewrite <- Zle_Qle. apply round_half_even_mono.
  unfold Qdiv. apply Qmult_le_compat_r; [assumption|].
  apply Qinv_le_0_compat. lra.
Qed.

Lemma grid_fix E k : grid E (inject_Z k * pow2 E) == inject_Z k * pow2 E.
Proof.
  unfold grid. pose proof (pow2_pos E) as P.
  rewrite (round_half_even_comp (inject_Z k * pow2 E / pow2 E) (inject_Z k)).
  - rewrite round_half_even_Z. reflexivity.
  - field. lra.
Qed.

Lemma grid_pow2 E e : (E <= e)%Z -> grid E (pow2 e) == pow2 e.
Proof.
  intros H.
  assert (X : pow2 e == inject_Z (2 ^ (e - E)) * pow2 E).
  { rewrite <- pow2_Z by lia. symmetry. apply pow2_sub. }
  assert (G : grid E (pow2 e) <= pow2 e /\ pow2 e <= grid E (pow2 e)).
  { split.
    - apply Qle_trans with (grid E (inject_Z (2 ^ (e - E)) * pow2 E)).
      + apply grid_mono. rewrite X. apply Qle_refl.
      + rewrite grid_fix, X. apply Qle_refl.
    - apply Qle_trans with (grid E (inject_Z (2 ^ (e - E)) * pow2 E)).
      + rewrite grid_fix, X. apply Qle_refl.
      + apply grid_mono. rewrite X. apply Qle_refl. }
  apply Qle_antisym; tauto.
Qed.

Lemma grid_0 E : grid E 0 == 0.
Proof.
  unfold grid. rewrite (round_half_even_comp (0 / pow2 E) (inject_Z 0)).
  - rewrite round_half_even_Z. ring.
  - unfold Qdiv. ring.
Qed.

Lemma round_pos_mono x y :
  0 < x -> x <= y -> grid (ulp_exp x) x <= grid (ulp_exp y) y.
Proof.
  intros Hx Hxy.
  pose proof (ilog2_mono x y Hx Hxy) as He.
  destruct (ilog2_spec x Hx) as [_ X2].
  destruct (ilog2_spec y) as [Y1 _]; [lra|].
  unfold ulp_exp, prec, emin in *.
  destruct (Z.eq_dec (Z.max (ilog2 x - (53 - 1)) (-1074)) (Z.max (ilog2 y - (53 - 1)) (-1074))) as [E|E].
  - rewrite E. apply grid_mono. assumption.
  - assert (L : (ilog2 x + 1 <= ilog2 y)%Z) by lia.
    pose proof (pow2_le _ _ L) as PL.
    apply Qle_trans with (pow2 (ilog2 y)).
    + rewrite <- (grid_pow2 (Z.max (ilog2 x - (53 - 1)) (-1074)) (ilog2 y)) by lia.
      apply grid_mono. lra.
    + rewrite <- (grid_pow2 (Z.max (ilog2 y - (53 - 1)) (-1074)) (ilog2 y)) at 1 by lia.
      apply grid_mono. assumption.
Qed.

Lemma Qnum_pos x : 0 < x -> exists p, Qnum x = Zpos p.
Proof.
  destruct x as [[|p|p] d]; unfold Qlt; cbn; intros H; try lia. eauto.
Qed.

Lemma Qnum_0 x : x == 0 -> Qnum x = 0%Z.
Proof. destruct x as [n d]; unfold Qeq; cbn; lia. Qed.

Lemma round_finite_pos x : 0 < x -> round_finite x = grid (ulp_exp x) x.
Proof. intros H. destruct (Qnum_pos x H) as [p Hp]. unfold round_finite. rewrite Hp. reflexivity. Qed.

Lemma round_finite_0 x : x == 0 -> round_finite x = 0.
Proof. intros H. unfold round_finite. rewrite (Qnum_0 x H). reflexivity. Qed.

Lemma round_finite_nonneg x : 0 <= x -> 0 <= round_finite x.
Proof.
  intros H. destruct (Qlt_le_dec 0 x) as [P|P].
  - rewrite round_finite_pos by assumption.
    rewrite <- (grid_0 (ulp_exp x)) at 1. apply grid_mono. assumption.
  - rewrite round_finite_0 by lra. apply Qle_refl.
Qed.

Lemma round_finite_mono x y : 0 <= x -> x <= y -> round_finite x <= round_finite y.
Proof.
  intros Hx Hxy. destruct (Qlt_le_dec 0 x) as [P|P].
  - rewrite !round_finite_pos by lra. apply round_pos_mono; assumption.
  - rewrite (round_finite_0 x) by lra. apply round_finite_nonneg. lra.
Qed.

End Binary64Facts.

(* ----------------------------------------------------------------- *)
(** ** The progress figure *)

Section Percent.

Import Binary64 Binary64Facts.
Local Open Scope Q_scope.

Lemma round_finite_1 : round_finite 1 == 1.
Proof. vm_compute. reflexivity. Qed.

Lemma round_finite_100 : round_finite 100 == 100.
Proof. vm_compute. reflexivity. Qed.

Lemma max_float_100 : 100 <= max_float.
Proof. vm_compute. discriminate. Qed.

Lemma binary64_small x : 0 <= x -> x <= 100 -> binary64 x = Some (round_finite x).
Proof.
  intros H0 H1. unfold binary64.
  pose proof (round_finite_nonneg x H0) as Hn.
  pose proof (round_finite_mono x 100 H0 H1) as Hm.
  rewrite round_finite_100 in Hm. pose proof max_float_100.
  replace (Qle_bool (Qabs (round_finite x)) max_float) with true; [reflexivity|].
  symmetry. apply Qle_bool_iff. rewrite Qabs_pos by assumption. lra.
Qed.

Lemma inject_Z_pos n : (0 < n)%Z -> 0 < inject_Z n.
Proof. intros H. change 0 with (inject_Z 0). rewrite <- Zlt_Qlt. assumption. Qed.

Lemma ratio_bounds i n :
  (0 <= i < n)%Z -> 0 <= inject_Z i / inject_Z n /\ inject_Z i / inject_Z n <= 1.
Proof.
  intros H.
  assert (Hn : 0 < inject_Z n) by (apply inject_Z_pos; lia).
  assert (Hi : 0 <= inject_Z i) by (change 0 with (inject_Z 0); rewrite <- Zle_Qle; lia).
  assert (Hin : inject_Z i <= inject_Z n) by (rewrite <- Zle_Qle; lia).
  split.
  - apply Qle_shift_div_l; lra.
  - apply Qle_shift_div_r; lra.
Qed.

Lemma ratio_le i j n :
  (0 < n)%Z -> (i <= j)%Z -> inject_Z i / inject_Z n <= inject_Z j / inject_Z n.
Proof.
  intros Hn H. pose proof (inject_Z_pos n Hn) as Hn'.
  unfold Qdiv. apply Qmult_le_compat_r.
  - rewrite <- Zle_Qle. assumption.
  - apply Qinv_le_0_compat. lra.
Qed.

Lemma report_mono x y : 0 <= x -> x <= y -> (report x <= report y)%Z.
Proof.
  intros Hx Hxy. unfold report.
  apply round_half_even_mono, round_finite_mono.
  - pose proof (round_finite_nonneg x Hx). lra.
  - pose proof (round_finite_mono x y Hx Hxy). lra.
Qed.

Lemma round_finite_le_1 x : 0 <= x -> x <= 1 -> round_finite x <= 1.
Proof. intros H0 H1. rewrite <- round_finite_1. apply round_finite_mono; assumption. Qed.

Lemma generated_percent_report i n :
  (0 <= i < n)%Z -> generated_percent i n = Ok (report (inject_Z i / inject_Z n)).
Proof.
  intros H. destruct (ratio_bounds i n H) as [R0 R1].
  unfold generated_percent, true_div.
  replace (n =? 0)%Z with false by (symmetry; apply Z.eqb_neq; lia).
  rewrite binary64_small by lra. cbn [obind].
  unfold float_mul_int. change (inject_Z 100) with 100.
  pose proof (round_finite_nonneg _ R0). pose proof (round_finite_le_1 _ R0 R1).
  rewrite binary64_small by lra. reflexivity.
Qed.

Lemma report_0 : report 0 = 0%Z.
Proof. vm_compute. reflexivity. Qed.

Lemma report_1 : report 1 = 100%Z.
Proof. vm_compute. reflexivity. Qed.

Lemma report_198_199 : report (198 # 199) = 99%Z.
Proof. vm_compute. reflexivity. Qed.

Lemma report_199_200 : report (199 # 200) = 100%Z.
Proof. vm_compute. reflexivity. Qed.

Lemma ratio_below_200 j n :
  (0 <= j < n)%Z -> (n < 200)%Z -> inject_Z j / inject_Z n <= 198 # 199.
Proof.
  intros H Hn. apply Qle_shift_div_r; [apply inject_Z_pos; lia|].
  unfold Qle, Qmult, inject_Z; cbn [Qnum Qden]. lia.
Qed.

Lemma ratio_from_200 n :
  (200 <= n)%Z -> 199 # 200 <= inject_Z (n - 1) / inject_Z n.
Proof.
  intros Hn. apply Qle_shift_div_l; [apply inject_Z_pos; lia|].
  unfold Qle, Qmult, inject_Z; cbn [Qnum Qden]. lia.
Qed.

End Percent.

(** The model of binary64 on the rationals and the kernel's binary64
    numbers give the same figure; checked for every run of up to 48
    steps, and at the inputs named below. *)
Definition agree_with_hardware (i n : Z) : bool :=
  match generated_percent i n, hardware_percent i n with
  | Ok p, Some q => (p =? q)%Z
  | _, _ => false
  end.

Lemma generated_percent_is_hardware_percent :
  forallb (fun n => forallb (fun i => agree_with_hardware (Z.of_nat i) (Z.of_nat n))
                            (seq 0 n))
          (seq 1 48) = true
  /\ agree_with_hardware 115 200 = true
  /\ agree_with_hardware 198 199 = true
  /\ agree_with_hardware 199 200 = true
  /\ agree_with_hardware 999 1000 = true.
Proof. vm_compute. repeat split. Qed.

(** C5, as amended: over one run of [n] steps the reported figure
    [round((i / n) * 100)] exists at every index [0 <= i < n], never
    decreases with [i], and lies between 0 and 100.  It stays below 100 at
    every index when [n < 200]; from [n = 200] on the last index reports
    100. *)
Theorem generated_percent_monotone_bounded (n i j : Z) :
  (0 <= i)%Z -> (i <= j)%Z -> (j < n)%Z ->
  exists p q,
    generated_percent i n = Ok p /\ generated_percent j n = Ok q /\
    (0 <= p)%Z /\ (p <= q)%Z /\ (q <= 100)%Z /\
    ((n < 200)%Z -> (q < 100)%Z) /\
    ((200 <= n)%Z -> generated_percent (n - 1) n = Ok 100%Z).
Proof.
  intros Hi Hij Hj.
  destruct (ratio_bounds i n ltac:(lia)) as [I0 I1].
  destruct (ratio_bounds j n ltac:(lia)) as [J0 J1].
  pose proof (ratio_le i j n ltac:(lia) Hij) as Hle.
  exists (report (inject_Z i / inject_Z n)), (report (inject_Z j / inject_Z n)).
  rewrite !generated_percent_report by lia.
  repeat split.
  - rewrite <- report_0. apply report_mono; [apply Qle_refl | assumption].
  - apply report_mono; assumption.
  - rewrite <- report_1. apply report_mono; assumption.
  - intros Hn. pose proof (ratio_below_200 j n ltac:(lia) Hn) as Hb.
    pose proof (report_mono _ _ J0 Hb) as Hr. rewrite report_198_199 in Hr. lia.
  - intros Hn. f_equal.
    destruct (ratio_bounds (n - 1) n ltac:(lia)) as [L0 L1].
    pose proof (ratio_from_200 n Hn) as Hb.
    assert (H0 : (0 <= 199 # 200)%Q) by discriminate.
    pose proof (report_mono _ _ H0 Hb) as Hlo. rewrite report_199_200 in Hlo.
    pose proof (report_mono _ _ L0 L1) as Hhi. rewrite report_1 in Hhi. lia.
Qed.

Lemma generated_percent_monotone_bounded_witness :
  exists p q,
    generated_percent 3 32 = Ok p /\ generated_percent 31 32 = Ok q /\
    (0 <= p)%Z /\ (p <= q)%Z /\ (q <= 100)%Z /\
    ((32 < 200)%Z -> (q < 100)%Z) /\
    ((200 <= 32)%Z -> generated_percent (32 - 1) 32 = Ok 100%Z).
Proof. apply (generated_percent_monotone_bounded 32 3 31); lia. Defined.

(** C5 as stated fails: in a run of 1000 steps the last iteration
    ([i = 999]) reports 100, which is not below 100. *)
Lemma generated_percent_reaches_100 :
  (0 <= 999 < 1000)%Z /\ generated_percent 999 1000 = Ok 100%Z.
Proof. split; [lia | vm_compute; reflexivity]. Qed.

(* ----------------------------------------------------------------- *)
(** ** The test [guidance_scale > 1.0] *)

Lemma SFcompare_antisym x y :
  SpecFloat.SFcompare y x = option_map CompOpp (SpecFloat.SFcompare x y).
Proof.
  destruct x as [sx|sx| |sx mx ex], y as [sy|sy| |sy my ey]; cbn;
    try reflexivity;
    try (destruct sx; reflexivity); try (destruct sy; reflexivity);
    try (destruct sx, sy; reflexivity).
  f_equal. rewrite (Z.compare_antisym ey ex).
  change (PosDef.Pos.compare_cont Eq mx my) with (Pos.compare_cont Eq mx my).
  change (PosDef.Pos.compare_cont Eq my mx) with (Pos.compare_cont Eq my mx).
  pose proof (Pos.compare_cont_antisym my mx Eq) as H. cbn [CompOpp] in H. rewrite <- H.
  destruct sx, sy; cbn; try reflexivity;
    destruct (ey ?= ex)%Z; cbn; try reflexivity;
    destruct (Pos.compare_cont Eq my mx); reflexivity.
Qed.

(** [guidance_scale <= 1.0] excludes [guidance_scale > 1.0]. *)
Lemma leb_1_guidance_off g : (g <=? 1)%float = true -> ((1 <? g)%float = false).
Proof.
  rewrite leb_spec, ltb_spec. unfold SpecFloat.SFleb, SpecFloat.SFltb.
  rewrite (SFcompare_antisym (Prim2SF g) (Prim2SF 1)).
  destruct (SpecFloat.SFcompare (Prim2SF g) (Prim2SF 1)) as [[| |]|]; cbn; congruence.
Qed.

(* ----------------------------------------------------------------- *)
(** ** Arrays: elements by index *)

Section Arrays.

Context {A : Type}.

(** A list made of [n] blocks of [m] elements: element [j] of block [i]. *)
Lemma nth_error_blocks (f : nat -> list A) (m : nat) : forall n s i j,
  (forall a, (s <= a < s + n)%nat -> List.length (f a) = m) ->
  (i < n)%nat -> (j < m)%nat ->
  nth_error (flat_map f (seq s n)) (i * m + j) = nth_error (f (s + i)%nat) j.
Proof.
  induction n as [|n IH]; intros s i j Hlen Hi Hj; [lia|].
  cbn [seq flat_map]. destruct i as [|i].
  - rewrite Nat.add_0_r. cbn [Nat.mul Nat.add].
    apply nth_error_app1. rewrite Hlen by lia. assumption.
  - rewrite nth_error_app2 by (rewrite Hlen by lia; cbn; lia).
    rewrite Hlen by lia.
    replace (S i * m + j - m)%nat with (i * m + j)%nat by (cbn; lia).
    rewrite IH; [| intros a Ha; apply Hlen; lia | lia | assumption].
    f_equal. f_equal. lia.
Qed.

Lemma length_blocks (f : nat -> list A) (m n s : nat) :
  (forall a, (s <= a < s + n)%nat -> List.length (f a) = m) ->
  List.length (flat_map f (seq s n)) = (n * m)%nat.
Proof.
  intros H. rewrite (flat_map_constant_length (c := m)).
  - rewrite length_seq. reflexivity.
  - intros a Ha. apply in_seq in Ha. apply H. lia.
Qed.

Lemma nth_error_pick (d : list A) n : nth_error (pick d n) 0 = nth_error d n.
Proof. unfold pick. destruct (nth_error d n); reflexivity. Qed.

Lemma length_pick (d : list A) n : (n < List.length d)%nat -> List.length (pick d n) = 1%nat.
Proof.
  intros H. unfold pick. destruct (nth_error d n) eqn:E; [reflexivity|].
  apply nth_error_None in E. lia.
Qed.

Lemma index3_bound c h w k i j :
  (k < c)%nat -> (i < h)%nat -> (j < w)%nat -> ((k * h + i) * w + j < c * (h * w))%nat.
Proof.
  intros Hk Hi Hj.
  assert (H1 : (k * h + i + 1 <= c * h)%nat) by nia.
  assert (H2 : ((k * h + i + 1) * w <= c * h * w)%nat) by (apply Nat.mul_le_mono_r; assumption).
  lia.
Qed.

Lemma transposed_rows (d : list A) c h w i j :
  List.length d = (c * (h * w))%nat -> (i < h)%nat -> (j < w)%nat ->
  List.length (flat_map (fun k => pick d ((k * h + i) * w + j)) (seq 0 c)) = (c * 1)%nat.
Proof.
  intros Hd Hi Hj. apply length_blocks. intros k Hk. apply length_pick.
  rewrite Hd. apply index3_bound; lia.
Qed.

Lemma transposed_nth (d : list A) c h w i j k :
  List.length d = (c * (h * w))%nat -> (i < h)%nat -> (j < w)%nat -> (k < c)%nat ->
  nth_error (transposed d c h w) ((i * w + j) * c + k) = nth_error d ((k * h + i) * w + j).
Proof.
  intros Hd Hi Hj Hk. unfold transposed.
  replace ((i * w + j) * c + k)%nat with (i * (w * c) + (j * c + k))%nat by lia.
  rewrite (nth_error_blocks _ (w * c)); [| | assumption | nia].
  - cbn [Nat.add].
    rewrite (nth_error_blocks _ c); [| | assumption | assumption].
    + cbn [Nat.add].
      replace k with (k * 1 + 0)%nat at 1 by lia.
      rewrite (nth_error_blocks _ 1); [| | assumption | lia].
      * cbn [Nat.add]. apply nth_error_pick.
      * intros a Ha. apply length_pick. rewrite Hd. apply index3_bound; lia.
    + intros a Ha. rewrite (transposed_rows d c h w i a) by (auto; lia). lia.
  - intros a Ha. apply length_blocks.
    intros b Hb. rewrite (transposed_rows d c h w a b) by (auto; lia). lia.
Qed.

Lemma transposed_length (d : list A) c h w :
  List.length d = (c * (h * w))%nat ->
  List.length (transposed d c h w) = (h * (w * c))%nat.
Proof.
  intros Hd. unfold transposed. apply length_blocks.
  intros a Ha. apply length_blocks.
  intros b Hb. rewrite (transposed_rows d c h w a b) by (auto; lia). lia.
Qed.

Lemma flipped_block (d : list A) n c p :
  List.length d = (n * c)%nat -> (p < n)%nat ->
  List.length (rev (firstn c (skipn (p * c) d))) = c.
Proof.
  intros Hd Hp. rewrite length_rev, length_firstn, length_skipn. nia.
Qed.

Lemma flipped_nth (d : list A) n c p k :
  List.length d = (n * c)%nat -> (p < n)%nat -> (k < c)%nat ->
  nth_error (flipped d n c) (p * c + k) = nth_error d (p * c + (c - 1 - k)).
Proof.
  intros Hd Hp Hk. unfold flipped.
  rewrite (nth_error_blocks _ c); [| | assumption | assumption].
  - cbn [Nat.add]. rewrite nth_error_rev.
    rewrite ?length_rev, length_firstn, length_skipn.
    replace (Nat.min c (List.length d - p * c)) with c by nia.
    replace (k <? c)%nat with true by (symmetry; apply Nat.ltb_lt; assumption).
    rewrite nth_error_firstn.
    replace (c - S k <? c)%nat with true by (symmetry; apply Nat.ltb_lt; lia).
    rewrite nth_error_skipn. f_equal. lia.
  - intros a Ha. apply flipped_block with (n := n); [assumption | lia].
Qed.

Lemma flipped_length (d : list A) n c :
  List.length d = (n * c)%nat -> List.length (flipped d n c) = (n * c)%nat.
Proof.
  intros Hd. unfold flipped. apply length_blocks.
  intros a Ha. apply flipped_block with (n := n); [assumption | lia].
Qed.

End Arrays.

Section ArrayOps.

Context {F : Type} {DF : Dtype F}.

Lemma size3 c h w : size [c; h; w] = (c * (h * w))%nat.
Proof. cbn. lia. Qed.

Lemma size4 b c h w : size [b; c; h; w] = (b * (c * (h * w)))%nat.
Proof. cbn. lia. Qed.

(** The first entry of a well-formed batch is its first block. *)
Lemma np_index_0 {A} (a : ndarray A) n s :
  shape a = S n :: s -> well_formed a ->
  np_index a 0 = Ok (mk_ndarray s (firstn (size s) (data a))) /\
  List.length (firstn (size s) (data a)) = size s.
Proof.
  intros Hs Hw. unfold np_index. rewrite Hs. cbn [Nat.ltb Nat.leb Nat.mul skipn].
  split; [reflexivity|].
  apply firstn_length_le. unfold well_formed in Hw. rewrite Hs in Hw.
  cbn [size fold_right] in Hw. fold (size s) in Hw. rewrite Hw. lia.
Qed.

(** Two batches of one entry, concatenated: a batch of two, the first
    argument first. *)
Lemma np_concatenate0_pair {A} (a b : ndarray A) s :
  shape a = 1%nat :: s -> shape b = 1%nat :: s -> well_formed a -> well_formed b ->
  exists ab,
    np_concatenate0 a b = Ok ab /\ shape ab = 2%nat :: s /\ well_formed ab /\
    np_index ab 0 = Ok (mk_ndarray s (data a)) /\
    np_index ab 1 = Ok (mk_ndarray s (data b)).
Proof.
  intros Ha Hb Wa Wb. unfold well_formed in *. rewrite Ha in Wa. rewrite Hb in Wb.
  cbn [size fold_right] in Wa, Wb. fold (size s) in Wa, Wb.
  rewrite Nat.mul_1_l in Wa, Wb.
  exists (mk_ndarray (2%nat :: s) (data a ++ data b)).
  unfold np_concatenate0. rewrite Ha, Hb.
  destruct (list_eq_dec Nat.eq_dec s s) as [_|N]; [|contradiction].
  split; [reflexivity|]. split; [reflexivity|].
  split; [cbn; fold (size s); rewrite length_app; lia|].
  unfold np_index. cbn [shape data Nat.ltb Nat.leb Nat.mul skipn].
  split.
  - rewrite <- Wa, firstn_app, Nat.sub_diag, firstn_all, firstn_O, app_nil_r. reflexivity.
  - rewrite Nat.add_0_r, <- Wa, skipn_app, skipn_all, Nat.sub_diag. cbn [skipn app].
    rewrite Wa, <- Wb, firstn_all. reflexivity.
Qed.

(** [uncond + guidance_scale * (cond - uncond)], element by element. *)
Lemma guided_nth g (u c : ndarray F) k x y :
  nth_error (data u) k = Some x -> nth_error (data c) k = Some y ->
  nth_error (data (guided g u c)) k = Some (fadd x (fmul (of_float g) (fsub y x))).
Proof.
  intros Hx Hy. unfold guided, np_zip, np_map. cbn [data].
  assert (Hc : forall {X Y} (l : list X) (l' : list Y) n a b,
             nth_error l n = Some a -> nth_error l' n = Some b ->
             nth_error (combine l l') n = Some (a, b)).
  { intros X Y l. induction l as [|a0 l IH]; intros l' n a b Ha Hb.
    - destruct n; discriminate.
    - destruct l' as [|b0 l']; [destruct n; discriminate|].
      destruct n; cbn in *; [congruence | auto]. }
  rewrite nth_error_map.
  rewrite (Hc _ _ (data u) (map (fmul (of_float g)) _) k x (fmul (of_float g) (fsub y x)) Hx).
  - reflexivity.
  - rewrite nth_error_map, nth_error_map, (Hc _ _ _ _ k y x Hy Hx). reflexivity.
Qed.

Lemma astype_uint8_range (x : F) : (0 <= astype_uint8 x <= 255)%Z.
Proof. unfold astype_uint8. pose proof (Z.mod_pos_bound (ftrunc x) 256). lia. Qed.

Lemma postprocess_pixels (image : ndarray F) b c h w :
  shape image = [S b; c; h; w] -> well_formed image ->
  exists img,
    postprocess image = Ok img /\ shape img = [h; w; c] /\ well_formed img /\
    Forall (fun p => (0 <= p <= 255)%Z) (data img) /\
    forall i j k, (i < h)%nat -> (j < w)%nat -> (k < c)%nat ->
      nth_error (data img) ((i * w + j) * c + k) =
      option_map pixel (nth_error (data image) (((c - 1 - k) * h + i) * w + j)).
Proof.
  intros Hs Hw. unfold postprocess.
  set (f := fun x : F => fclip (fadd (fdiv x (of_int 2)) (of_float 0.5%float))
                               (of_int 0) (of_int 1)).
  assert (Hw1 : well_formed (np_map f image)).
  { unfold well_formed, np_map. cbn [shape data]. rewrite length_map. exact Hw. }
  destruct (np_index_0 (np_map f image) b [c; h; w] Hs Hw1) as [Hi Hl].
  rewrite Hi. cbn [obind]. unfold np_transpose_120, np_flip_axis2. cbn [shape data obind].
  rewrite size3 in Hl |- *. unfold np_map in Hl |- *. cbn [shape data] in Hl |- *.
  remember (firstn (c * (h * w)) (map f (data image))) as chw eqn:Hchw.
  pose proof (transposed_length chw c h w Hl) as Ht.
  assert (Ht' : List.length (transposed chw c h w) = (h * w * c)%nat) by lia.
  eexists. split; [reflexivity|]. unfold np_map. cbn [shape data].
  split; [reflexivity|].
  split; [unfold well_formed; cbn [shape data]; rewrite !length_map; rewrite (flipped_length _ _ _ Ht'), size3; lia|].
  split.
  - rewrite map_map. apply Forall_map. apply Forall_forall. intros x _. apply astype_uint8_range.
  - intros i j k Hi' Hj Hk.
    rewrite map_map, nth_error_map.
    rewrite (flipped_nth _ (h * w) c (i * w + j) k Ht') by (auto; nia).
    rewrite (transposed_nth chw c h w i j (c - 1 - k) Hl) by (auto; lia).
    rewrite Hchw, nth_error_firstn.
    replace ((((c - 1 - k) * h + i) * w + j) <? c * (h * w))%nat with true
      by (symmetry; apply Nat.ltb_lt, index3_bound; lia).
    rewrite nth_error_map. destruct (nth_error (data image) _); reflexivity.
Qed.

End ArrayOps.

(* ----------------------------------------------------------------- *)
(** ** What a run logs *)

Section Runs.

Variables F Time Tokenizer Graph Compiled Sched Gen : Type.
Context {DF : Dtype F}.
Variable env : Env F Time Tokenizer Graph Compiled Sched Gen.

Abbreviation event := (event F Time Sched Gen).
Abbreviation state := (state F Time Sched Gen).
Abbreviation M := (M F Time Sched Gen).

(** [spec g m Q]: a run of [m] that starts with the generator in state [g]
    appends to the log; [Q] holds of the result, the appended events and
    the generator's state at the end. *)
Definition spec {A} (g : Gen) (m : M A)
    (Q : outcome A -> list event -> Gen -> Prop) : Prop :=
  forall st, rng st = g ->
    exists evs, trace (snd (m st)) = trace st ++ evs /\
                Q (fst (m st)) evs (rng (snd (m st))).

Lemma spec_weaken {A} g (m : M A) (Q Q' : outcome A -> list event -> Gen -> Prop) :
  spec g m Q -> (forall r evs g', Q r evs g' -> Q' r evs g') -> spec g m Q'.
Proof.
  intros H HQ st Hg. destruct (H st Hg) as (evs & Ht & Hq). exists evs. auto.
Qed.

Lemma spec_ret {A} g (a : A) (Q : outcome A -> list event -> Gen -> Prop) :
  Q (Ok a) [] g -> spec g (ret a) Q.
Proof. intros H st Hg. exists []. cbn. rewrite app_nil_r, Hg. auto. Qed.

Lemma spec_lift {A} g (r : outcome A) (Q : outcome A -> list event -> Gen -> Prop) :
  Q r [] g -> spec g (lift r) Q.
Proof. intros H st Hg. exists []. cbn. rewrite app_nil_r, Hg. auto. Qed.

Lemma spec_perform {A} g c (r : outcome A) (Q : outcome A -> list event -> Gen -> Prop) :
  Q r [mk_event c (is_ok r)] g -> spec g (perform c r) Q.
Proof. intros H st Hg. exists [mk_event c (is_ok r)]. cbn. rewrite Hg. auto. Qed.

Lemma spec_bind {A B} g (m : M A) (f : A -> M B)
    (P : outcome A -> list event -> Gen -> Prop)
    (Q : outcome B -> list event -> Gen -> Prop) :
  spec g m P ->
  (forall e evs g1, P (Raise e) evs g1 -> Q (Raise e) evs g1) ->
  (forall a evs g1, P (Ok a) evs g1 ->
     spec g1 (f a) (fun r evs' g2 => Q r (evs ++ evs') g2)) ->
  spec g (bind m f) Q.
Proof.
  intros Hm He Hf st Hg. unfold bind.
  destruct (Hm st Hg) as (evs & Ht & Hp).
  destruct (m st) as [[a|e] st1]; cbn [fst snd] in *.
  - destruct (Hf a evs _ Hp st1 eq_refl) as (evs' & Ht' & Hq).
    exists (evs ++ evs'). rewrite Ht', Ht, app_assoc. auto.
  - exists evs. auto.
Qed.

Lemma spec_seed g seed (Q : outcome unit -> list event -> Gen -> Prop) :
  (forall g1, np_seed env seed = Ok g1 -> Q (Ok tt) [mk_event (CSeed seed) true] g1) ->
  (forall e, np_seed env seed = Raise e -> Q (Raise e) [mk_event (CSeed seed) false] g) ->
  spec g (np_random_seed env seed) Q.
Proof.
  intros H1 H2 st Hg. unfold np_random_seed.
  destruct (np_seed env seed) as [g1|e] eqn:E; cbn.
  - exists [mk_event (CSeed seed) true]. split; [reflexivity | apply H1; reflexivity].
  - exists [mk_event (CSeed seed) false]. rewrite Hg.
    split; [reflexivity | apply H2; reflexivity].
Qed.

Lemma spec_randn g dims (Q : outcome (ndarray F) -> list event -> Gen -> Prop) :
  Q (Ok (fst (randn env g dims))) [mk_event (CRandn g dims) true] (snd (randn env g dims)) ->
  spec g (np_random_randn env dims) Q.
Proof.
  intros H st Hg. unfold np_random_randn. rewrite Hg.
  destruct (randn env g dims) as [x g1]. cbn in *.
  exists [mk_event (CRandn g dims) true]. split; [reflexivity | apply H].
Qed.

Lemma spec_put g url percent (Q : outcome unit -> list event -> Gen -> Prop) :
  (forall r, (has_colon url = false -> r = Raise MissingSchema) ->
             Q r [mk_event (CPut url percent) (is_ok r)] g) ->
  spec g (requests_put env url percent) Q.
Proof.
  intros H st Hg. unfold requests_put. cbn.
  eexists. split; [reflexivity|]. rewrite Hg. apply H.
  intros E. rewrite E. reflexivity.
Qed.

(** The usual shape of a postcondition: every logged event satisfies [P];
    a run that returns has seen every call succeed and its value satisfies
    [R].  [post] adds that the generator was left alone. *)
Definition posts {A} (P : event -> Prop) (R : A -> Prop)
    : outcome A -> list event -> Gen -> Prop :=
  fun r evs _ =>
    Forall P evs /\
    match r with
    | Ok a => Forall (fun ev => ev_ok ev = true) evs /\ R a
    | Raise _ => True
    end.

Definition post {A} (g : Gen) (P : event -> Prop) (R : A -> Prop)
    : outcome A -> list event -> Gen -> Prop :=
  fun r evs g' => g' = g /\ posts P R r evs g'.

Lemma post_posts {A} g P (R : A -> Prop) (m : M A) :
  spec g m (post g P R) -> spec g m (posts P R).
Proof. intros H. eapply spec_weaken; [exact H|]. intros r evs g' [_ Hp]. exact Hp. Qed.

Lemma post_ret {A} g P (R : A -> Prop) a : R a -> spec g (ret a) (post g P R).
Proof. intros H. apply spec_ret. repeat split; auto. Qed.

Lemma post_lift {A} g P (r : outcome A) :
  spec g (lift r) (post g P (fun a => r = Ok a)).
Proof. apply spec_lift. destruct r; repeat split; auto. Qed.

Lemma post_perform {A} g P c (r : outcome A) :
  P (mk_event c (is_ok r)) ->
  spec g (perform c r) (post g P (fun a => r = Ok a)).
Proof.
  intros HP. apply spec_perform. destruct r; cbn; repeat split; auto.
Qed.

Lemma post_lift_R {A} g P (R : A -> Prop) (r : outcome A) :
  (forall a, r = Ok a -> R a) -> spec g (lift r) (post g P R).
Proof. intros H. apply spec_lift. destruct r; repeat split; auto. Qed.

Lemma post_perform_R {A} g P (R : A -> Prop) c (r : outcome A) :
  P (mk_event c (is_ok r)) -> (forall a, r = Ok a -> R a) ->
  spec g (perform c r) (post g P R).
Proof.
  intros HP H. apply spec_perform. destruct r; cbn; repeat split; auto.
Qed.

Lemma post_put g P url percent :
  (forall ok, (has_colon url = false -> ok = false) -> P (mk_event (CPut url percent) ok)) ->
  spec g (requests_put env url percent) (post g P (fun _ => has_colon url = true)).
Proof.
  intros HP. apply spec_put. intros r Hr.
  assert (P (mk_event (CPut url percent) (is_ok r))).
  { apply HP. intros E. rewrite (Hr E). reflexivity. }
  destruct r; cbn; repeat split; auto.
  destruct (has_colon url); [reflexivity|]. discriminate (Hr eq_refl).
Qed.

Lemma posts_randn g P dims :
  P (mk_event (CRandn g dims) true) ->
  spec g (np_random_randn env dims) (posts P (fun _ => True)).
Proof. intros HP. apply spec_randn. repeat split; auto. Qed.

Lemma posts_seed g P seed :
  (forall ok, P (mk_event (CSeed seed) ok)) ->
  spec g (np_random_seed env seed) (posts P (fun _ => True)).
Proof. intros HP. apply spec_seed; intros; repeat split; auto. Qed.

Lemma posts_bind {A B} g P (R1 : A -> Prop) (R2 : B -> Prop) (m : M A) (f : A -> M B) :
  spec g m (posts P R1) ->
  (forall a g1, R1 a -> spec g1 (f a) (posts P R2)) ->
  spec g (bind m f) (posts P R2).
Proof.
  intros Hm Hf. apply spec_bind with (P := posts P R1); [assumption | |].
  - intros e evs g1 (HP & _). split; auto.
  - intros a evs g1 (HP & Hok & HR).
    apply spec_weaken with (Q := posts P R2); [auto|].
    intros r evs' g' (HP' & Hr).
    split; [apply Forall_app; auto|].
    destruct r; [|exact I]. destruct Hr. split; [apply Forall_app; auto | assumption].
Qed.

Lemma post_bind {A B} g P (R1 : A -> Prop) (R2 : B -> Prop) (m : M A) (f : A -> M B) :
  spec g m (post g P R1) ->
  (forall a, R1 a -> spec g (f a) (post g P R2)) ->
  spec g (bind m f) (post g P R2).
Proof.
  intros Hm Hf. apply spec_bind with (P := post g P R1); [assumption | |].
  - intros e evs g1 (Hg & HP & _). repeat split; auto.
  - intros a evs g1 (Hg & HP & Hok & HR). subst g1.
    apply spec_weaken with (Q := post g P R2); [auto|].
    intros r evs' g' (Hg' & HP' & Hr). split; [assumption|].
    split; [apply Forall_app; auto|].
    destruct r; [|exact I]. destruct Hr. split; [apply Forall_app; auto | assumption].
Qed.

(** A part that leaves the generator alone, followed by one that may not. *)
Lemma posts_bind_post {A B} g P (R1 : A -> Prop) (R2 : B -> Prop) (m : M A) (f : A -> M B) :
  spec g m (post g P R1) ->
  (forall a, R1 a -> spec g (f a) (posts P R2)) ->
  spec g (bind m f) (posts P R2).
Proof.
  intros Hm Hf. apply spec_bind with (P := post g P R1); [assumption | |].
  - intros e evs g1 (Hg & HP & _). split; auto.
  - intros a evs g1 (Hg & HP & Hok & HR). subst g1.
    apply spec_weaken with (Q := posts P R2); [auto|].
    intros r evs' g' (HP' & Hr).
    split; [apply Forall_app; auto|].
    destruct r; [|exact I]. destruct Hr. split; [apply Forall_app; auto | assumption].
Qed.

Lemma post_weaken {A} g (P P' : event -> Prop) (R R' : A -> Prop) (m : M A) :
  spec g m (post g P R) ->
  (forall ev, P ev -> P' ev) -> (forall a, R a -> R' a) ->
  spec g m (post g P' R').
Proof.
  intros H HP HR. apply spec_weaken with (Q := post g P R); [assumption|].
  intros r evs g' (Hg & Hev & Hr). split; [assumption|].
  split; [eapply Forall_impl; eauto|].
  destruct r; [|exact I]. destruct Hr. auto.
Qed.

Lemma posts_weaken {A} g (P P' : event -> Prop) (R R' : A -> Prop) (m : M A) :
  spec g m (posts P R) ->
  (forall ev, P ev -> P' ev) -> (forall a, R a -> R' a) ->
  spec g m (posts P' R').
Proof.
  intros H HP HR. apply spec_weaken with (Q := posts P R); [assumption|].
  intros r evs g' (Hev & Hr).
  split; [eapply Forall_impl; eauto|].
  destruct r; [|exact I]. destruct Hr. auto.
Qed.

(** One step of a sequence: the first part by [tac], then the rest. *)
Ltac post_step tac := eapply post_bind; [tac | cbv beta].

(* ----------------------------------------------------------------- *)
(** ** The calls of one [__call__] *)

Section CallFacts.

Variable sd : StableDiffusion Tokenizer Compiled Sched.
Variables (num_inference_steps : Z) (guidance_scale : float).
Variables (server token : string) (next_prompt : dict).
Variables (prompt : string) (eta : float).

Abbreviation max_length := (model_max_length env (sd_tokenizer sd)).

(** [embedded text e]: [e] is what the encoder returns for [text]
    tokenized as the script asks. *)
Definition embedded (text : string) (e : ndarray F) : Prop :=
  exists tokens,
    tokenize env (sd_tokenizer sd) text PadMaxLength max_length true = Ok tokens /\
    infer_tokens env (sd_text_encoder sd) (np_array1 tokens) = Ok e.

(** What [text_conditioning] returns. *)
Definition conditioned (emb : ndarray F) : Prop :=
  if guidance_on guidance_scale
  then exists uncond cond, embedded "" uncond /\ embedded prompt cond /\
                           np_concatenate0 uncond cond = Ok emb
  else embedded prompt emb.

(** The input of the denoiser: the latent, twice under guidance, and
    divided by the scheduler's factor for an LMS scheduler. *)
Definition model_input (x : ndarray F) : Prop :=
  exists latents s i,
    scale_model_input env s i
      (if guidance_on guidance_scale then np_stack_pair latents else latents) = Ok x.

(** The scheduler once its time steps are set, and the keyword arguments
    computed for [step] from it. *)
Definition scheduled (s0 : Sched) (kw : option float) : Prop :=
  set_timesteps env (sd_scheduler sd) num_inference_steps
    (extra_set_kwargs env (sd_scheduler sd)) = Ok s0 /\
  kw = extra_step_kwargs env s0 eta.

(** Every call [pipeline] makes, with what is known of its arguments.  The
    generator is in state [g] when [pipeline] starts. *)
Definition pipeline_event (g : Gen) (ev : event) : Prop :=
  match ev_call ev with
  | CTokenize text n => (text = prompt \/ text = ""%string) /\ n = max_length
  | CEncode a =>
      exists text tokens,
        tokenize env (sd_tokenizer sd) text PadMaxLength max_length true = Ok tokens /\
        a = np_array1 tokens
  | CRandn g' dims => g' = g /\ dims = sd_latent_shape sd
  | CSetTimesteps s n offset =>
      s = sd_scheduler sd /\ n = num_inference_steps /\ offset = extra_set_kwargs env s
  | CPrint _ _ => True
  | CUnet x t emb => model_input x /\ conditioned emb
  | CPut url percent =>
      progress_url server token next_prompt = Ok url /\
      (has_colon url = false -> ev_ok ev = false) /\
      exists i, generated_percent (Z.of_nat i) num_inference_steps = Ok percent
  | CStep s noise_pred arg latents kw =>
      (exists s0 i t, scheduled s0 kw /\ nth_error (timesteps env s0) i = Some t /\
                      arg = step_argument env s i t) /\
      (exists x t emb raw, infer_unet env (sd_unet sd) x t emb = Ok raw /\
                           guide guidance_scale raw = Ok noise_pred) /\
      (exists url, progress_url server token next_prompt = Ok url /\
                   has_colon url = true)
  | CDecode latents => True
  | _ => False
  end.

(** The calls made before the decoder is run. *)
Definition before_decode (g : Gen) (ev : event) : Prop :=
  pipeline_event g ev /\ forall latents, ev_call ev <> CDecode latents.

Ltac before_decode tac := split; [cbn; tac | intros ? E; discriminate E].

Lemma embed_post g text :
  text = prompt \/ text = ""%string ->
  spec g (embed env sd text) (post g (before_decode g) (embedded text)).
Proof.
  intros Ht. unfold embed.
  post_step ltac:(apply post_perform; before_decode auto).
  intros tokens Htok.
  apply post_perform_R.
  - before_decode eauto.
  - intros e He. exists tokens. auto.
Qed.

Lemma text_conditioning_post g :
  spec g (text_conditioning env sd prompt guidance_scale)
         (post g (before_decode g) conditioned).
Proof.
  unfold text_conditioning, conditioned.
  post_step ltac:(apply embed_post; auto).
  intros cond Hc. destruct (guidance_on guidance_scale).
  - post_step ltac:(apply embed_post; auto).
    intros uncond Hu.
    apply post_lift_R.
    intros emb He. exists uncond, cond. auto.
  - apply post_ret. assumption.
Qed.

Lemma prepare_posts g :
  spec g (prepare env sd num_inference_steps eta)
    (posts (before_decode g) (fun r => scheduled (snd (fst r)) (snd r))).
Proof.
  unfold prepare.
  eapply posts_bind; [apply posts_randn; before_decode auto|].
  intros latents g1 _. apply post_posts.
  post_step ltac:(apply post_perform; before_decode auto).
  intros s0 Hs0.
  eapply post_bind with (R1 := fun _ => True).
  - destruct (is_LMS env s0).
    + eapply post_bind; [apply post_lift|]. intros sigma0 _. apply post_ret. exact I.
    + apply post_ret. exact I.
  - intros latents' _. apply post_ret. split; [assumption | reflexivity].
Qed.

Lemma iteration_post g1 g emb s0 kw i t acc :
  conditioned emb -> scheduled s0 kw -> nth_error (timesteps env s0) i = Some t ->
  spec g1 (iteration env sd num_inference_steps guidance_scale server token next_prompt
             emb kw i t acc)
          (post g1 (before_decode g) (fun _ => True)).
Proof.
  intros Hemb Hs Ht. unfold iteration. destruct acc as [latents s].
  post_step ltac:(apply post_lift). intros x Hx.
  post_step ltac:(apply post_perform; before_decode auto). intros _ _.
  post_step ltac:(apply post_perform; before_decode
                    ltac:(split; [exists latents, s, i; exact Hx | exact Hemb])).
  intros raw Hraw.
  post_step ltac:(apply post_lift). intros percent Hp.
  post_step ltac:(apply post_perform; before_decode auto). intros _ _.
  post_step ltac:(apply post_lift). intros url Hurl.
  post_step ltac:(apply post_put; intros ok Hok; before_decode eauto).
  intros _ Hcolon.
  post_step ltac:(apply post_lift). intros noise_pred Hn.
  apply post_perform_R; [|auto].
  before_decode ltac:(split; [|split]).
  - exists s0, i, t. auto.
  - exists x, t, emb, raw. auto.
  - exists url. auto.
Qed.

Lemma sampling_loop_post g1 g emb s0 kw :
  conditioned emb -> scheduled s0 kw ->
  forall ts i acc, skipn i (timesteps env s0) = ts ->
  spec g1 (sampling_loop env sd num_inference_steps guidance_scale server token next_prompt
             emb kw i ts acc)
          (post g1 (before_decode g) (fun _ => True)).
Proof.
  intros Hemb Hs. induction ts as [|t ts IH]; intros i acc Hts; cbn [sampling_loop].
  - apply post_ret. exact I.
  - assert (Hnth : nth_error (timesteps env s0) i = Some t).
    { rewrite <- (Nat.add_0_r i) at 1. rewrite <- nth_error_skipn, Hts. reflexivity. }
    post_step ltac:(eapply iteration_post; eauto).
    intros acc' _. apply IH.
    change (S i) with (1 + i)%nat. rewrite <- skipn_skipn, Hts. reflexivity.
Qed.

Lemma decode_image_post g1 g latents :
  spec g1 (decode_image env sd latents) (post g1 (pipeline_event g) (fun _ => True)).
Proof.
  unfold decode_image.
  post_step ltac:(apply post_perform; exact I). intros image _.
  apply post_lift_R. auto.
Qed.

Lemma before_decode_event g ev : before_decode g ev -> pipeline_event g ev.
Proof. intros [H _]. exact H. Qed.

(** Every call of [pipeline] is one of those [pipeline_event] lists, and a
    [pipeline] that returns has seen each of its calls succeed. *)
Lemma pipeline_posts g :
  spec g (pipeline env sd num_inference_steps guidance_scale server token next_prompt
            prompt eta)
         (posts (pipeline_event g) (fun _ => True)).
Proof.
  unfold pipeline.
  eapply posts_bind_post.
  { eapply post_weaken; [apply text_conditioning_post | apply before_decode_event |].
    intros a H. exact H. }
  intros emb Hemb.
  eapply posts_bind.
  { eapply posts_weaken; [apply prepare_posts | apply before_decode_event |].
    intros a H. exact H. }
  intros [[latents s0] kw] g1 Hs. cbn [fst snd] in Hs.
  apply post_posts.
  eapply post_bind.
  { eapply post_weaken; [eapply sampling_loop_post; eauto | apply before_decode_event |].
    intros a H. exact H. }
  intros [latents' s'] _. apply decode_image_post.
Qed.

(** The state after more calls. *)
Definition extend (st : state) (evs : list event) : state :=
  mk_state (trace st ++ evs) (rng st).

Lemma log_extend c ok (st : state) : log c ok st = extend st [mk_event c ok].
Proof. reflexivity. Qed.

Lemma extend_extend (st : state) evs evs' :
  extend (extend st evs) evs' = extend st (evs ++ evs').
Proof. unfold extend. cbn. rewrite app_assoc. reflexivity. Qed.

Lemma embed_ok text tokens e (st : state) :
  tokenize env (sd_tokenizer sd) text PadMaxLength max_length true = Ok tokens ->
  infer_tokens env (sd_text_encoder sd) (np_array1 tokens) = Ok e ->
  embed env sd text st =
    (Ok e, extend st [mk_event (CTokenize text max_length) true;
                      mk_event (CEncode (np_array1 tokens)) true]).
Proof.
  intros Ht He. unfold embed, bind, perform. rewrite Ht. cbn [is_ok].
  rewrite He. cbn [is_ok]. rewrite !log_extend, extend_extend. reflexivity.
Qed.

(** C1: with [guidance_scale <= 1.0] one embedding is computed, that of the
    prompt, and it is the conditioning (a batch of one).  With
    [guidance_scale > 1.0] the empty string is embedded as well, after the
    prompt, and the conditioning is the two embeddings concatenated along
    the batch axis: a batch of two, entry 0 the embedding of the empty
    string and entry 1 that of the prompt. *)
Theorem text_conditioning_batch (st : state) prompt_tokens (cond : ndarray F) dims :
  tokenize env (sd_tokenizer sd) prompt PadMaxLength max_length true = Ok prompt_tokens ->
  infer_tokens env (sd_text_encoder sd) (np_array1 prompt_tokens) = Ok cond ->
  shape cond = 1%nat :: dims -> well_formed cond ->
  ((guidance_scale <=? 1)%float = true ->
     text_conditioning env sd prompt guidance_scale st =
       (Ok cond, extend st [mk_event (CTokenize prompt max_length) true;
                            mk_event (CEncode (np_array1 prompt_tokens)) true]))
  /\
  ((1 <? guidance_scale)%float = true ->
     forall empty_tokens (uncond : ndarray F),
       tokenize env (sd_tokenizer sd) "" PadMaxLength max_length true = Ok empty_tokens ->
       infer_tokens env (sd_text_encoder sd) (np_array1 empty_tokens) = Ok uncond ->
       shape uncond = 1%nat :: dims -> well_formed uncond ->
       exists emb,
         text_conditioning env sd prompt guidance_scale st =
           (Ok emb, extend st [mk_event (CTokenize prompt max_length) true;
                               mk_event (CEncode (np_array1 prompt_tokens)) true;
                               mk_event (CTokenize "" max_length) true;
                               mk_event (CEncode (np_array1 empty_tokens)) true]) /\
         shape emb = 2%nat :: dims /\
         data emb = data uncond ++ data cond /\
         np_index emb 0 = Ok (mk_ndarray dims (data uncond)) /\
         np_index emb 1 = Ok (mk_ndarray dims (data cond))).
Proof.
  intros Ht He Hs Hw. split.
  - intros Hg. apply leb_1_guidance_off in Hg.
    unfold text_conditioning, bind. rewrite (embed_ok _ _ _ _ Ht He).
    unfold guidance_on. rewrite Hg. reflexivity.
  - intros Hg empty_tokens uncond Ht' He' Hs' Hw'.
    destruct (np_concatenate0_pair uncond cond dims Hs' Hs Hw' Hw)
      as (emb & Hc & Hse & _ & H0 & H1).
    exists emb. split; [|split; [exact Hse|split; [|split; assumption]]].
    + unfold text_conditioning, bind. rewrite (embed_ok _ _ _ _ Ht He).
      unfold guidance_on. rewrite Hg. unfold bind.
      rewrite (embed_ok _ _ _ _ Ht' He'). unfold lift. rewrite Hc, extend_extend.
      reflexivity.
    + unfold np_concatenate0 in Hc. rewrite Hs', Hs in Hc.
      destruct (list_eq_dec Nat.eq_dec dims dims); [|discriminate].
      injection Hc as <-. reflexivity.
Qed.



Lemma accepts_In name params : accepts name params = true <-> In name params.
Proof.
  unfold accepts. rewrite existsb_exists. split.
  - intros (x & Hx & E). apply String.eqb_eq in E. subst. assumption.
  - intros H. exists name. split; [assumption | apply String.eqb_refl].
Qed.


(** C4: the decoder is run once, on the final latent with a batch axis
    added.  For an output of [b + 1] images of 3 planes of [h] rows of [w]
    values, the returned image has [h] rows of [w] pixels of 3 channels;
    channel [k] of pixel [(i, j)] is element [(i, j)] of plane [2 - k] of the
    first image, rescaled by [x / 2 + 0.5], clipped to [0, 1], multiplied by
    255 and stored in eight bits, so every value lies in [0, 255].  The
    image depends on the latent alone. *)
Theorem decode_image_pixels (st : state) (latents image : ndarray F) b h w :
  infer_latents env (sd_vae sd) (np_expand_dims0 latents) = Ok image ->
  shape image = [S b; 3%nat; h; w] -> well_formed image ->
  exists img,
    decode_image env sd latents st =
      (Ok img, extend st [mk_event (CDecode (np_expand_dims0 latents)) true]) /\
    shape img = [h; w; 3%nat] /\ well_formed img /\
    Forall (fun p => (0 <= p <= 255)%Z) (data img) /\
    (forall i j k, (i < h)%nat -> (j < w)%nat -> (k < 3)%nat ->
       nth_error (data img) ((i * w + j) * 3 + k) =
       option_map pixel (nth_error (data image) (((2 - k) * h + i) * w + j))) /\
    (forall st', fst (decode_image env sd latents st') = Ok img).
Proof.
  intros Hinf Hs Hw.
  destruct (postprocess_pixels image b 3 h w Hs Hw) as (img & Hp & Hsh & Hwf & Hr & Hpix).
  exists img. unfold decode_image, bind, perform, lift. rewrite Hinf, Hp. cbn [is_ok fst].
  repeat split; auto.
Qed.

End CallFacts.

(* ----------------------------------------------------------------- *)
(** ** The calls of an entry point *)

(** Creating the scheduler and loading the models. *)
Definition setup_event (ev : event) : Prop :=
  match ev_call ev with
  | CNewScheduler _ _ _ | CFromPretrained _ | CDownload _ _
  | CReadModel _ _ | CCompileModel _ => True
  | _ => False
  end.

Lemma load_model_post g (P : event -> Prop) model name device :
  (forall ev, setup_event ev -> P ev) ->
  spec g (load_model env model name device) (post g P (fun _ => True)).
Proof.
  intros HP. unfold load_model.
  post_step ltac:(apply post_perform; apply HP; exact I). intros xml _.
  post_step ltac:(apply post_perform; apply HP; exact I). intros bin _.
  post_step ltac:(apply post_perform; apply HP; exact I). intros gr _.
  post_step ltac:(apply post_perform; apply HP; exact I). intros c _.
  apply post_ret. exact I.
Qed.

Lemma init_post g (P : event -> Prop) scheduler model tokenizer device :
  (forall ev, setup_event ev -> P ev) ->
  spec g (init env scheduler model tokenizer device) (post g P (fun _ => True)).
Proof.
  intros HP. unfold init.
  post_step ltac:(apply post_perform; apply HP; exact I). intros tk _.
  post_step ltac:(apply load_model_post; exact HP). intros te _.
  post_step ltac:(apply load_model_post; exact HP). intros un _.
  post_step ltac:(apply load_model_post; exact HP). intros va _.
  apply post_ret. exact I.
Qed.

Section Entry.

Variables (bs be : float) (schedule model tokenizer : string).
Variables (num_inference_steps : Z) (guidance_scale : float).
Variables (server token : string) (next_prompt : dict).
Variables (prompt : string) (eta : float) (output : string).

(** What [main] and [run_stable_diffusion] do once the seed is dealt
    with. *)
Definition generate : M unit :=
  bind (perform (CNewScheduler bs be schedule) (LMSDiscreteScheduler env bs be schedule))
    (fun scheduler =>
  bind (init env scheduler model tokenizer "CPU") (fun stable_diffusion =>
  bind (pipeline env stable_diffusion num_inference_steps guidance_scale server token
          next_prompt prompt eta) (fun image =>
  bind (perform (CImwrite output image) (imwrite env output image)) (fun _ =>
  ret tt)))).

(** The calls before the image is written; the generator is in state [g]
    when they start. *)
Definition run_event (g : Gen) (ev : event) : Prop :=
  setup_event ev \/
  exists sd, pipeline_event sd num_inference_steps guidance_scale server token
               next_prompt prompt eta g ev.

Lemma run_event_not_imwrite g ev path image :
  run_event g ev -> ev_call ev <> CImwrite path image.
Proof.
  intros [H | [sd H]] E; unfold setup_event, pipeline_event in H; rewrite E in H; exact H.
Qed.

(** How a run ends: it raises before the image is written, or writing
    the image is its last call, and the run returns when that call does. *)
Definition ends_with_write (Pre : event -> Prop) (r : outcome unit) (evs : list event)
    : Prop :=
  (Forall Pre evs /\ exists e, r = Raise e) \/
  (exists pre image,
     evs = pre ++ [mk_event (CImwrite output image) (is_ok r)] /\
     Forall Pre pre /\ Forall (fun ev => ev_ok ev = true) pre).

Lemma ends_bind {A} g (Pre : event -> Prop) (R : A -> Prop) (m : M A) (f : A -> M unit) :
  spec g m (posts Pre R) ->
  (forall a g1, R a -> spec g1 (f a) (fun r evs _ => ends_with_write Pre r evs)) ->
  spec g (bind m f) (fun r evs _ => ends_with_write Pre r evs).
Proof.
  intros Hm Hf. apply spec_bind with (P := posts Pre R); [assumption | |].
  - intros e evs g1 (HP & _). left. eauto.
  - intros a evs g1 (HP & Hok & HR).
    eapply spec_weaken; [apply (Hf a g1 HR)|]. cbv beta.
    intros r evs' _ [[HP' He] | (pre & image & -> & HP' & Hok')].
    + left. split; [apply Forall_app; auto | assumption].
    + right. exists (evs ++ pre), image.
      rewrite app_assoc. repeat split; auto; apply Forall_app; auto.
Qed.

Lemma ends_bind_post {A} g (Pre : event -> Prop) (R : A -> Prop) (m : M A)
    (f : A -> M unit) :
  spec g m (post g Pre R) ->
  (forall a, R a -> spec g (f a) (fun r evs _ => ends_with_write Pre r evs)) ->
  spec g (bind m f) (fun r evs _ => ends_with_write Pre r evs).
Proof.
  intros Hm Hf. apply spec_bind with (P := post g Pre R); [assumption | |].
  - intros e evs g1 (_ & HP & _). left. eauto.
  - intros a evs g1 (-> & HP & Hok & HR).
    eapply spec_weaken; [apply (Hf a HR)|]. cbv beta.
    intros r evs' _ [[HP' He] | (pre & image & -> & HP' & Hok')].
    + left. split; [apply Forall_app; auto | assumption].
    + right. exists (evs ++ pre), image.
      rewrite app_assoc. repeat split; auto; apply Forall_app; auto.
Qed.

Lemma generate_log g :
  spec g generate (fun r evs _ => ends_with_write (run_event g) r evs).
Proof.
  unfold generate.
  eapply ends_bind_post with (R := fun _ => True).
  { apply post_perform_R; [left; exact I | auto]. }
  intros scheduler _.
  eapply ends_bind_post with (R := fun _ => True).
  { apply init_post. intros ev H. left. exact H. }
  intros sd _.
  eapply ends_bind with (R := fun _ => True).
  { eapply posts_weaken; [apply pipeline_posts | | auto].
    intros ev H. right. exists sd. exact H. }
  intros image g3 _.
  intros st Hg. unfold bind, perform, ret.
  exists [mk_event (CImwrite output image) (is_ok (imwrite env output image))].
  destruct (imwrite env output image) as [b|e]; cbn [fst snd is_ok log trace].
  - split; [reflexivity|]. right. exists [], image. cbn. auto.
  - split; [reflexivity|]. right. exists [], image. cbn. auto.
Qed.

Lemma ends_events (Pre : event -> Prop) r evs :
  ends_with_write Pre r evs ->
  Forall (fun ev => Pre ev \/ exists image ok, ev = mk_event (CImwrite output image) ok) evs.
Proof.
  intros [[H _] | (pre & image & -> & H & _)].
  - eapply Forall_impl; [|exact H]. auto.
  - apply Forall_app. split.
    + eapply Forall_impl; [|exact H]. auto.
    + constructor; [right; eauto | constructor].
Qed.

Lemma ends_failed (Pre : event -> Prop) r evs :
  (forall ev path image, Pre ev -> ev_call ev <> CImwrite path image) ->
  ends_with_write Pre r evs ->
  (forall ev, In ev evs -> ev_ok ev = false -> exists e, r = Raise e) /\
  (forall e, r = Raise e ->
     forall path image, ~ In (mk_event (CImwrite path image) true) evs).
Proof.
  intros HPre [[H He] | (pre & image & -> & H & Hok)].
  - split; [intros; assumption|].
    intros e _ path img Hin. rewrite Forall_forall in H.
    apply (HPre _ path img (H _ Hin)). reflexivity.
  - split.
    + intros ev Hin Hev. apply in_app_or in Hin. destruct Hin as [Hin | [<- | []]].
      * rewrite Forall_forall in Hok. rewrite (Hok _ Hin) in Hev. discriminate.
      * cbn in Hev. destruct r as [u|e]; [discriminate | eauto].
    + intros e -> path img Hin. apply in_app_or in Hin. destruct Hin as [Hin | [E | []]].
      * rewrite Forall_forall in H. apply (HPre _ path img (H _ Hin)). reflexivity.
      * discriminate E.
Qed.

End Entry.

(** The calls of [main] before the image is written. *)
Definition main_event (args : Args) (g : Gen) : event -> Prop :=
  run_event (num_inference_steps args) (guidance_scale args) "" "" default_next_prompt
            (prompt args) (eta args) g.

Lemma main_generate (args : Args) :
  main env args =
  bind (match seed args with Some n => np_random_seed env n | None => ret tt end)
       (fun _ => generate (beta_start args) (beta_end args) (beta_schedule args)
                   (model args) (tokenizer args) (num_inference_steps args)
                   (guidance_scale args) "" "" default_next_prompt (prompt args)
                   (eta args) (output args)).
Proof. reflexivity. Qed.

(** The log of [main]: the seed if one is given, then the calls of
    [main_event], then the image is written. *)
Lemma main_log (args : Args) (st : state) :
  exists evs,
    trace (snd (main env args st)) = trace st ++ evs /\
    match seed args with
    | None => ends_with_write (output args) (main_event args (rng st))
                (fst (main env args st)) evs
    | Some n =>
        match np_seed env n with
        | Ok g =>
            exists evs', evs = mk_event (CSeed n) true :: evs' /\
                         ends_with_write (output args) (main_event args g)
                           (fst (main env args st)) evs'
        | Raise e => evs = [mk_event (CSeed n) false] /\ fst (main env args st) = Raise e
        end
    end.
Proof.
  rewrite main_generate. destruct (seed args) as [n|].
  - unfold bind at 1, np_random_seed. destruct (np_seed env n) as [g|e].
    + match goal with |- context [generate ?a ?b ?c ?d ?e ?f ?g' ?h ?i ?j ?k ?l ?m ?s] =>
        destruct (generate_log a b c d e f g' h i j k l m g s eq_refl) as (evs & Ht & He)
      end.
      exists (mk_event (CSeed n) true :: evs). split.
      * rewrite Ht. cbn [trace]. rewrite <- app_assoc. reflexivity.
      * exists evs. split; [reflexivity | exact He].
    + exists [mk_event (CSeed n) false]. cbn. auto.
  - unfold bind at 1, ret.
    match goal with |- context [generate ?a ?b ?c ?d ?e ?f ?g' ?h ?i ?j ?k ?l ?m ?s] =>
      destruct (generate_log a b c d e f g' h i j k l m (rng s) s eq_refl) as (evs & Ht & He)
    end.
    exists evs. split; assumption.
Qed.

Lemma main_event_not_imwrite args g ev path image :
  main_event args g ev -> ev_call ev <> CImwrite path image.
Proof. apply run_event_not_imwrite. Qed.

(** C7: in a run of [main], a call that fails (a download, reading or
    compiling a model, a forward pass, the status request) makes [main]
    raise, and a [main] that raises has written no image; so a status
    request that fails ends the run with no image written. *)
Theorem main_failure_writes_nothing (args : Args) (st : state) :
  exists evs,
    trace (snd (main env args st)) = trace st ++ evs /\
    (forall ev, In ev evs -> ev_ok ev = false ->
       exists e, fst (main env args st) = Raise e) /\
    (forall e, fst (main env args st) = Raise e ->
       forall path image, ~ In (mk_event (CImwrite path image) true) evs) /\
    (forall url percent, In (mk_event (CPut url percent) false) evs ->
       (exists e, fst (main env args st) = Raise e) /\
       forall path image, ~ In (mk_event (CImwrite path image) true) evs).
Proof.
  destruct (main_log args st) as (evs & Ht & H).
  exists evs. split; [exact Ht|].
  assert (Hmain :
    (forall ev, In ev evs -> ev_ok ev = false ->
       exists e, fst (main env args st) = Raise e) /\
    (forall e, fst (main env args st) = Raise e ->
       forall path image, ~ In (mk_event (CImwrite path image) true) evs)).
  { destruct (seed args) as [n|].
    - destruct (np_seed env n) as [g|e].
      + destruct H as (evs' & -> & H).
        destruct (ends_failed _ _ _ _ (main_event_not_imwrite args g) H) as [H1 H2].
        split.
        * intros ev [<- | Hin] Hev; [discriminate | eauto].
        * intros e He path image [E | Hin]; [discriminate | eapply H2; eauto].
      + destruct H as [-> He]. split; [eauto|].
        intros e' _ path image [E | []]. discriminate.
    - exact (ends_failed _ _ _ _ (main_event_not_imwrite args (rng st)) H). }
  destruct Hmain as [H1 H2]. repeat split; auto.
  - apply (H1 _ H0). reflexivity.
  - destruct (H1 _ H0 eq_refl) as [e He]. eauto.
Qed.

Lemma default_url url :
  progress_url "" "" default_next_prompt = Ok url -> url = "/prompt/0?token="%string.
Proof. vm_compute. congruence. Qed.

(** Every status request of [main] goes to ["/prompt/0?token="], and is
    refused. *)
Lemma main_put_url (args : Args) (st : state) :
  exists evs,
    trace (snd (main env args st)) = trace st ++ evs /\
    Forall (fun ev => forall url percent,
              ev_call ev = CPut url percent ->
              url = "/prompt/0?token="%string /\ ev_ok ev = false) evs.
Proof.
  destruct (main_log args st) as (evs & Ht & H).
  exists evs. split; [exact Ht|].
  assert (HP : forall g ev url percent,
             main_event args g ev -> ev_call ev = CPut url percent ->
             url = "/prompt/0?token="%string /\ ev_ok ev = false).
  { intros g ev url percent [Hs | [sd Hp]] E.
    - unfold setup_event in Hs. rewrite E in Hs. contradiction.
    - unfold pipeline_event in Hp. rewrite E in Hp.
      destruct Hp as (Hu & Hc & _). apply default_url in Hu. subst url.
      split; [reflexivity | apply Hc; reflexivity]. }
  assert (HE : forall g r evs0,
             ends_with_write (output args) (main_event args g) r evs0 ->
             Forall (fun ev => forall url percent,
                       ev_call ev = CPut url percent ->
                       url = "/prompt/0?token="%string /\ ev_ok ev = false) evs0).
  { intros g r evs0 He. apply ends_events in He.
    eapply Forall_impl; [|exact He]. cbv beta.
    intros ev [Hm | (image & ok & ->)] url percent E; [eapply HP; eauto | discriminate]. }
  destruct (seed args) as [n|].
  - destruct (np_seed env n) as [g|e].
    + destruct H as (evs' & -> & H). constructor; [intros; discriminate | eapply HE; eauto].
    + destruct H as [-> _]. constructor; [intros; discriminate | constructor].
  - eapply HE; eauto.
Qed.


(* ----------------------------------------------------------------- *)
(** ** The command line: no server, no token *)

Section CommandLine.

Variable sd : StableDiffusion Tokenizer Compiled Sched.
Variables (num_inference_steps : Z) (guidance_scale : float).
Variables (prompt : string) (eta : float).

Lemma default_url_eq :
  progress_url "" "" default_next_prompt = Ok "/prompt/0?token="%string.
Proof. vm_compute. reflexivity. Qed.

(** One turn of the loop from the command line: once the denoiser has
    answered, the status request is made, to ["/prompt/0?token="]; the URL
    has no scheme, so [requests] raises and the turn ends there. *)
Lemma iteration_cli emb kw i t latents s (st : state) x raw percent :
  scale_model_input env s i
    (if guidance_on guidance_scale then np_stack_pair latents else latents) = Ok x ->
  infer_unet env (sd_unet sd) x t emb = Ok raw ->
  generated_percent (Z.of_nat i) num_inference_steps = Ok percent ->
  iteration env sd num_inference_steps guidance_scale "" "" default_next_prompt
    emb kw i t (latents, s) st =
  (Raise MissingSchema,
   extend st [mk_event (CPrint i None) true;
              mk_event (CUnet x t emb) true;
              mk_event (CPrint i (Some percent)) true;
              mk_event (CPut "/prompt/0?token=" percent) false]).
Proof.
  intros Hx Hraw Hp. unfold iteration, bind, lift, perform, requests_put.
  rewrite Hx. cbn [is_ok]. rewrite Hraw. cbn [is_ok]. rewrite Hp, default_url_eq.
  change (has_colon "/prompt/0?token=") with false. cbn [is_ok].
  rewrite !log_extend, !extend_extend. reflexivity.
Qed.

Lemma iteration_cli_raises emb kw i t acc (st : state) :
  exists e,
    fst (iteration env sd num_inference_steps guidance_scale "" "" default_next_prompt
           emb kw i t acc st) = Raise e.
Proof.
  unfold iteration, bind, lift, perform, requests_put. destruct acc as [latents s].
  destruct (scale_model_input env s i _) as [x|e]; [|eexists; reflexivity].
  destruct (infer_unet env (sd_unet sd) x t emb) as [raw|e]; [|eexists; reflexivity].
  destruct (generated_percent (Z.of_nat i) num_inference_steps) as [percent|e];
    [|eexists; reflexivity].
  rewrite default_url_eq. change (has_colon "/prompt/0?token=") with false.
  eexists. reflexivity.
Qed.

Lemma sampling_loop_cli_raises emb kw i t ts acc (st : state) :
  exists e,
    fst (sampling_loop env sd num_inference_steps guidance_scale "" ""
           default_next_prompt emb kw i (t :: ts) acc st) = Raise e.
Proof.
  cbn [sampling_loop]. unfold bind.
  destruct (iteration_cli_raises emb kw i t acc st) as [e He].
  destruct (iteration _ _ _ _ _ _ _ _ _ _ _ _ st) as [[a|e'] st']; cbn in *;
    [discriminate | eauto].
Qed.

Abbreviation cli_before_decode :=
  (before_decode sd num_inference_steps guidance_scale "" "" default_next_prompt
     prompt eta).

(** With at least one time step, [pipeline] raises before the decoder. *)
Lemma pipeline_cli_aborts g :
  (forall s0,
     set_timesteps env (sd_scheduler sd) num_inference_steps
       (extra_set_kwargs env (sd_scheduler sd)) = Ok s0 -> timesteps env s0 <> []) ->
  spec g (pipeline env sd num_inference_steps guidance_scale "" "" default_next_prompt
            prompt eta)
         (fun r evs _ => Forall (cli_before_decode g) evs /\ exists e, r = Raise e).
Proof.
  intros Hts. unfold pipeline.
  eapply spec_bind;
    [apply (text_conditioning_post sd num_inference_steps guidance_scale "" ""
              default_next_prompt prompt eta g) | |].
  { intros e evs g1 (_ & H & _). cbv beta. split; [exact H | eexists; reflexivity]. }
  intros emb evs1 g1 (-> & H1 & _ & Hemb). cbv beta.
  eapply spec_bind;
    [apply (prepare_posts sd num_inference_steps guidance_scale "" ""
              default_next_prompt prompt eta g) | |].
  { intros e evs g1 (H & _). cbv beta.
    split; [apply Forall_app; auto | eexists; reflexivity]. }
  intros [[latents s0] kw] evs2 g2 (H2 & _ & Hs). cbn [fst snd] in Hs. cbv beta.
  pose proof (Hts s0 (proj1 Hs)) as Hne.
  destruct (timesteps env s0) as [|t ts] eqn:Ets; [contradiction|].
  eapply spec_bind with
    (P := fun r evs _ => Forall (cli_before_decode g) evs /\ exists e, r = Raise e).
  - intros st Hg.
    destruct (sampling_loop_post sd num_inference_steps guidance_scale "" ""
                default_next_prompt prompt eta g2 g emb s0 kw Hemb Hs (t :: ts) 0 (latents, s0))
      with (st := st) as (evs & Ht & _ & Hev & _); [rewrite Ets; reflexivity | exact Hg |].
    exists evs. split; [exact Ht|]. split; [exact Hev|].
    apply sampling_loop_cli_raises.
  - intros e evs g3 [H3 _]. cbv beta. split; [|eexists; reflexivity].
    rewrite app_assoc. repeat (apply Forall_app; split); auto.
  - intros a evs g3 [_ [e He]]. discriminate.
Qed.

End CommandLine.

(** What the command line can log when the scheduler has a time step. *)
Definition cli_event (ev : event) : Prop :=
  match ev_call ev with
  | CStep _ _ _ _ _ | CDecode _ | CImwrite _ _ => False
  | CPut url _ => url = "/prompt/0?token="%string /\ ev_ok ev = false
  | _ => True
  end.

Lemma cli_before_decode_event sd n gs prompt eta g ev :
  before_decode sd n gs "" "" default_next_prompt prompt eta g ev -> cli_event ev.
Proof.
  destruct ev as [c ok]. unfold before_decode, pipeline_event, cli_event. cbn [ev_call ev_ok].
  intros [H Hd]. destruct c; try exact I; try contradiction.
  - destruct H as (Hu & Hc & _). apply default_url in Hu. subst url.
    split; [reflexivity | apply Hc; reflexivity].
  - destruct H as (_ & _ & url & Hu & Hc). apply default_url in Hu. subst url.
    discriminate Hc.
  - apply (Hd latents). reflexivity.
Qed.

Lemma generate_cli_aborts bs be schedule model tokenizer n gs prompt eta output g :
  (forall sch kw s, set_timesteps env sch n kw = Ok s -> timesteps env s <> []) ->
  spec g (generate bs be schedule model tokenizer n gs "" "" default_next_prompt
            prompt eta output)
         (fun r evs _ => Forall cli_event evs /\ exists e, r = Raise e).
Proof.
  intros Hts. unfold generate.
  eapply spec_bind with (P := post g cli_event (fun _ => True)).
  { apply post_perform_R; [exact I | auto]. }
  { intros e evs g1 (_ & H & _). cbv beta. split; [exact H | eexists; reflexivity]. }
  intros scheduler evs1 g1 (-> & H1 & _). cbv beta.
  eapply spec_bind with (P := post g cli_event (fun _ => True)).
  { apply init_post. intros [c ok] H. destruct c; try contradiction; exact I. }
  { intros e evs g1 (_ & H & _). cbv beta.
    split; [apply Forall_app; auto | eexists; reflexivity]. }
  intros sd evs2 g2 (-> & H2 & _). cbv beta.
  eapply spec_bind; [apply (pipeline_cli_aborts sd n gs prompt eta g); intros s0; apply Hts | |].
  { intros e evs g3 [H3 _]. cbv beta. split; [|eexists; reflexivity].
    rewrite app_assoc. repeat (apply Forall_app; split); auto.
    eapply Forall_impl; [|exact H3]. apply cli_before_decode_event. }
  intros a evs g3 [_ [e He]]. discriminate.
Qed.

Lemma bind_seed {A} n (f : unit -> M A) (st : state) :
  bind (np_random_seed env n) f st =
  match np_seed env n with
  | Ok g => f tt (mk_state (trace st ++ [mk_event (CSeed n) true]) g)
  | Raise e => (Raise e, log (CSeed n) false st)
  end.
Proof. unfold bind, np_random_seed. destruct (np_seed env n); reflexivity. Qed.

Lemma bind_ret {A B} (a : A) (f : A -> M B) (st : state) : bind (ret a) f st = f a st.
Proof. reflexivity. Qed.

(** C8 fails on the code: started from the command line with a scheduler that
    has at least one time step, [main] raises; it makes no call of
    [scheduler.step], never runs the decoder and writes no image, and every
    status request it makes is refused. *)
Theorem main_cli_aborts (args : Args) (st : state) :
  (forall sch kw s,
     set_timesteps env sch (num_inference_steps args) kw = Ok s ->
     timesteps env s <> []) ->
  exists evs e,
    trace (snd (main env args st)) = trace st ++ evs /\
    fst (main env args st) = Raise e /\
    Forall cli_event evs.
Proof.
  intros Hts. rewrite main_generate. destruct (seed args) as [n|].
  - rewrite bind_seed. destruct (np_seed env n) as [g|e].
    + match goal with |- context [generate ?a ?b ?c ?d ?e ?f ?g' ?h ?i ?j ?k ?l ?m ?s] =>
        destruct (generate_cli_aborts a b c d e f g' k l m g Hts s eq_refl)
          as (evs & Ht & He & e' & Hr)
      end.
      exists (mk_event (CSeed n) true :: evs), e'. split; [|split].
      * rewrite Ht. cbn [trace]. rewrite <- app_assoc. reflexivity.
      * exact Hr.
      * constructor; [exact I | exact He].
    + exists [mk_event (CSeed n) false], e. cbn. repeat split. repeat constructor.
  - rewrite bind_ret.
    match goal with |- context [generate ?a ?b ?c ?d ?e ?f ?g' ?h ?i ?j ?k ?l ?m ?s] =>
      destruct (generate_cli_aborts a b c d e f g' k l m (rng s) Hts s eq_refl)
        as (evs & Ht & He & e' & Hr)
    end.
    exists evs, e'. auto.
Qed.

Lemma run_generate prompt iterations seed output server token next_prompt :
  run_stable_diffusion env prompt iterations seed output server token next_prompt =
  bind (np_random_seed env seed)
       (fun _ => generate 0.00085%float 0.012%float "scaled_linear"
                   "bes-dev/stable-diffusion-v1-4-openvino"
                   "openai/clip-vit-large-patch14" iterations 7.5%float server token
                   next_prompt prompt 0.0%float output).
Proof. reflexivity. Qed.

Lemma guidance_on_7_5 : guidance_on 7.5%float = true.
Proof. vm_compute. reflexivity. Qed.


End Runs.

Arguments extend {F Time Sched Gen} st evs.
Arguments cli_event {F Time Sched Gen} ev.

(* ----------------------------------------------------------------- *)
(** ** The command line reaches the status request *)

Section Reached.

Variables F Time Tokenizer Graph Compiled Sched Gen : Type.
Context {DF : Dtype F}.
Variable env : Env F Time Tokenizer Graph Compiled Sched Gen.

Abbreviation event := (event F Time Sched Gen).
Abbreviation state := (state F Time Sched Gen).
Abbreviation M := (M F Time Sched Gen).

(** The libraries answer every call that [main] makes before its first
    status request: the seed is accepted, the scheduler is built, the
    tokenizer and the model files are found, read and compiled, the
    tokenizer and the encoder return (the encoder one entry of one shape per
    sequence), the scheduler sets at least one time step (and has its
    sigmas, if it is an [LMSDiscreteScheduler]), and the denoiser returns;
    and at least one step is asked for. *)
Definition libraries_answer (args : Args) : Prop :=
  (forall n, seed args = Some n -> exists g, np_seed env n = Ok g) /\
  (exists scheduler,
     LMSDiscreteScheduler env (beta_start args) (beta_end args) (beta_schedule args)
       = Ok scheduler) /\
  (exists tk, from_pretrained env (tokenizer args) = Ok tk) /\
  (forall filename, exists path, hf_hub_download env (model args) filename = Ok path) /\
  (forall xml bin, exists g, read_model env xml bin = Ok g) /\
  (forall g, exists c, compile_model env g "CPU" = Ok c) /\
  (forall tk text n, exists ids, tokenize env tk text PadMaxLength n true = Ok ids) /\
  (exists dims, forall c tokens,
     exists e, infer_tokens env c tokens = Ok e /\ shape e = 1%nat :: dims) /\
  (forall s kw,
     exists s', set_timesteps env s (num_inference_steps args) kw = Ok s' /\
                timesteps env s' <> [] /\
                (is_LMS env s' = true -> sigmas env s' <> [])) /\
  (forall c x t emb, exists raw, infer_unet env c x t emb = Ok raw) /\
  (0 < num_inference_steps args)%Z.

(** A call that returned and is neither a denoiser pass nor a status
    request. *)
Definition quiet (ev : event) : Prop :=
  ev_ok ev = true /\ is_put (ev_call ev) = false /\ is_unet (ev_call ev) = false.

(** [runs_to R m]: [m] returns, whatever the state, a value that
    satisfies [R], after quiet calls only. *)
Definition runs_to {A} (R : A -> Prop) (m : M A) : Prop :=
  forall st, exists a st' evs,
    m st = (Ok a, st') /\ trace st' = trace st ++ evs /\ Forall quiet evs /\ R a.

(** [put_refused m]: [m] makes quiet calls, then the first denoiser pass
    and the status request of the first turn, to ["/prompt/0?token="] with
    percent 0; the request is refused and [m] raises [MissingSchema]. *)
Definition put_refused {A} (m : M A) : Prop :=
  forall st, exists pre x t emb,
    fst (m st) = Raise MissingSchema /\
    trace (snd (m st)) =
      trace st ++ pre ++
      [mk_event (CPrint 0 None) true;
       mk_event (CUnet x t emb) true;
       mk_event (CPrint 0 (Some 0%Z)) true;
       mk_event (CPut "/prompt/0?token=" 0) false] /\
    Forall quiet pre.

Lemma runs_ret {A} (R : A -> Prop) a : R a -> runs_to R (ret a).
Proof.
  intros H st. exists a, st, []. rewrite app_nil_r. repeat split; auto.
Qed.

Lemma runs_lift {A} (r : outcome A) a : r = Ok a -> runs_to (eq a) (lift r).
Proof.
  intros -> st. exists a, st, []. rewrite app_nil_r. repeat split; auto.
Qed.

Lemma runs_perform {A} c (r : outcome A) a :
  r = Ok a -> is_put c = false -> is_unet c = false -> runs_to (eq a) (perform c r).
Proof.
  intros -> Hp Hu st. exists a, (log c true st), [mk_event c true].
  repeat split; auto. constructor; [repeat split; assumption | constructor].
Qed.

Lemma runs_randn dims : runs_to (fun _ => True) (np_random_randn env dims).
Proof.
  intros st. unfold np_random_randn. destruct (randn env (rng st) dims) as [x g].
  eexists _, _, _. split; [reflexivity|]. cbn [trace].
  split; [reflexivity|]. split; [|exact I]. repeat constructor.
Qed.

Lemma runs_seed n g : np_seed env n = Ok g -> runs_to (fun _ => True) (np_random_seed env n).
Proof.
  intros E st. unfold np_random_seed. rewrite E.
  eexists _, _, _. split; [reflexivity|]. cbn [trace].
  split; [reflexivity|]. split; [|exact I]. repeat constructor.
Qed.

Lemma runs_weaken {A} (R R' : A -> Prop) (m : M A) :
  runs_to R m -> (forall a, R a -> R' a) -> runs_to R' m.
Proof.
  intros H HR st. destruct (H st) as (a & st' & evs & E & T & Q & Ra).
  exists a, st', evs. auto.
Qed.

Lemma runs_bind {A B} (R1 : A -> Prop) (R2 : B -> Prop) (m : M A) (f : A -> M B) :
  runs_to R1 m -> (forall a, R1 a -> runs_to R2 (f a)) -> runs_to R2 (bind m f).
Proof.
  intros Hm Hf st.
  destruct (Hm st) as (a & st1 & evs1 & E1 & T1 & Q1 & Ra).
  destruct (Hf a Ra st1) as (b & st2 & evs2 & E2 & T2 & Q2 & Rb).
  exists b, st2, (evs1 ++ evs2). unfold bind. rewrite E1, E2.
  split; [reflexivity|]. split; [rewrite T2, T1, app_assoc; reflexivity|].
  split; [apply Forall_app; auto | assumption].
Qed.

Lemma refused_bind_l {A B} (m : M A) (f : A -> M B) :
  put_refused m -> put_refused (bind m f).
Proof.
  intros H st. destruct (H st) as (pre & x & t & emb & Er & Et & Hq).
  exists pre, x, t, emb. unfold bind.
  destruct (m st) as [[a|e] st1]; cbn [fst snd] in *; [discriminate|].
  injection Er as ->. auto.
Qed.

Lemma refused_bind_r {A B} (R : A -> Prop) (m : M A) (f : A -> M B) :
  runs_to R m -> (forall a, R a -> put_refused (f a)) -> put_refused (bind m f).
Proof.
  intros Hm Hf st.
  destruct (Hm st) as (a & st1 & evs1 & E1 & T1 & Q1 & Ra).
  destruct (Hf a Ra st1) as (pre & x & t & emb & Er & Et & Hq).
  exists (evs1 ++ pre), x, t, emb. unfold bind. rewrite E1.
  split; [exact Er|]. split; [rewrite Et, T1, <- !app_assoc; reflexivity|].
  apply Forall_app; auto.
Qed.

(** [round((0 / n) * 100)] is 0. *)
Lemma generated_percent_first n : (0 < n)%Z -> generated_percent 0 n = Ok 0%Z.
Proof.
  intros Hn. rewrite generated_percent_report by lia. reflexivity.
Qed.

Section OneCommandLine.

Variable args : Args.
Hypothesis answer : libraries_answer args.

Lemma load_model_runs name :
  runs_to (fun _ => True) (load_model env (model args) name "CPU").
Proof.
  destruct answer as (_ & _ & _ & Hd & Hr & Hc & _).
  unfold load_model.
  destruct (Hd (name ++ ".xml")%string) as [xml Ex].
  destruct (Hd (name ++ ".bin")%string) as [bin Eb].
  destruct (Hr xml bin) as [g Eg]. destruct (Hc g) as [c Ec].
  eapply runs_bind; [apply (runs_perform _ _ xml Ex); reflexivity |]. intros ? <-.
  eapply runs_bind; [apply (runs_perform _ _ bin Eb); reflexivity |]. intros ? <-.
  eapply runs_bind; [apply (runs_perform _ _ g Eg); reflexivity |]. intros ? <-.
  eapply runs_bind; [apply (runs_perform _ _ c Ec); reflexivity |]. intros ? <-.
  apply runs_ret. exact I.
Qed.

Lemma init_runs scheduler :
  runs_to (fun _ => True) (init env scheduler (model args) (tokenizer args) "CPU").
Proof.
  destruct answer as (_ & _ & [tk Etk] & _).
  unfold init.
  eapply runs_bind; [apply (runs_perform _ _ tk Etk); reflexivity |]. intros ? <-.
  eapply runs_bind; [apply load_model_runs |]. intros te _.
  eapply runs_bind; [apply load_model_runs |]. intros un _.
  eapply runs_bind; [apply load_model_runs |]. intros va _.
  apply runs_ret. exact I.
Qed.

Lemma embed_runs sd text dims :
  (forall c tokens, exists e, infer_tokens env c tokens = Ok e /\ shape e = 1%nat :: dims) ->
  runs_to (fun e => shape e = 1%nat :: dims) (embed env sd text).
Proof.
  intros Henc. destruct answer as (_ & _ & _ & _ & _ & _ & Htok & _).
  unfold embed.
  destruct (Htok (sd_tokenizer sd) text (model_max_length env (sd_tokenizer sd)))
    as [ids Eids].
  destruct (Henc (sd_text_encoder sd) (np_array1 ids)) as (e & Ee & Hs).
  eapply runs_bind; [apply (runs_perform _ _ ids Eids); reflexivity |]. intros ? <-.
  eapply runs_weaken; [apply (runs_perform _ _ e Ee); reflexivity |].
  intros ? <-. exact Hs.
Qed.

Lemma text_conditioning_runs sd :
  runs_to (fun _ => True) (text_conditioning env sd (prompt args) (guidance_scale args)).
Proof.
  pose proof answer as (_ & _ & _ & _ & _ & _ & _ & [dims Henc] & _).
  unfold text_conditioning.
  eapply runs_bind; [apply (embed_runs sd _ dims Henc) |]. intros cond Hc.
  destruct (guidance_on (guidance_scale args)); [|apply runs_ret; exact I].
  eapply runs_bind; [apply (embed_runs sd _ dims Henc) |]. intros uncond Hu.
  assert (E : exists emb, np_concatenate0 uncond cond = Ok emb).
  { unfold np_concatenate0. rewrite Hu, Hc.
    destruct (list_eq_dec Nat.eq_dec dims dims); [eauto | contradiction]. }
  destruct E as [emb E].
  eapply runs_weaken; [apply (runs_lift _ emb E) | auto].
Qed.

Lemma prepare_runs sd :
  runs_to (fun r => timesteps env (snd (fst r)) <> [] /\
                    (is_LMS env (snd (fst r)) = true -> sigmas env (snd (fst r)) <> []))
          (prepare env sd (num_inference_steps args) (eta args)).
Proof.
  destruct answer as (_ & _ & _ & _ & _ & _ & _ & _ & Hset & _).
  unfold prepare.
  eapply runs_bind; [apply runs_randn |]. intros latents _.
  destruct (Hset (sd_scheduler sd) (extra_set_kwargs env (sd_scheduler sd)))
    as (s & Es & Hts & Hsig).
  eapply runs_bind; [apply (runs_perform _ _ s Es); reflexivity |]. intros ? <-.
  eapply runs_bind with (R1 := fun _ => True).
  - destruct (is_LMS env s); [|apply runs_ret; exact I].
    destruct (sigmas env s) as [|sigma0 sigmas'] eqn:E;
      [exfalso; exact (Hsig eq_refl eq_refl)|].
    eapply runs_bind; [apply (runs_lift _ sigma0); reflexivity |].
    intros ? <-. apply runs_ret. exact I.
  - intros latents' _. apply runs_ret. cbn [fst snd]. auto.
Qed.

Lemma iteration_refused sd emb kw t latents s :
  (is_LMS env s = true -> sigmas env s <> []) ->
  put_refused (iteration env sd (num_inference_steps args) (guidance_scale args) "" ""
                 default_next_prompt emb kw 0 t (latents, s)).
Proof.
  intros Hsig st.
  destruct answer as (_ & _ & _ & _ & _ & _ & _ & _ & _ & Hun & HN).
  set (y := if guidance_on (guidance_scale args) then np_stack_pair latents else latents).
  assert (Ex : exists x, scale_model_input env s 0 y = Ok x).
  { unfold scale_model_input, list_index. destruct (is_LMS env s); [|eauto].
    destruct (sigmas env s) as [|sigma0 sigmas'];
      [exfalso; exact (Hsig eq_refl eq_refl)|]. cbn. eauto. }
  destruct Ex as [x Ex]. destruct (Hun (sd_unet sd) x t emb) as [raw Eraw].
  rewrite (iteration_cli F Time Tokenizer Graph Compiled Sched Gen env sd
             (num_inference_steps args) (guidance_scale args) emb kw 0 t latents s st
             x raw 0%Z Ex Eraw (generated_percent_first _ HN)).
  exists [], x, t, emb. cbn [fst snd extend trace app]. repeat split. constructor.
Qed.

Lemma pipeline_refused sd :
  put_refused (pipeline env sd (num_inference_steps args) (guidance_scale args) "" ""
                 default_next_prompt (prompt args) (eta args)).
Proof.
  unfold pipeline.
  eapply refused_bind_r; [apply text_conditioning_runs |]. intros emb _.
  eapply refused_bind_r; [apply prepare_runs |].
  intros [[latents s] kw] [Hts Hsig]. cbn [fst snd] in Hts, Hsig.
  apply refused_bind_l.
  destruct (timesteps env s) as [|t ts]; [contradiction|].
  cbn [sampling_loop]. apply refused_bind_l. apply iteration_refused. exact Hsig.
Qed.

Lemma main_refused : put_refused (main env args).
Proof.
  pose proof answer as (Hseed & [scheduler Es] & _).
  unfold main.
  eapply refused_bind_r with (R := fun _ => True).
  { destruct (seed args) as [n|]; [|apply runs_ret; exact I].
    destruct (Hseed n eq_refl) as [g Eg]. exact (runs_seed n g Eg). }
  intros _ _.
  eapply refused_bind_r; [apply (runs_perform _ _ scheduler Es); reflexivity |].
  intros ? <-.
  eapply refused_bind_r; [apply init_runs |]. intros sd _.
  apply refused_bind_l. apply pipeline_refused.
Qed.

End OneCommandLine.


End Reached.

(* ================================================================= *)
(** * Part III: runs in the small environment *)

(** The scenario in the small environment: the first status request is
    refused and nothing is written. *)
Example red_cube_run :
  let r := main demo_env red_cube demo_state in
  fst r = Raise MissingSchema /\
  count is_unet (snd r) = 1%nat /\
  filter (fun ev => is_put (ev_call ev)) (trace (snd r))
    = [mk_event (CPut "/prompt/0?token=" 0) false] /\
  count is_decode (snd r) = 0%nat /\
  count is_imwrite (snd r) = 0%nat.
Proof. vm_compute. repeat split. Qed.

(** With a server, a run of two steps goes through and the image is
    written last; a run of four steps loses the endpoint at the fourth
    request and writes nothing. *)
Example served_run :
  let r := run_stable_diffusion demo_env "a red cube" 2 42 "output.png"
             "http://localhost:3000" "secret" [("id"%string, PInt 7)] demo_state in
  fst r = Ok tt /\
  count is_unet (snd r) = 2%nat /\
  filter (fun ev => is_put (ev_call ev)) (trace (snd r))
    = [mk_event (CPut "http://localhost:3000/prompt/7?token=secret" 0) true;
       mk_event (CPut "http://localhost:3000/prompt/7?token=secret" 50) true] /\
  count is_decode (snd r) = 1%nat /\
  filter (fun ev => is_imwrite (ev_call ev)) (trace (snd r))
    = [mk_event (CImwrite "output.png"
                   (mk_ndarray [1; 2; 3]%nat [255; 127; 255; 0; 191; 0]%Z)) true].
Proof. vm_compute. repeat split. Qed.

Example dropped_run :
  let r := run_stable_diffusion demo_env "a red cube" 4 42 "output.png"
             "http://localhost:3000" "secret" [("id"%string, PInt 7)] demo_state in
  fst r = Raise (External "ConnectionError") /\
  count is_unet (snd r) = 4%nat /\
  map (fun ev => ev_ok ev) (filter (fun ev => is_put (ev_call ev)) (trace (snd r)))
    = [true; true; true; false] /\
  count is_decode (snd r) = 0%nat /\
  count is_imwrite (snd r) = 0%nat.
Proof. vm_compute. repeat split. Qed.

(* ----------------------------------------------------------------- *)
(** ** The theorems of Part II at these inputs *)

Lemma demo_tokenize_length text n :
  List.length (demo_tokenize text PadMaxLength n true) = n.
Proof.
  unfold demo_tokenize. rewrite length_app, repeat_length, length_firstn. lia.
Qed.

Lemma text_conditioning_batch_witness :
  text_conditioning demo_env demo_sd "a red cube" 1.0%float demo_state =
    (Ok (mk_ndarray [1; 2]%nat [344; 1]%float),
     extend demo_state
       [mk_event (CTokenize "a red cube" 4) true;
        mk_event (CEncode (np_array1 [97; 32; 114; 101]%Z)) true])
  /\
  exists emb,
    text_conditioning demo_env demo_sd "a red cube" 7.5%float demo_state =
      (Ok emb,
       extend demo_state
         [mk_event (CTokenize "a red cube" 4) true;
          mk_event (CEncode (np_array1 [97; 32; 114; 101]%Z)) true;
          mk_event (CTokenize "" 4) true;
          mk_event (CEncode (np_array1 [0; 0; 0; 0]%Z)) true]) /\
    shape emb = [2; 2]%nat /\
    data emb = [0; 1]%float ++ [344; 1]%float /\
    np_index emb 0 = Ok (mk_ndarray [2%nat] [0; 1]%float) /\
    np_index emb 1 = Ok (mk_ndarray [2%nat] [344; 1]%float).
Proof.
  split.
  - refine (proj1 (text_conditioning_batch _ _ _ _ _ _ _ demo_env demo_sd 1.0%float
                     "a red cube" demo_state [97; 32; 114; 101]%Z
                     (mk_ndarray [1; 2]%nat [344; 1]%float) [2%nat] _ _ _ _) _);
      reflexivity.
  - refine (proj2 (text_conditioning_batch _ _ _ _ _ _ _ demo_env demo_sd 7.5%float
                     "a red cube" demo_state [97; 32; 114; 101]%Z
                     (mk_ndarray [1; 2]%nat [344; 1]%float) [2%nat] _ _ _ _)
                  _ [0; 0; 0; 0]%Z (mk_ndarray [1; 2]%nat [0; 1]%float) _ _ _ _);
      reflexivity.
Defined.


Lemma decode_image_pixels_witness :
  exists img,
    decode_image demo_env demo_sd (mk_ndarray [1; 1; 2]%nat [0.25; 4]%float) demo_state =
      (Ok img,
       extend demo_state
         [mk_event (CDecode (mk_ndarray [1; 1; 1; 2]%nat [0.25; 4]%float)) true]) /\
    shape img = [1; 2; 3]%nat /\ well_formed img /\
    Forall (fun p => (0 <= p <= 255)%Z) (data img) /\
    (forall i j k, (i < 1)%nat -> (j < 2)%nat -> (k < 3)%nat ->
       nth_error (data img) ((i * 2 + j) * 3 + k) =
       option_map pixel
         (nth_error [1; -1; 0; 0.5; 3; -3]%float (((2 - k) * 1 + i) * 2 + j))) /\
    (forall st', fst (decode_image demo_env demo_sd
                        (mk_ndarray [1; 1; 2]%nat [0.25; 4]%float) st') = Ok img).
Proof.
  apply (decode_image_pixels _ _ _ _ _ _ _ demo_env demo_sd demo_state
           (mk_ndarray [1; 1; 2]%nat [0.25; 4]%float)
           (mk_ndarray [1; 3; 1; 2]%nat [1; -1; 0; 0.5; 3; -3]%float) 0 1 2);
    reflexivity.
Defined.

Lemma main_cli_aborts_witness :
  exists evs e,
    trace (snd (main demo_env red_cube demo_state)) = trace demo_state ++ evs /\
    fst (main demo_env red_cube demo_state) = Raise e /\
    Forall cli_event evs.
Proof.
  apply (main_cli_aborts _ _ _ _ _ _ _ demo_env red_cube demo_state).
  intros sch kw s H. cbn in H. injection H as <-. discriminate.
Defined.





(* ================================================================= *)
(** * Part IV: more of the script *)

Definition is_step {F Time Sched Gen} (c : call F Time Sched Gen) : bool :=
  match c with CStep _ _ _ _ _ => true | _ => false end.

(** The percents of the status requests of a log, in order. *)
Definition put_percents {F Time Sched Gen} (evs : list (event F Time Sched Gen)) : list Z :=
  flat_map (fun ev => match ev_call ev with CPut _ p => [p] | _ => [] end) evs.

Section LoopFacts.

Variables F Time Tokenizer Graph Compiled Sched Gen : Type.
Context {DF : Dtype F}.
Variable env : Env F Time Tokenizer Graph Compiled Sched Gen.
Variable sd : StableDiffusion Tokenizer Compiled Sched.
Variables (num_inference_steps : Z) (guidance_scale : float).
Variables (server token : string) (next_prompt : dict).
Variables (text_embeddings : ndarray F) (kw : option float).

Abbreviation event := (event F Time Sched Gen).
Abbreviation state := (state F Time Sched Gen).

(** The log and the value of a loop whose turns all ran to their end.
    For each time step in order: the console line, the denoiser pass on
    the current latent (stacked twice under guidance, scaled for an LMS
    scheduler), the console line with the percent, the status request with
    the same percent to a URL with a scheme, and the scheduler step on the
    current latent; every call returned.  The latent and the scheduler
    that [step] returns are those of the next turn, and those of the last
    turn are the loop's value. *)
Fixpoint turns (i : nat) (ts : list Time) (acc : ndarray F * Sched)
    (evs : list event) (final : ndarray F * Sched) : Prop :=
  match ts with
  | [] => evs = [] /\ final = acc
  | t :: ts' =>
      exists x raw percent url noise_pred acc' rest,
        scale_model_input env (snd acc) i
          (if guidance_on guidance_scale then np_stack_pair (fst acc) else fst acc) = Ok x /\
        infer_unet env (sd_unet sd) x t text_embeddings = Ok raw /\
        generated_percent (Z.of_nat i) num_inference_steps = Ok percent /\
        progress_url server token next_prompt = Ok url /\
        has_colon url = true /\
        guide guidance_scale raw = Ok noise_pred /\
        step env (snd acc) noise_pred (step_argument env (snd acc) i t) (fst acc) kw
          = Ok acc' /\
        evs = [mk_event (CPrint i None) true;
               mk_event (CUnet x t text_embeddings) true;
               mk_event (CPrint i (Some percent)) true;
               mk_event (CPut url percent) true;
               mk_event (CStep (snd acc) noise_pred (step_argument env (snd acc) i t)
                               (fst acc) kw) true]
              ++ rest /\
        turns (S i) ts' acc' rest final
  end.

Lemma iteration_returns i t acc (st : state) :
  is_ok (fst (iteration env sd num_inference_steps guidance_scale server token next_prompt
                text_embeddings kw i t acc st)) = true ->
  exists x raw percent url noise_pred acc',
    iteration env sd num_inference_steps guidance_scale server token next_prompt
      text_embeddings kw i t acc st =
      (Ok acc',
       extend st
         [mk_event (CPrint i None) true;
          mk_event (CUnet x t text_embeddings) true;
          mk_event (CPrint i (Some percent)) true;
          mk_event (CPut url percent) true;
          mk_event (CStep (snd acc) noise_pred (step_argument env (snd acc) i t)
                          (fst acc) kw) true]) /\
    scale_model_input env (snd acc) i
      (if guidance_on guidance_scale then np_stack_pair (fst acc) else fst acc) = Ok x /\
    infer_unet env (sd_unet sd) x t text_embeddings = Ok raw /\
    generated_percent (Z.of_nat i) num_inference_steps = Ok percent /\
    progress_url server token next_prompt = Ok url /\
    has_colon url = true /\
    guide guidance_scale raw = Ok noise_pred /\
    step env (snd acc) noise_pred (step_argument env (snd acc) i t) (fst acc) kw = Ok acc'.
Proof.
  unfold iteration, bind, lift, perform, requests_put. destruct acc as [latents s].
  cbn [fst snd].
  destruct (scale_model_input env s i _) as [x|e] eqn:Ex; [|discriminate].
  destruct (infer_unet env (sd_unet sd) x t text_embeddings) as [raw|e] eqn:Er;
    [|discriminate].
  destruct (generated_percent (Z.of_nat i) num_inference_steps) as [percent|e] eqn:Ep;
    [|discriminate].
  destruct (progress_url server token next_prompt) as [url|e] eqn:Eu; [|discriminate].
  cbn [is_ok].
  destruct (has_colon url) eqn:Ec; [|discriminate].
  destruct (net_put env _ url percent) as [u|e]; [|discriminate].
  destruct (guide guidance_scale raw) as [noise_pred|e] eqn:Eg; [|discriminate].
  destruct (step env s noise_pred (step_argument env s i t) latents kw) as [acc'|e] eqn:Es;
    [|discriminate].
  intros _. exists x, raw, percent, url, noise_pred, acc'.
  cbn [is_ok]. rewrite !(log_extend F Time Sched Gen), !(extend_extend F Time Sched Gen).
  cbn [app]. repeat split; auto.
Qed.

Lemma turns_counts ts : forall i acc evs final,
  turns i ts acc evs final ->
  Forall (fun ev => ev_ok ev = true) evs /\
  List.length (filter (fun ev => is_unet (ev_call ev)) evs) = List.length ts /\
  List.length (filter (fun ev => is_step (ev_call ev)) evs) = List.length ts /\
  Forall2 (fun k p => generated_percent (Z.of_nat k) num_inference_steps = Ok p)
          (seq i (List.length ts)) (put_percents evs).
Proof.
  induction ts as [|t ts IH]; intros i acc evs final H; cbn [turns] in H.
  - destruct H as [-> _]. cbn. repeat split; constructor.
  - destruct H as (x & raw & percent & url & noise & acc' & rest &
                   _ & _ & Hp & _ & _ & _ & _ & -> & Hr).
    destruct (IH _ _ _ _ Hr) as (Hok & Hu & Hs & Hpp).
    cbn [app filter ev_call is_unet is_step List.length put_percents flat_map seq].
    repeat split.
    + repeat (constructor; [reflexivity|]). exact Hok.
    + rewrite Hu. reflexivity.
    + rewrite Hs. reflexivity.
    + constructor; assumption.
Qed.

Lemma turns_puts ts : forall i acc evs final,
  turns i ts acc evs final ->
  List.length (filter (fun ev => is_put (ev_call ev)) evs) = List.length ts /\
  Forall (fun ev => is_decode (ev_call ev) = false) evs.
Proof.
  induction ts as [|t ts IH]; intros i acc evs final H; cbn [turns] in H.
  - destruct H as [-> _]. cbn. split; constructor.
  - destruct H as (x & raw & percent & url & noise & acc' & rest &
                   _ & _ & _ & _ & _ & _ & _ & -> & Hr).
    destruct (IH _ _ _ _ Hr) as (Hp & Hd).
    cbn [app filter ev_call is_put List.length]. split.
    + rewrite Hp. reflexivity.
    + repeat (constructor; [reflexivity|]). exact Hd.
Qed.

Lemma sampling_loop_log ts : forall i acc (st : state),
  is_ok (fst (sampling_loop env sd num_inference_steps guidance_scale server token
                next_prompt text_embeddings kw i ts acc st)) = true ->
  exists evs final,
    sampling_loop env sd num_inference_steps guidance_scale server token
      next_prompt text_embeddings kw i ts acc st = (Ok final, extend st evs) /\
    turns i ts acc evs final.
Proof.
  induction ts as [|t ts IH]; intros i acc st Hok.
  - exists [], acc. cbn. unfold ret, extend. rewrite app_nil_r.
    destruct st; auto.
  - cbn [sampling_loop] in *. unfold bind in *.
    pose proof (iteration_returns i t acc st) as Hit.
    destruct (iteration env sd num_inference_steps guidance_scale server token next_prompt
                text_embeddings kw i t acc st) as [[acc1|e] st1]; [|discriminate].
    destruct (Hit eq_refl)
      as (x & raw & percent & url & noise & acc' & Hrun & Hx & Hraw & Hp & Hu & Hc & Hg & Hs).
    injection Hrun as -> ->.
    destruct (IH (S i) acc' _ Hok) as (rest & final & Hr & Hturns).
    rewrite Hr, (extend_extend F Time Sched Gen).
    eexists. exists final. split; [reflexivity|].
    cbn [turns]. exists x, raw, percent, url, noise, acc', rest.
    repeat split; auto.
Qed.

(** X1: a sampling loop that returns has logged, for each time step of the
    scheduler in order, one denoiser pass on the current latent, one status
    request and one scheduler step, each of which returned; the latent that
    a step returns is the one the next turn works on, and the loop returns
    the last one.  Request number [k] carries
    [round((k / num_inference_steps) * 100)]. *)
Theorem sampling_loop_returns ts i acc (st : state) :
  is_ok (fst (sampling_loop env sd num_inference_steps guidance_scale server token
                next_prompt text_embeddings kw i ts acc st)) = true ->
  exists evs final,
    sampling_loop env sd num_inference_steps guidance_scale server token
      next_prompt text_embeddings kw i ts acc st = (Ok final, extend st evs) /\
    turns i ts acc evs final /\
    Forall (fun ev => ev_ok ev = true) evs /\
    List.length (filter (fun ev => is_unet (ev_call ev)) evs) = List.length ts /\
    List.length (filter (fun ev => is_step (ev_call ev)) evs) = List.length ts /\
    Forall2 (fun k p => generated_percent (Z.of_nat k) num_inference_steps = Ok p)
            (seq i (List.length ts)) (put_percents evs).
Proof.
  intros Hok. destruct (sampling_loop_log ts i acc st Hok) as (evs & final & Hrun & Ht).
  exists evs, final. split; [exact Hrun|]. split; [exact Ht|].
  exact (turns_counts _ _ _ _ _ Ht).
Qed.

Lemma Forall2_nth_error {A B} (R : A -> B -> Prop) l l' :
  Forall2 R l l' ->
  forall j a b, nth_error l j = Some a -> nth_error l' j = Some b -> R a b.
Proof.
  induction 1 as [|a0 b0 l l' H0 _ IH]; intros j a b Ha Hb.
  - destruct j; discriminate.
  - destruct j as [|j]; cbn in *; [congruence | eauto].
Qed.

(** X2: in a loop that returns, started at the first time step of a run
    with no more time steps than [num_inference_steps], the percents sent
    to the status endpoint never go down from one request to the next, and
    lie between 0 and 100. *)
Theorem sampling_loop_percents_sorted ts acc (st : state) :
  (Z.of_nat (List.length ts) <= num_inference_steps)%Z ->
  is_ok (fst (sampling_loop env sd num_inference_steps guidance_scale server token
                next_prompt text_embeddings kw 0 ts acc st)) = true ->
  exists evs,
    trace (snd (sampling_loop env sd num_inference_steps guidance_scale server token
                  next_prompt text_embeddings kw 0 ts acc st)) = trace st ++ evs /\
    List.length (put_percents evs) = List.length ts /\
    forall j k pj pk,
      (j <= k)%nat ->
      nth_error (put_percents evs) j = Some pj ->
      nth_error (put_percents evs) k = Some pk ->
      (0 <= pj)%Z /\ (pj <= pk)%Z /\ (pk <= 100)%Z.
Proof.
  intros Hn Hok.
  destruct (sampling_loop_log ts 0 acc st Hok) as (evs & final & Hrun & Hturns).
  destruct (turns_counts _ _ _ _ _ Hturns) as (_ & _ & _ & Hp).
  exists evs. split; [rewrite Hrun; reflexivity|].
  pose proof (Forall2_length Hp) as Hlen. rewrite length_seq in Hlen.
  split; [symmetry; exact Hlen|].
  intros j k pj pk Hjk Hj Hk.
  assert (Hkl : (k < List.length ts)%nat).
  { rewrite Hlen. apply nth_error_Some. congruence. }
  assert (Hsj : nth_error (seq 0 (List.length ts)) j = Some j).
  { rewrite nth_error_seq. replace (j <? List.length ts)%nat with true; [reflexivity|].
    symmetry. apply Nat.ltb_lt. lia. }
  assert (Hsk : nth_error (seq 0 (List.length ts)) k = Some k).
  { rewrite nth_error_seq. replace (k <? List.length ts)%nat with true; [reflexivity|].
    symmetry. apply Nat.ltb_lt. lia. }
  pose proof (Forall2_nth_error _ _ _ Hp _ _ _ Hsj Hj) as Gj.
  pose proof (Forall2_nth_error _ _ _ Hp _ _ _ Hsk Hk) as Gk.
  cbv beta in Gj, Gk.
  rewrite generated_percent_report in Gj, Gk by lia.
  injection Gj as <-. injection Gk as <-.
  destruct (ratio_bounds (Z.of_nat j) num_inference_steps ltac:(lia)) as [J0 J1].
  destruct (ratio_bounds (Z.of_nat k) num_inference_steps ltac:(lia)) as [K0 K1].
  pose proof (ratio_le (Z.of_nat j) (Z.of_nat k) num_inference_steps ltac:(lia) ltac:(lia)).
  split; [|split].
  - rewrite <- report_0. apply report_mono; [apply Qle_refl | assumption].
  - apply report_mono; assumption.
  - rewrite <- report_1. apply report_mono; assumption.
Qed.

End LoopFacts.

(* ----------------------------------------------------------------- *)
(** ** A prompt record with no id *)

Section NoId.

Variables F Time Tokenizer Graph Compiled Sched Gen : Type.
Context {DF : Dtype F}.
Variable env : Env F Time Tokenizer Graph Compiled Sched Gen.
Variable sd : StableDiffusion Tokenizer Compiled Sched.
Variables (num_inference_steps : Z) (guidance_scale : float).
Variables (server token : string) (next_prompt : dict).
Variables (prompt : string) (eta : float).

Abbreviation event := (event F Time Sched Gen).
Abbreviation state := (state F Time Sched Gen).
Abbreviation spec := (spec F Time Sched Gen).
Abbreviation the_before_decode :=
  (before_decode F Time Tokenizer Graph Compiled Sched Gen env sd num_inference_steps
     guidance_scale server token next_prompt prompt eta).

(** A pipeline each of whose turns raises, run with a scheduler that has
    a time step, raises before the decoder is run. *)
Lemma pipeline_aborts g :
  (forall emb kw i t acc (st : state),
     exists e, fst (iteration env sd num_inference_steps guidance_scale server token
                      next_prompt emb kw i t acc st) = Raise e) ->
  (forall s0,
     set_timesteps env (sd_scheduler sd) num_inference_steps
       (extra_set_kwargs env (sd_scheduler sd)) = Ok s0 -> timesteps env s0 <> []) ->
  spec g (pipeline env sd num_inference_steps guidance_scale server token next_prompt
            prompt eta)
         (fun r evs _ => Forall (the_before_decode g) evs /\ exists e, r = Raise e).
Proof.
  intros Hit Hts. unfold pipeline.
  eapply spec_bind;
    [apply (text_conditioning_post F Time Tokenizer Graph Compiled Sched Gen env sd
              num_inference_steps guidance_scale server token next_prompt prompt eta g) | |].
  { intros e evs g1 (_ & H & _). cbv beta. split; [exact H | eexists; reflexivity]. }
  intros emb evs1 g1 (-> & H1 & _ & Hemb). cbv beta.
  eapply spec_bind;
    [apply (prepare_posts F Time Tokenizer Graph Compiled Sched Gen env sd
              num_inference_steps guidance_scale server token next_prompt prompt eta g) | |].
  { intros e evs g1 (H & _). cbv beta.
    split; [apply Forall_app; auto | eexists; reflexivity]. }
  intros [[latents s0] kw] evs2 g2 (H2 & _ & Hs). cbn [fst snd] in Hs. cbv beta.
  pose proof (Hts s0 (proj1 Hs)) as Hne.
  destruct (timesteps env s0) as [|t ts] eqn:Ets; [contradiction|].
  eapply spec_bind with
    (P := fun r evs _ => Forall (the_before_decode g) evs /\ exists e, r = Raise e).
  - intros st Hg.
    destruct (sampling_loop_post F Time Tokenizer Graph Compiled Sched Gen env sd
                num_inference_steps guidance_scale server token next_prompt prompt eta
                g2 g emb s0 kw Hemb Hs (t :: ts) 0%nat (latents, s0))
      with (st := st) as (evs & Ht & _ & Hev & _); [rewrite Ets; reflexivity | exact Hg |].
    exists evs. split; [exact Ht|]. split; [exact Hev|].
    cbn [sampling_loop]. unfold bind.
    destruct (Hit emb kw 0%nat t (latents, s0) st) as [e He].
    destruct (iteration _ _ _ _ _ _ _ _ _ _ _ _ st) as [[a|e'] st']; cbn in *;
      [discriminate | eauto].
  - intros e evs g3 [H3 _]. cbv beta. split; [|eexists; reflexivity].
    rewrite app_assoc. repeat (apply Forall_app; split); auto.
  - intros a evs g3 [_ [e He]]. discriminate.
Qed.

Lemma iteration_without_id emb kw i t acc (st : state) :
  getitem next_prompt "id" = Raise KeyError ->
  exists e, fst (iteration env sd num_inference_steps guidance_scale server token
                   next_prompt emb kw i t acc st) = Raise e.
Proof.
  intros Hid. unfold iteration, bind, lift, perform, progress_url. destruct acc as [latents s].
  destruct (scale_model_input env s i _) as [x|e]; [|eexists; reflexivity].
  destruct (infer_unet env (sd_unet sd) x t emb) as [raw|e]; [|eexists; reflexivity].
  destruct (generated_percent (Z.of_nat i) num_inference_steps) as [percent|e];
    [|eexists; reflexivity].
  rewrite Hid. eexists. reflexivity.
Qed.

(** X3: with a [next_prompt] that has no key ["id"], the pipeline never
    sends a status request and never calls [scheduler.step]; if the
    scheduler has a time step, the pipeline raises and the decoder is never
    run. *)
Theorem pipeline_without_id (st : state) :
  getitem next_prompt "id" = Raise KeyError ->
  exists evs,
    trace (snd (pipeline env sd num_inference_steps guidance_scale server token
                  next_prompt prompt eta st)) = trace st ++ evs /\
    Forall (fun ev => is_put (ev_call ev) = false /\ is_step (ev_call ev) = false) evs /\
    ((forall s0,
        set_timesteps env (sd_scheduler sd) num_inference_steps
          (extra_set_kwargs env (sd_scheduler sd)) = Ok s0 -> timesteps env s0 <> []) ->
     (exists e, fst (pipeline env sd num_inference_steps guidance_scale server token
                       next_prompt prompt eta st) = Raise e) /\
     Forall (fun ev => is_decode (ev_call ev) = false) evs).
Proof.
  intros Hid.
  destruct (pipeline_posts F Time Tokenizer Graph Compiled Sched Gen env sd
              num_inference_steps guidance_scale server token next_prompt prompt eta
              (rng st) st eq_refl) as (evs & Ht & Hev & _).
  exists evs. split; [exact Ht|]. split.
  - eapply Forall_impl; [|exact Hev].
    intros [c ok] H. unfold pipeline_event, progress_url in H. cbn [ev_call] in *.
    rewrite Hid in H. cbn [obind] in H.
    destruct c; cbn [is_put is_step]; auto.
    + destruct H as [H _]. discriminate H.
    + destruct H as (_ & _ & url & H & _). discriminate H.
  - intros Hts.
    destruct (pipeline_aborts (rng st)
                (fun emb kw i t acc st' => iteration_without_id emb kw i t acc st' Hid)
                Hts st eq_refl) as (evs' & Ht' & Hev' & Hr).
    rewrite Ht in Ht'. apply app_inv_head in Ht'. subst evs'.
    split; [exact Hr|].
    eapply Forall_impl; [|exact Hev'].
    intros [c ok] [_ Hd]. cbn [ev_call] in *. destruct c; try reflexivity.
    exfalso. apply (Hd latents). reflexivity.
Qed.

End NoId.

(* ----------------------------------------------------------------- *)
(** ** Shapes in and out of the guidance step and of the conversion *)

Section Shapes.

Context {F : Type} {DF : Dtype F}.

Lemma np_index_well_formed {A} (a : ndarray A) n s k :
  shape a = n :: s -> well_formed a -> (k < n)%nat ->
  exists b, np_index a k = Ok b /\ shape b = s /\ well_formed b.
Proof.
  intros Hs Hw Hk. unfold np_index. rewrite Hs.
  replace (k <? n)%nat with true by (symmetry; apply Nat.ltb_lt; exact Hk).
  eexists. split; [reflexivity|]. split; [reflexivity|].
  unfold well_formed in *. cbn [shape data]. rewrite Hs in Hw.
  cbn [size fold_right] in Hw. fold (size s) in Hw.
  rewrite length_firstn, length_skipn, Hw. nia.
Qed.

Lemma guided_well_formed g (u c : ndarray F) s :
  shape u = s -> shape c = s -> well_formed u -> well_formed c ->
  shape (guided g u c) = s /\ well_formed (guided g u c).
Proof.
  unfold well_formed, guided, np_zip, np_map. cbn [shape data].
  intros Hu Hc Wu Wc. split; [exact Hu|].
  rewrite !length_map, length_combine, !length_map, length_combine. rewrite Hu in *.
  rewrite Hc in Wc. lia.
Qed.

(** X4: under guidance the denoiser's output must hold at least two
    entries.  From an output of [n >= 2] entries of shape [s] the
    prediction handed to the scheduler has shape [s], the shape of the
    latent, and is built from entries 0 and 1 alone; from an output of fewer
    than two entries indexing raises [IndexError]. *)
Theorem guide_batch g (raw : ndarray F) n s :
  guidance_on g = true -> shape raw = n :: s -> well_formed raw ->
  ((2 <= n)%nat ->
     exists uncond cond,
       np_index raw 0 = Ok uncond /\ np_index raw 1 = Ok cond /\
       guide g raw = Ok (guided g uncond cond) /\
       shape (guided g uncond cond) = s /\ well_formed (guided g uncond cond)) /\
  ((n < 2)%nat -> guide g raw = Raise IndexError).
Proof.
  intros Hg Hs Hw. split.
  - intros Hn.
    destruct (np_index_well_formed raw n s 0 Hs Hw ltac:(lia)) as (u & Eu & Su & Wu).
    destruct (np_index_well_formed raw n s 1 Hs Hw ltac:(lia)) as (c & Ec & Sc & Wc).
    exists u, c. unfold guide. rewrite Hg, Eu, Ec. cbn [obind].
    destruct (guided_well_formed g u c s Su Sc Wu Wc). auto.
  - intros Hn. unfold guide, np_index. rewrite Hg, Hs.
    destruct n as [|[|n]]; [reflexivity | reflexivity | lia].
Qed.

(** X5: the conversion of lines 159-161 goes through exactly on a decoder
    output of four dimensions with at least one image; the image it
    returns has the rows and columns of the decoder's planes and as many
    channels as the decoder returned planes. *)
Theorem postprocess_shape (image : ndarray F) :
  (is_ok (postprocess image) = true <-> exists b c h w, shape image = [S b; c; h; w]) /\
  (forall img, postprocess image = Ok img ->
     exists b c h w, shape image = [S b; c; h; w] /\ shape img = [h; w; c]).
Proof.
  assert (H : forall img, postprocess image = Ok img ->
            exists b c h w, shape image = [S b; c; h; w] /\ shape img = [h; w; c]).
  { intros img. unfold postprocess, np_index, np_map. cbn [shape data].
    destruct (shape image) as [|n [|c [|h [|w [|x s]]]]] eqn:Es; try discriminate;
      destruct n as [|b]; try discriminate;
      cbn [Nat.ltb Nat.leb obind np_transpose_120 np_flip_axis2 shape data];
      try discriminate.
    intros E. injection E as <-. exists b, c, h, w. auto. }
  split; [split|exact H].
  - destruct (postprocess image) as [img|e] eqn:E; [|discriminate].
    intros _. destruct (H img eq_refl) as (b & c & h & w & Hs & _). eauto.
  - intros (b & c & h & w & Hs). unfold postprocess, np_index, np_map. cbn [shape data].
    rewrite Hs. reflexivity.
Qed.

End Shapes.

(* ----------------------------------------------------------------- *)
(** ** The entry points: the seed, the arguments, the image *)

(** The files of a model repository that [__init__] asks for. *)
Definition model_names : list string := ["text_encoder"; "unet"; "vae_decoder"]%string.

Definition model_files : list string :=
  ["text_encoder.xml"; "text_encoder.bin"; "unet.xml"; "unet.bin";
   "vae_decoder.xml"; "vae_decoder.bin"]%string.

Section EntryFacts.

Variables F Time Tokenizer Graph Compiled Sched Gen : Type.
Context {DF : Dtype F}.
Variable env : Env F Time Tokenizer Graph Compiled Sched Gen.

Abbreviation event := (event F Time Sched Gen).
Abbreviation state := (state F Time Sched Gen).
Abbreviation spec := (spec F Time Sched Gen).
Abbreviation post := (post F Time Sched Gen).
Abbreviation posts := (posts F Time Sched Gen).

(** X6: [main] seeds the generator only when [--seed] is given, and then
    first of all.  Without a seed no call seeds it and the noise is drawn
    from the generator as the process found it; with a seed that NumPy
    accepts the noise is drawn from the generator as seeded, and with one
    it refuses nothing else is called. *)
Theorem main_seed (args : Args) (st : state) :
  exists evs,
    trace (snd (main env args st)) = trace st ++ evs /\
    match seed args with
    | None =>
        Forall (fun ev =>
          match ev_call ev with
          | CSeed _ => False
          | CRandn g _ => g = rng st
          | _ => True
          end) evs
    | Some n =>
        exists evs',
          evs = mk_event (CSeed n) (is_ok (np_seed env n)) :: evs' /\
          (is_ok (np_seed env n) = false -> evs' = []) /\
          Forall (fun ev =>
            match ev_call ev with
            | CSeed _ => False
            | CRandn g _ => np_seed env n = Ok g
            | _ => True
            end) evs'
    end.
Proof.
  destruct (main_log F Time Tokenizer Graph Compiled Sched Gen env args st)
    as (evs & Ht & H).
  exists evs. split; [exact Ht|].
  assert (HE : forall g r evs0,
             ends_with_write F Time Sched Gen (output args)
               (main_event F Time Tokenizer Graph Compiled Sched Gen env args g) r evs0 ->
             Forall (fun ev =>
               match ev_call ev with
               | CSeed _ => False
               | CRandn g' _ => g' = g
               | _ => True
               end) evs0).
  { intros g r evs0 He. apply ends_events in He.
    eapply Forall_impl; [|exact He]. cbv beta.
    intros [c ok] [[Hs | [sd Hp]] | (image & ok' & E)]; cbn [ev_call] in *.
    - unfold setup_event in Hs. cbn [ev_call] in Hs. destruct c; try exact I; contradiction.
    - unfold pipeline_event in Hp. cbn [ev_call] in Hp.
      destruct c; try exact I; try contradiction. apply Hp.
    - inversion E. exact I. }
  destruct (seed args) as [n|].
  - destruct (np_seed env n) as [g|e] eqn:En.
    + destruct H as (evs' & -> & H). exists evs'. cbn [is_ok].
      split; [reflexivity|]. split; [discriminate|].
      eapply Forall_impl; [|exact (HE _ _ _ H)].
      intros [c ok]. cbn [ev_call]. destruct c; auto. intros ->. reflexivity.
    + destruct H as [-> _]. exists []. cbn [is_ok]. repeat split. constructor.
  - exact (HE _ _ _ H).
Qed.

(** X7: a run of [run_stable_diffusion] that returns has written the
    image to [output] in its last call, once, after every other call
    returned.  A call that fails makes the run raise, and a run that raises
    has written no image. *)
Theorem run_stable_diffusion_writes_last prompt iterations seed output server token
    next_prompt (st : state) :
  exists evs,
    trace (snd (run_stable_diffusion env prompt iterations seed output server token
                  next_prompt st)) = trace st ++ evs /\
    (fst (run_stable_diffusion env prompt iterations seed output server token
            next_prompt st) = Ok tt ->
     exists pre image,
       evs = pre ++ [mk_event (CImwrite output image) true] /\
       Forall (fun ev => ev_ok ev = true /\ is_imwrite (ev_call ev) = false) pre) /\
    (forall ev, In ev evs -> ev_ok ev = false ->
       exists e, fst (run_stable_diffusion env prompt iterations seed output server token
                        next_prompt st) = Raise e) /\
    (forall e, fst (run_stable_diffusion env prompt iterations seed output server token
                      next_prompt st) = Raise e ->
       forall path image, ~ In (mk_event (CImwrite path image) true) evs).
Proof.
  rewrite run_generate, bind_seed.
  destruct (np_seed env seed) as [g|e] eqn:Eseed.
  - match goal with |- context [generate _ _ _ _ _ _ _ _ ?a ?b ?c ?d ?e ?f ?g' ?h ?i ?j ?k ?l ?m ?s] =>
      destruct (generate_log F Time Tokenizer Graph Compiled Sched Gen env
                  a b c d e f g' h i j k l m g s eq_refl) as (evs & Ht & He);
      set (r := generate F Time Tokenizer Graph Compiled Sched Gen env
                  a b c d e f g' h i j k l m s) in *
    end.
    exists (mk_event (CSeed seed) true :: evs). split.
    { rewrite Ht. cbn [trace]. rewrite <- app_assoc. reflexivity. }
    pose proof (ends_failed F Time Sched Gen _ _ _ _
                  (run_event_not_imwrite F Time Tokenizer Graph Compiled Sched Gen env
                     iterations 7.5%float server token next_prompt prompt 0.0%float g) He)
      as [H1 H2].
    split; [|split].
    + intros Hok. destruct He as [[_ [e He]] | (pre & image & -> & Hpre & Hokpre)].
      * rewrite Hok in He. discriminate.
      * exists (mk_event (CSeed seed) true :: pre), image. rewrite Hok. cbn [is_ok].
        split; [reflexivity|]. constructor; [split; reflexivity|].
        rewrite Forall_forall in *. intros ev Hin. split; [auto|].
        pose proof (run_event_not_imwrite F Time Tokenizer Graph Compiled Sched Gen env
                      iterations 7.5%float server token next_prompt prompt 0.0%float g
                      ev) as Hn.
        specialize (Hpre ev Hin).
        destruct ev as [c ok]. cbn [ev_call] in *. destruct c; try reflexivity.
        exfalso. exact (Hn _ _ Hpre eq_refl).
    + intros ev [<- | Hin] Hev; [discriminate | eauto].
    + intros e He' path image [E | Hin]; [discriminate | eapply H2; eauto].
  - exists [mk_event (CSeed seed) false]. cbn [fst snd log trace].
    split; [reflexivity|]. split; [discriminate|]. split; [eauto|].
    intros e' _ path image [E | []]. discriminate.
Qed.

(** The calls of [__init__], with their arguments. *)
Definition init_event (model tokenizer device : string) (ev : event) : Prop :=
  match ev_call ev with
  | CFromPretrained name => name = tokenizer
  | CDownload repo_id filename => repo_id = model /\ In filename model_files
  | CReadModel xml bin =>
      exists name, In name model_names /\
        hf_hub_download env model (name ++ ".xml") = Ok xml /\
        hf_hub_download env model (name ++ ".bin") = Ok bin
  | CCompileModel dev => dev = device
  | _ => False
  end.

(** A model as [__init__] loads it: read from the two files downloaded
    for it, and compiled for the device. *)
Definition loaded (model name device : string) (gc : Graph * Compiled) : Prop :=
  exists xml bin,
    hf_hub_download env model (name ++ ".xml") = Ok xml /\
    hf_hub_download env model (name ++ ".bin") = Ok bin /\
    read_model env xml bin = Ok (fst gc) /\
    compile_model env (fst gc) device = Ok (snd gc).

Lemma load_model_calls g (P : event -> Prop) model tokenizer name device :
  In name model_names ->
  (forall ev, init_event model tokenizer device ev -> P ev) ->
  spec g (load_model env model name device) (post g P (loaded model name device)).
Proof.
  intros Hn HP. unfold load_model.
  assert (Hx : In (name ++ ".xml")%string model_files).
  { destruct Hn as [<- | [<- | [<- | []]]]; cbn; auto 10. }
  assert (Hb : In (name ++ ".bin")%string model_files).
  { destruct Hn as [<- | [<- | [<- | []]]]; cbn; auto 10. }
  eapply post_bind; [apply post_perform; apply HP; split; [reflexivity | exact Hx] |].
  intros xml Hxml. cbv beta.
  eapply post_bind; [apply post_perform; apply HP; split; [reflexivity | exact Hb] |].
  intros bin Hbin. cbv beta.
  eapply post_bind; [apply post_perform; apply HP; exists name; auto |].
  intros gr Hgr. cbv beta.
  eapply post_bind; [apply post_perform; apply HP; reflexivity |].
  intros c Hc. cbv beta. apply post_ret. exists xml, bin. auto.
Qed.

(** The pipeline object that [__init__] builds: its denoiser is the model
    ["unet"] of the repository, and the shape of its latent is the declared
    shape of that model's first input without the batch axis. *)
Definition initialised (model device : string)
    (sd : StableDiffusion Tokenizer Compiled Sched) : Prop :=
  exists un, loaded model "unet" device un /\
    sd_unet sd = snd un /\ sd_latent_shape sd = tl (input_shape env (fst un)).

Lemma init_calls g (P : event -> Prop) scheduler model tokenizer device :
  (forall ev, init_event model tokenizer device ev -> P ev) ->
  spec g (init env scheduler model tokenizer device) (post g P (initialised model device)).
Proof.
  intros HP. unfold init.
  eapply post_bind with (R1 := fun _ => True).
  { apply post_perform_R; [|auto]. apply HP. reflexivity. }
  intros tk _. cbv beta.
  eapply post_bind;
    [apply (load_model_calls g P model tokenizer "text_encoder" device);
       [cbn; auto | exact HP] |].
  intros te _. cbv beta.
  eapply post_bind;
    [apply (load_model_calls g P model tokenizer "unet" device); [cbn; auto | exact HP] |].
  intros un Hun. cbv beta.
  eapply post_bind;
    [apply (load_model_calls g P model tokenizer "vae_decoder" device);
       [cbn; auto | exact HP] |].
  intros va _. apply post_ret. exists un. auto.
Qed.

(** What [main] does with each flag of the command line. *)
Definition main_call (args : Args) (ev : event) : Prop :=
  match ev_call ev with
  | CSeed n => seed args = Some n
  | CNewScheduler bs be schedule =>
      bs = beta_start args /\ be = beta_end args /\ schedule = beta_schedule args
  | CFromPretrained name => name = tokenizer args
  | CDownload repo_id filename => repo_id = model args /\ In filename model_files
  | CReadModel xml bin =>
      exists name, In name model_names /\
        hf_hub_download env (model args) (name ++ ".xml") = Ok xml /\
        hf_hub_download env (model args) (name ++ ".bin") = Ok bin
  | CCompileModel device => device = "CPU"%string
  | CTokenize text _ => text = prompt args \/ text = ""%string
  | CRandn _ dims =>
      exists xml bin unet,
        hf_hub_download env (model args) "unet.xml" = Ok xml /\
        hf_hub_download env (model args) "unet.bin" = Ok bin /\
        read_model env xml bin = Ok unet /\
        dims = tl (input_shape env unet)
  | CSetTimesteps _ n _ => n = num_inference_steps args
  | CStep _ _ _ _ kw => kw = Some (eta args) \/ kw = None
  | CImwrite path _ => path = output args
  | _ => True
  end.

Lemma main_calls (args : Args) g :
  spec g (main env args) (posts (main_call args) (fun _ => True)).
Proof.
  unfold main.
  eapply posts_bind with (R1 := fun _ => True).
  { destruct (seed args) as [n|] eqn:E.
    - apply posts_seed. intros ok. exact E.
    - apply post_posts, post_ret. exact I. }
  intros _ g1 _.
  eapply posts_bind_post with (R1 := fun _ => True).
  { apply post_perform_R; [cbn; auto | auto]. }
  intros scheduler _. cbv beta.
  eapply posts_bind_post.
  { apply (init_calls g1 (main_call args) scheduler (model args) (tokenizer args) "CPU").
    intros [c ok]. unfold init_event, main_call. cbn [ev_call].
    destruct c; try contradiction; auto. }
  intros sd (un & (xml & bin & Hxml & Hbin & Hread & _) & _ & Hshape). cbv beta.
  eapply posts_bind with (R1 := fun _ => True).
  { eapply posts_weaken; [apply pipeline_posts | | auto].
    intros [c ok]. unfold pipeline_event, main_call. cbn [ev_call].
    destruct c; try contradiction; auto.
    - intros [H _]. exact H.
    - intros [_ ->]. exists xml, bin, (fst un). auto.
    - intros (_ & H & _). exact H.
    - intros ((s0 & i & t & (_ & ->) & _) & _).
      unfold extra_step_kwargs. destruct (accepts _ _); auto. }
  intros image g2 _. apply post_posts.
  eapply post_bind with (R1 := fun _ => True).
  { apply post_perform_R; [reflexivity | auto]. }
  intros _ _. apply post_ret. exact I.
Qed.


End EntryFacts.

(* ----------------------------------------------------------------- *)
(** ** A whole call of the pipeline *)

Section WholeCall.

Variables F Time Tokenizer Graph Compiled Sched Gen : Type.
Context {DF : Dtype F}.
Variable env : Env F Time Tokenizer Graph Compiled Sched Gen.
Variable sd : StableDiffusion Tokenizer Compiled Sched.
Variables (num_inference_steps : Z) (guidance_scale : float).
Variables (server token : string) (next_prompt : dict).
Variables (prompt : string) (eta : float).

Abbreviation event := (event F Time Sched Gen).
Abbreviation state := (state F Time Sched Gen).
Abbreviation spec := (spec F Time Sched Gen).
Abbreviation post := (post F Time Sched Gen).
Abbreviation posts := (posts F Time Sched Gen).

(** The calls before the loop: the tokenizer, the encoder, the noise and
    the time steps. *)
Definition before_loop (ev : event) : Prop :=
  match ev_call ev with
  | CTokenize _ _ | CEncode _ | CRandn _ _ | CSetTimesteps _ _ _ => True
  | _ => False
  end.

(** The latent the loop starts from: the noise, multiplied by the
    scheduler's first sigma for an [LMSDiscreteScheduler]. *)
Definition initial_latents (g : Gen) (s0 : Sched) (latents0 : ndarray F) : Prop :=
  if is_LMS env s0
  then exists sigma0,
         list_index (sigmas env s0) 0 = Ok sigma0 /\
         latents0 = np_map (fun x => fmul x sigma0) (fst (randn env g (sd_latent_shape sd)))
  else latents0 = fst (randn env g (sd_latent_shape sd)).

Lemma embed_before_loop g text :
  spec g (embed env sd text)
    (post g before_loop (embedded F Time Tokenizer Graph Compiled Sched Gen env sd text)).
Proof.
  unfold embed.
  eapply post_bind; [apply post_perform; exact I |].
  intros tokens Htok. cbv beta. apply post_perform_R; [exact I |].
  intros e He. exists tokens. auto.
Qed.

Lemma text_conditioning_before_loop g :
  spec g (text_conditioning env sd prompt guidance_scale)
    (post g before_loop
       (conditioned F Time Tokenizer Graph Compiled Sched Gen env sd guidance_scale prompt)).
Proof.
  unfold text_conditioning, conditioned.
  eapply post_bind; [apply embed_before_loop |].
  intros cond Hc. cbv beta. destruct (guidance_on guidance_scale).
  - eapply post_bind; [apply embed_before_loop |].
    intros uncond Hu. apply post_lift_R. intros emb He. exists uncond, cond. auto.
  - apply post_ret. assumption.
Qed.

Lemma prepare_returns (st : state) :
  is_ok (fst (prepare env sd num_inference_steps eta st)) = true ->
  exists s0 latents0,
    set_timesteps env (sd_scheduler sd) num_inference_steps
      (extra_set_kwargs env (sd_scheduler sd)) = Ok s0 /\
    initial_latents (rng st) s0 latents0 /\
    prepare env sd num_inference_steps eta st =
      (Ok (latents0, s0, extra_step_kwargs env s0 eta),
       mk_state
         (trace st ++
          [mk_event (CRandn (rng st) (sd_latent_shape sd)) true;
           mk_event (CSetTimesteps (sd_scheduler sd) num_inference_steps
                       (extra_set_kwargs env (sd_scheduler sd))) true])
         (snd (randn env (rng st) (sd_latent_shape sd)))).
Proof.
  unfold prepare, bind, np_random_randn, perform, lift, ret, initial_latents.
  destruct (randn env (rng st) (sd_latent_shape sd)) as [noise g1]. cbn [fst snd].
  destruct (set_timesteps env (sd_scheduler sd) num_inference_steps _) as [s0|e];
    [|discriminate].
  cbn [is_ok log trace rng].
  destruct (is_LMS env s0) eqn:EL.
  - destruct (list_index (sigmas env s0) 0) as [sigma0|e] eqn:E0; [|discriminate].
    intros _. exists s0. eexists. rewrite EL. split; [reflexivity|].
    split; [exists sigma0; split; [exact E0 | reflexivity]|].
    unfold log. cbn [trace rng]. rewrite <- app_assoc. reflexivity.
  - intros _. exists s0, noise. rewrite EL. split; [reflexivity|]. split; [reflexivity|].
    unfold log. cbn [trace rng]. rewrite <- app_assoc. reflexivity.
Qed.

Lemma before_loop_counts evs :
  Forall before_loop evs ->
  filter (fun ev : event => is_unet (ev_call ev)) evs = [] /\
  filter (fun ev : event => is_put (ev_call ev)) evs = [] /\
  filter (fun ev : event => is_step (ev_call ev)) evs = [] /\
  Forall (fun ev : event => is_decode (ev_call ev) = false) evs.
Proof.
  induction 1 as [|[c ok] evs Hc _ IH]; [repeat split; constructor|].
  destruct IH as (Hu & Hp & Hs & Hd). unfold before_loop in Hc. cbn [ev_call] in Hc.
  destruct c; try contradiction; cbn [filter ev_call is_unet is_put is_step];
    (repeat split; [assumption .. | constructor; [reflexivity | assumption]]).
Qed.

(** X9: a call of the pipeline that returns.  The loop starts from the
    noise drawn from the generator as the call found it (times the first
    sigma for an LMS scheduler), with the conditioning computed from the
    prompt; it runs the denoiser once for each time step of the scheduler
    as [set_timesteps] left it, sends as many status requests and steps the
    scheduler as many times; every call returned.  The last call is the one
    run of the decoder, on the latent that the last step returned (the
    starting latent when there is no time step), and the value of the call
    is that output converted to an image. *)
Theorem pipeline_returns (st : state) :
  is_ok (fst (pipeline env sd num_inference_steps guidance_scale server token
                next_prompt prompt eta st)) = true ->
  exists emb s0 latents0 evs0 evs final image img,
    conditioned F Time Tokenizer Graph Compiled Sched Gen env sd guidance_scale prompt emb /\
    set_timesteps env (sd_scheduler sd) num_inference_steps
      (extra_set_kwargs env (sd_scheduler sd)) = Ok s0 /\
    initial_latents (rng st) s0 latents0 /\
    turns F Time Tokenizer Graph Compiled Sched Gen env sd num_inference_steps
      guidance_scale server token next_prompt emb (extra_step_kwargs env s0 eta)
      0 (timesteps env s0) (latents0, s0) evs final /\
    infer_latents env (sd_vae sd) (np_expand_dims0 (fst final)) = Ok image /\
    postprocess image = Ok img /\
    fst (pipeline env sd num_inference_steps guidance_scale server token
           next_prompt prompt eta st) = Ok img /\
    trace (snd (pipeline env sd num_inference_steps guidance_scale server token
                  next_prompt prompt eta st))
      = trace st ++ (evs0 ++ evs) ++ [mk_event (CDecode (np_expand_dims0 (fst final))) true] /\
    Forall before_loop evs0 /\
    Forall (fun ev => ev_ok ev = true /\ is_decode (ev_call ev) = false) (evs0 ++ evs) /\
    List.length (filter (fun ev => is_unet (ev_call ev)) (evs0 ++ evs))
      = List.length (timesteps env s0) /\
    List.length (filter (fun ev => is_put (ev_call ev)) (evs0 ++ evs))
      = List.length (timesteps env s0) /\
    List.length (filter (fun ev => is_step (ev_call ev)) (evs0 ++ evs))
      = List.length (timesteps env s0).
Proof.
  unfold pipeline, bind. intros Hok.
  destruct (text_conditioning_before_loop (rng st) st eq_refl)
    as (evs1 & Ht1 & Hg1 & Hq1 & Hr1).
  destruct (text_conditioning env sd prompt guidance_scale st) as [[emb|e] st1];
    [|discriminate].
  cbn [fst snd] in *. destruct Hr1 as [Hok1 Hemb].
  pose proof (prepare_returns st1) as Hprep.
  destruct (prepare env sd num_inference_steps eta st1) as [[[[latents0' s0'] kw]|e] st2];
    [|discriminate].
  destruct (Hprep eq_refl) as (s0 & latents0 & Hs0 & Hinit & Hrun).
  injection Hrun as -> -> -> ->. rewrite Hg1 in Hinit. clear Hprep.
  set (evs2 := [mk_event (CRandn (rng st1) (sd_latent_shape sd)) true;
                mk_event (CSetTimesteps (sd_scheduler sd) num_inference_steps
                            (extra_set_kwargs env (sd_scheduler sd))) true]) in *.
  match type of Hok with context [sampling_loop _ _ _ _ _ _ _ _ _ _ _ _ ?s] =>
    set (st2 := s) in *
  end.
  pose proof (sampling_loop_log F Time Tokenizer Graph Compiled Sched Gen env sd
                num_inference_steps guidance_scale server token next_prompt emb
                (extra_step_kwargs env s0 eta)
                (timesteps env s0) 0%nat (latents0, s0) st2) as Hl.
  destruct (sampling_loop env sd num_inference_steps guidance_scale server token next_prompt
              emb (extra_step_kwargs env s0 eta) 0 (timesteps env s0) (latents0, s0) st2)
    as [[[latents s]|e] st3]; [|discriminate].
  destruct (Hl eq_refl) as (evs3 & final & Hrun & Hturns).
  injection Hrun as Hf Hst. subst final st3.
  unfold decode_image, bind, perform, lift in *.
  destruct (infer_latents env (sd_vae sd) (np_expand_dims0 latents)) as [image|e] eqn:Ei;
    [|discriminate].
  cbn [fst snd is_ok log trace extend] in *.
  destruct (postprocess image) as [img|e] eqn:Ep; [|discriminate].
  exists emb, s0, latents0, (evs1 ++ evs2), evs3, (latents, s), image, img. cbn [fst].
  destruct (turns_counts F Time Tokenizer Graph Compiled Sched Gen env sd
              num_inference_steps guidance_scale server token next_prompt emb _
              _ _ _ _ _ Hturns) as (Hok3 & Hu3 & Hs3 & _).
  destruct (turns_puts F Time Tokenizer Graph Compiled Sched Gen env sd
              num_inference_steps guidance_scale server token next_prompt emb _
              _ _ _ _ _ Hturns) as (Hp3 & Hd3).
  assert (Hq2 : Forall before_loop evs2) by (repeat constructor).
  assert (Hok2 : Forall (fun ev : event => ev_ok ev = true) evs2) by (repeat constructor).
  assert (Hq : Forall before_loop (evs1 ++ evs2)) by (apply Forall_app; auto).
  destruct (before_loop_counts _ Hq) as (Hu & Hp & Hs & Hd).
  split; [exact Hemb|]. split; [exact Hs0|]. split; [exact Hinit|].
  split; [exact Hturns|]. split; [exact Ei|]. split; [exact Ep|].
  split; [reflexivity|].
  split; [subst st2; cbn [trace]; rewrite Ht1, <- !app_assoc; reflexivity|].
  split; [exact Hq|].
  split.
  { pose proof (proj1 (Forall_forall _ _) Hd) as Hd'.
    pose proof (proj1 (Forall_forall _ _) Hok1) as Hok1'.
    pose proof (proj1 (Forall_forall _ _) Hok2) as Hok2'.
    pose proof (proj1 (Forall_forall _ _) Hok3) as Hok3'.
    pose proof (proj1 (Forall_forall _ _) Hd3) as Hd3'.
    apply Forall_app. split; apply Forall_forall; intros ev Hin; split; auto.
    apply in_app_or in Hin. destruct Hin; auto. }
  repeat split; rewrite filter_app, length_app;
    [rewrite Hu | rewrite Hp | rewrite Hs]; cbn [List.length Nat.add]; assumption.
Qed.

End WholeCall.

(* ----------------------------------------------------------------- *)
(** ** The same seed, the same image *)

Section Reproducible.

Variables F Time Tokenizer Graph Compiled Sched Gen : Type.
Context {DF : Dtype F}.
Variable env : Env F Time Tokenizer Graph Compiled Sched Gen.

Abbreviation event := (event F Time Sched Gen).
Abbreviation state := (state F Time Sched Gen).
Abbreviation M := (M F Time Sched Gen).

(** Two computations agree when, started with the generator in one
    state (whatever the logs), those of their runs that return leave the
    generator in one state, with values related by [R]. *)
Definition agree {A B} (R : A -> B -> Prop) (m1 : M A) (m2 : M B) : Prop :=
  forall st1 st2 : state, rng st1 = rng st2 ->
    match fst (m1 st1), fst (m2 st2) with
    | Ok a, Ok b => R a b /\ rng (snd (m1 st1)) = rng (snd (m2 st2))
    | _, _ => True
    end.

Lemma agree_ret {A} (a : A) : agree eq (ret a) (ret a).
Proof. intros st1 st2 Hg. cbn. auto. Qed.

Lemma agree_lift {A B} (R : A -> B -> Prop) (r1 : outcome A) (r2 : outcome B) :
  (forall a b, r1 = Ok a -> r2 = Ok b -> R a b) -> agree R (lift r1) (lift r2).
Proof. intros H st1 st2 Hg. cbn. destruct r1, r2; auto. Qed.

Lemma agree_perform {A} c1 c2 (r : outcome A) : agree eq (perform c1 r) (perform c2 r).
Proof. intros st1 st2 Hg. cbn. destruct r; auto. Qed.

Lemma agree_put url1 p1 url2 p2 :
  agree (fun _ _ => True) (requests_put env url1 p1) (requests_put env url2 p2).
Proof.
  intros st1 st2 Hg. unfold requests_put. cbn [fst snd log rng].
  destruct (if has_colon url1 then net_put env (trace st1) url1 p1 else Raise MissingSchema);
    [|exact I].
  destruct (if has_colon url2 then net_put env (trace st2) url2 p2 else Raise MissingSchema);
    [|exact I].
  auto.
Qed.

Lemma agree_randn dims : agree eq (np_random_randn env dims) (np_random_randn env dims).
Proof.
  intros st1 st2 Hg. unfold np_random_randn. rewrite Hg.
  destruct (randn env (rng st2) dims). cbn. auto.
Qed.

Lemma agree_bind {A1 A2 B1 B2} (R : A1 -> A2 -> Prop) (R' : B1 -> B2 -> Prop)
    (m1 : M A1) (m2 : M A2) (f1 : A1 -> M B1) (f2 : A2 -> M B2) :
  agree R m1 m2 -> (forall a b, R a b -> agree R' (f1 a) (f2 b)) ->
  agree R' (bind m1 f1) (bind m2 f2).
Proof.
  intros Hm Hf st1 st2 Hg. unfold bind. specialize (Hm st1 st2 Hg).
  destruct (m1 st1) as [[a|e1] s1], (m2 st2) as [[b|e2] s2]; cbn [fst snd] in *.
  - destruct Hm as [Hr Hg']. exact (Hf a b Hr s1 s2 Hg').
  - destruct (fst (f1 a s1)); exact I.
  - exact I.
  - exact I.
Qed.

Ltac agree_eq tac := eapply agree_bind with (R := eq); [tac | intros ? ? <-; cbv beta].

Section OnePipeline.

Variable sd : StableDiffusion Tokenizer Compiled Sched.
Variables (num_inference_steps : Z) (guidance_scale : float).
Variables (server1 token1 server2 token2 : string) (next_prompt1 next_prompt2 : dict).
Variables (prompt : string) (eta : float).

Lemma agree_embed text : agree eq (embed env sd text) (embed env sd text).
Proof. unfold embed. agree_eq ltac:(apply agree_perform). apply agree_perform. Qed.

Lemma agree_text_conditioning :
  agree eq (text_conditioning env sd prompt guidance_scale)
           (text_conditioning env sd prompt guidance_scale).
Proof.
  unfold text_conditioning. agree_eq ltac:(apply agree_embed).
  destruct (guidance_on guidance_scale).
  - agree_eq ltac:(apply agree_embed). apply agree_lift. congruence.
  - apply agree_ret.
Qed.

Lemma agree_prepare :
  agree eq (prepare env sd num_inference_steps eta) (prepare env sd num_inference_steps eta).
Proof.
  unfold prepare. agree_eq ltac:(apply agree_randn). agree_eq ltac:(apply agree_perform).
  agree_eq idtac; [|apply agree_ret].
  destruct (is_LMS env a0); [|apply agree_ret].
  agree_eq ltac:(apply agree_lift; congruence). apply agree_ret.
Qed.

(** The address of the status endpoint, the token and the prompt's id
    reach the status request and nothing else. *)
Lemma agree_iteration emb kw i t acc :
  agree eq
    (iteration env sd num_inference_steps guidance_scale server1 token1 next_prompt1
       emb kw i t acc)
    (iteration env sd num_inference_steps guidance_scale server2 token2 next_prompt2
       emb kw i t acc).
Proof.
  unfold iteration. destruct acc as [latents s].
  agree_eq ltac:(apply agree_lift; congruence).
  agree_eq ltac:(apply agree_perform).
  agree_eq ltac:(apply agree_perform).
  agree_eq ltac:(apply agree_lift; congruence).
  agree_eq ltac:(apply agree_perform).
  eapply agree_bind with (R := fun _ _ => True); [apply agree_lift; auto|].
  intros url1 url2 _. cbv beta.
  eapply agree_bind; [apply agree_put|]. intros _ _ _. cbv beta.
  agree_eq ltac:(apply agree_lift; congruence).
  apply agree_perform.
Qed.

Lemma agree_sampling_loop emb kw ts : forall i acc,
  agree eq
    (sampling_loop env sd num_inference_steps guidance_scale server1 token1 next_prompt1
       emb kw i ts acc)
    (sampling_loop env sd num_inference_steps guidance_scale server2 token2 next_prompt2
       emb kw i ts acc).
Proof.
  induction ts as [|t ts IH]; intros i acc; cbn [sampling_loop].
  - apply agree_ret.
  - agree_eq ltac:(apply agree_iteration). apply IH.
Qed.

Lemma agree_decode_image latents :
  agree eq (decode_image env sd latents) (decode_image env sd latents).
Proof.
  unfold decode_image. agree_eq ltac:(apply agree_perform). apply agree_lift. congruence.
Qed.

Lemma agree_pipeline :
  agree eq
    (pipeline env sd num_inference_steps guidance_scale server1 token1 next_prompt1
       prompt eta)
    (pipeline env sd num_inference_steps guidance_scale server2 token2 next_prompt2
       prompt eta).
Proof.
  unfold pipeline. agree_eq ltac:(apply agree_text_conditioning).
  agree_eq ltac:(apply agree_prepare). destruct a0 as [[latents s] kw].
  agree_eq ltac:(apply agree_sampling_loop). destruct a0 as [latents' s'].
  apply agree_decode_image.
Qed.

End OnePipeline.

Lemma agree_load_model model name device :
  agree eq (load_model env model name device) (load_model env model name device).
Proof.
  unfold load_model. do 4 agree_eq ltac:(apply agree_perform). apply agree_ret.
Qed.

Lemma agree_init scheduler model tokenizer device :
  agree eq (init env scheduler model tokenizer device)
           (init env scheduler model tokenizer device).
Proof.
  unfold init. agree_eq ltac:(apply agree_perform).
  do 3 agree_eq ltac:(apply agree_load_model). apply agree_ret.
Qed.

(** The image of a run: [generate] up to the call of [cv2.imwrite]. *)
Definition render (bs be : float) (schedule model tokenizer : string)
    (num_inference_steps : Z) (guidance_scale : float) (server token : string)
    (next_prompt : dict) (prompt : string) (eta : float) : M (ndarray Z) :=
  bind (perform (CNewScheduler bs be schedule) (LMSDiscreteScheduler env bs be schedule))
    (fun scheduler =>
  bind (init env scheduler model tokenizer "CPU") (fun stable_diffusion =>
  pipeline env stable_diffusion num_inference_steps guidance_scale server token
    next_prompt prompt eta)).

Lemma generate_render bs be schedule model tokenizer n gs server token next_prompt
    prompt eta output (st : state) :
  generate F Time Tokenizer Graph Compiled Sched Gen env bs be schedule model tokenizer
    n gs server token next_prompt prompt eta output st =
  match render bs be schedule model tokenizer n gs server token next_prompt prompt eta st
  with
  | (Ok image, st') =>
      (match imwrite env output image with Ok _ => Ok tt | Raise e => Raise e end,
       log (CImwrite output image) (is_ok (imwrite env output image)) st')
  | (Raise e, st') => (Raise e, st')
  end.
Proof.
  unfold generate, render, bind.
  destruct (perform _ _ st) as [[scheduler|e] st1]; [|reflexivity].
  destruct (init env scheduler model tokenizer "CPU" st1) as [[sd|e] st2]; [|reflexivity].
  destruct (pipeline env sd n gs server token next_prompt prompt eta st2)
    as [[image|e] st3]; [|reflexivity].
  unfold perform, ret. destruct (imwrite env output image); reflexivity.
Qed.

Lemma agree_render bs be schedule model tokenizer n gs server1 token1 next_prompt1
    server2 token2 next_prompt2 prompt eta :
  agree eq
    (render bs be schedule model tokenizer n gs server1 token1 next_prompt1 prompt eta)
    (render bs be schedule model tokenizer n gs server2 token2 next_prompt2 prompt eta).
Proof.
  unfold render. agree_eq ltac:(apply agree_perform). agree_eq ltac:(apply agree_init).
  apply agree_pipeline.
Qed.

(** One run of [run_stable_diffusion] that returns: its log ends with the
    image that [render] computed from the generator as seeded. *)
Lemma run_stable_diffusion_image prompt iterations seed output server token next_prompt
    (st : state) :
  fst (run_stable_diffusion env prompt iterations seed output server token next_prompt st)
    = Ok tt ->
  exists g image st' pre,
    np_seed env seed = Ok g /\
    render 0.00085%float 0.012%float "scaled_linear"
      "bes-dev/stable-diffusion-v1-4-openvino" "openai/clip-vit-large-patch14"
      iterations 7.5%float server token next_prompt prompt 0.0%float
      (mk_state (trace st ++ [mk_event (CSeed seed) true]) g) = (Ok image, st') /\
    trace (snd (run_stable_diffusion env prompt iterations seed output server token
                  next_prompt st))
      = trace st ++ pre ++ [mk_event (CImwrite output image) true].
Proof.
  rewrite run_generate, bind_seed.
  destruct (np_seed env seed) as [g|e]; [|discriminate].
  match goal with |- context [generate _ _ _ _ _ _ _ _ ?a ?b ?c ?d ?e ?f ?g' ?h ?i ?j ?k ?l ?m ?s] =>
    destruct (generate_log F Time Tokenizer Graph Compiled Sched Gen env
                a b c d e f g' h i j k l m g s eq_refl) as (evs & Ht & He)
  end.
  revert Ht He. rewrite generate_render.
  destruct (render _ _ _ _ _ _ _ _ _ _ _ _ _) as [[image|e] st'] eqn:Er; [|discriminate].
  cbn [fst snd log trace].
  destruct (imwrite env output image) as [b|e]; [|discriminate].
  cbn [is_ok]. intros Ht He _.
  destruct He as [[_ [e He]] | (pre & image' & -> & _ & _)]; [discriminate|].
  rewrite app_assoc in Ht. apply app_inj_tail in Ht. destruct Ht as [Ht Hi].
  injection Hi as <-.
  exists g, image, st', (mk_event (CSeed seed) true :: pre).
  split; [reflexivity|]. split; [exact Er|].
  rewrite Ht, <- !app_assoc. reflexivity.
Qed.

(** X10: the image that [run_stable_diffusion] writes depends on the
    prompt, the number of steps and the seed alone.  Two runs that return
    write the same image, whatever the state of the generator and the log
    before each, whatever the status endpoint answered, and whatever the
    server, the token, the prompt record and the output path of each (the
    libraries being functions of their arguments). *)
Theorem run_stable_diffusion_reproducible prompt iterations seed
    output1 server1 token1 next_prompt1 output2 server2 token2 next_prompt2
    (st1 st2 : state) :
  fst (run_stable_diffusion env prompt iterations seed output1 server1 token1
         next_prompt1 st1) = Ok tt ->
  fst (run_stable_diffusion env prompt iterations seed output2 server2 token2
         next_prompt2 st2) = Ok tt ->
  exists image pre1 pre2,
    trace (snd (run_stable_diffusion env prompt iterations seed output1 server1 token1
                  next_prompt1 st1))
      = trace st1 ++ pre1 ++ [mk_event (CImwrite output1 image) true] /\
    trace (snd (run_stable_diffusion env prompt iterations seed output2 server2 token2
                  next_prompt2 st2))
      = trace st2 ++ pre2 ++ [mk_event (CImwrite output2 image) true].
Proof.
  intros H1 H2.
  destruct (run_stable_diffusion_image _ _ _ _ _ _ _ _ H1)
    as (g1 & image1 & s1 & pre1 & Hg1 & Hr1 & Ht1).
  destruct (run_stable_diffusion_image _ _ _ _ _ _ _ _ H2)
    as (g2 & image2 & s2 & pre2 & Hg2 & Hr2 & Ht2).
  assert (g2 = g1) by congruence. subst g2.
  pose proof (agree_render 0.00085%float 0.012%float "scaled_linear"
                "bes-dev/stable-diffusion-v1-4-openvino" "openai/clip-vit-large-patch14"
                iterations 7.5%float server1 token1 next_prompt1 server2 token2
                next_prompt2 prompt 0.0%float
                (mk_state (trace st1 ++ [mk_event (CSeed seed) true]) g1)
                (mk_state (trace st2 ++ [mk_event (CSeed seed) true]) g1) eq_refl) as Ha.
  rewrite Hr1, Hr2 in Ha. cbn [fst] in Ha. destruct Ha as [<- _].
  exists image1, pre1, pre2. auto.
Qed.

End Reproducible.

(* ----------------------------------------------------------------- *)
(** ** The input of the denoiser under guidance *)

Section ModelInput.

Variables F Time Tokenizer Graph Compiled Sched Gen : Type.
Context {DF : Dtype F}.
Variable env : Env F Time Tokenizer Graph Compiled Sched Gen.

(** Both entries of [np.stack([a, a], 0)] are [a]. *)
Lemma np_index_stack_pair {A} (a : ndarray A) :
  well_formed a ->
  shape (np_stack_pair a) = 2%nat :: shape a /\ well_formed (np_stack_pair a) /\
  np_index (np_stack_pair a) 0 = Ok a /\ np_index (np_stack_pair a) 1 = Ok a.
Proof.
  destruct a as [s d]. unfold well_formed, np_stack_pair, np_index. cbn [shape data].
  intros Hw. split; [reflexivity|].
  split; [rewrite length_app; cbn [size fold_right]; fold (size s); lia|].
  cbn [Nat.ltb Nat.leb Nat.mul skipn]. split.
  - rewrite <- Hw, firstn_app, Nat.sub_diag, firstn_all, firstn_O, app_nil_r. reflexivity.
  - rewrite Nat.add_0_r, <- Hw, skipn_app, skipn_all, Nat.sub_diag. cbn [skipn app].
    rewrite firstn_all. reflexivity.
Qed.

Lemma lms_scale_stack_pair sigma (a : ndarray F) :
  lms_scale sigma (np_stack_pair a) = np_stack_pair (lms_scale sigma a).
Proof. unfold lms_scale, np_map, np_stack_pair. cbn [shape data]. rewrite map_app. reflexivity. Qed.

Lemma lms_scale_well_formed sigma (a : ndarray F) :
  well_formed a -> well_formed (lms_scale sigma a).
Proof. unfold well_formed, lms_scale, np_map. cbn [shape data]. rewrite length_map. auto. Qed.

(** X11: under guidance the denoiser is given a batch of two entries, and
    both are the latent as the scheduler has it scaled: the two entries of
    its input differ in nothing, so the two predictions differ by the
    conditioning alone.  Scaling the stacked latent fails exactly when
    scaling the latent does (no sigma for this turn). *)
Theorem model_input_halves s i (latents : ndarray F) :
  well_formed latents ->
  match scale_model_input env s i (np_stack_pair latents) with
  | Ok x =>
      exists y,
        scale_model_input env s i latents = Ok y /\
        shape x = 2%nat :: shape latents /\ well_formed x /\
        np_index x 0 = Ok y /\ np_index x 1 = Ok y
  | Raise e => scale_model_input env s i latents = Raise e
  end.
Proof.
  intros Hw. unfold scale_model_input. destruct (is_LMS env s).
  - destruct (list_index (sigmas env s) i) as [sigma|e]; cbn [obind]; [|reflexivity].
    exists (lms_scale sigma latents). split; [reflexivity|].
    rewrite lms_scale_stack_pair.
    destruct (np_index_stack_pair (lms_scale sigma latents)
                (lms_scale_well_formed sigma latents Hw)) as (Hs & Hwf & H0 & H1).
    repeat split; auto.
  - exists latents. split; [reflexivity|].
    destruct (np_index_stack_pair latents Hw) as (Hs & Hwf & H0 & H1).
    repeat split; auto.
Qed.

End ModelInput.

(* ----------------------------------------------------------------- *)
(** ** Nothing is called after a failure *)

Section Failures.

Variables F Time Tokenizer Graph Compiled Sched Gen : Type.
Context {DF : Dtype F}.
Variable env : Env F Time Tokenizer Graph Compiled Sched Gen.

Abbreviation event := (event F Time Sched Gen).
Abbreviation state := (state F Time Sched Gen).
Abbreviation M := (M F Time Sched Gen).
Abbreviation spec := (spec F Time Sched Gen).

(** The calls of a run that stopped: calls that returned, then at most
    one call that raised, and none in a run that returns. *)
Definition stopped {A} (r : outcome A) (evs : list event) : Prop :=
  exists pre tail,
    evs = pre ++ tail /\ Forall (fun ev => ev_ok ev = true) pre /\
    match r with
    | Ok _ => tail = []
    | Raise _ => tail = [] \/ exists c, tail = [mk_event c false]
    end.

Definition halts {A} (m : M A) : Prop :=
  forall g, spec g m (fun r evs _ => stopped r evs).

Lemma stopped_nil {A} (r : outcome A) : stopped r [].
Proof. exists [], []. repeat split; [constructor|]. destruct r; auto. Qed.

Lemma stopped_one {A} c (r : outcome A) : stopped r [mk_event c (is_ok r)].
Proof.
  destruct r as [a|e]; cbn [is_ok].
  - exists [mk_event c true], []. repeat split. repeat constructor.
  - exists [], [mk_event c false]. repeat split; [constructor | right; eauto].
Qed.

Lemma halts_ret {A} (a : A) : halts (ret a).
Proof. intros g. apply spec_ret. apply stopped_nil. Qed.

Lemma halts_lift {A} (r : outcome A) : halts (lift r).
Proof. intros g. apply spec_lift. apply stopped_nil. Qed.

Lemma halts_perform {A} c (r : outcome A) : halts (perform c r).
Proof. intros g. apply spec_perform. apply stopped_one. Qed.

Lemma halts_put url percent : halts (requests_put env url percent).
Proof. intros g. apply spec_put. intros r _. apply stopped_one. Qed.

Lemma halts_randn dims : halts (np_random_randn env dims).
Proof. intros g. apply spec_randn. apply (stopped_one _ (Ok (fst (randn env g dims)))). Qed.

Lemma halts_seed seed : halts (np_random_seed env seed).
Proof.
  intros g. apply spec_seed.
  - intros g1 _. apply (stopped_one _ (Ok tt)).
  - intros e _. apply (stopped_one _ (@Raise unit e)).
Qed.

Lemma halts_bind {A B} (m : M A) (f : A -> M B) :
  halts m -> (forall a, halts (f a)) -> halts (bind m f).
Proof.
  intros Hm Hf g. apply spec_bind with (P := fun r evs _ => stopped r evs); [apply Hm | |].
  - intros e evs g1 (pre & tail & E & Hpre & Ht). exists pre, tail. auto.
  - intros a evs g1 (pre & tail & -> & Hpre & ->).
    eapply spec_weaken; [apply Hf|]. cbv beta.
    intros r evs' g' (pre' & tail' & -> & Hpre' & Hr).
    exists (pre ++ pre'), tail'. rewrite app_nil_r, app_assoc.
    split; [reflexivity|]. split; [apply Forall_app; auto | exact Hr].
Qed.

Ltac halt tac := apply halts_bind; [tac | intros ?].

Lemma halts_embed sd text : halts (embed env sd text).
Proof. unfold embed. halt ltac:(apply halts_perform). apply halts_perform. Qed.

Lemma halts_text_conditioning sd prompt guidance_scale :
  halts (text_conditioning env sd prompt guidance_scale).
Proof.
  unfold text_conditioning. halt ltac:(apply halts_embed).
  destruct (guidance_on guidance_scale); [|apply halts_ret].
  halt ltac:(apply halts_embed). apply halts_lift.
Qed.

Lemma halts_prepare sd n eta : halts (prepare env sd n eta).
Proof.
  unfold prepare. halt ltac:(apply halts_randn). halt ltac:(apply halts_perform).
  apply halts_bind; [|intros ?; apply halts_ret].
  destruct (is_LMS env _); [|apply halts_ret].
  halt ltac:(apply halts_lift). apply halts_ret.
Qed.

Lemma halts_iteration sd n gs server token next_prompt emb kw i t acc :
  halts (iteration env sd n gs server token next_prompt emb kw i t acc).
Proof.
  unfold iteration. destruct acc as [latents s].
  halt ltac:(apply halts_lift). halt ltac:(apply halts_perform).
  halt ltac:(apply halts_perform). halt ltac:(apply halts_lift).
  halt ltac:(apply halts_perform). halt ltac:(apply halts_lift).
  halt ltac:(apply halts_put). halt ltac:(apply halts_lift).
  apply halts_perform.
Qed.

Lemma halts_sampling_loop sd n gs server token next_prompt emb kw ts : forall i acc,
  halts (sampling_loop env sd n gs server token next_prompt emb kw i ts acc).
Proof.
  induction ts as [|t ts IH]; intros i acc; cbn [sampling_loop].
  - apply halts_ret.
  - halt ltac:(apply halts_iteration). apply IH.
Qed.

Lemma halts_pipeline sd n gs server token next_prompt prompt eta :
  halts (pipeline env sd n gs server token next_prompt prompt eta).
Proof.
  unfold pipeline. halt ltac:(apply halts_text_conditioning).
  apply halts_bind; [apply halts_prepare | intros [[latents s] kw]].
  apply halts_bind; [apply halts_sampling_loop | intros [latents' s']].
  unfold decode_image. halt ltac:(apply halts_perform). apply halts_lift.
Qed.

Lemma halts_load_model model name device : halts (load_model env model name device).
Proof. unfold load_model. do 4 halt ltac:(apply halts_perform). apply halts_ret. Qed.

Lemma halts_init scheduler model tokenizer device :
  halts (init env scheduler model tokenizer device).
Proof.
  unfold init. halt ltac:(apply halts_perform). do 3 halt ltac:(apply halts_load_model).
  apply halts_ret.
Qed.

Lemma halts_main args : halts (main env args).
Proof.
  unfold main.
  apply halts_bind; [destruct (seed args); [apply halts_seed | apply halts_ret] | intros _].
  halt ltac:(apply halts_perform). halt ltac:(apply halts_init).
  halt ltac:(apply halts_pipeline). halt ltac:(apply halts_perform). apply halts_ret.
Qed.

Lemma halts_run_stable_diffusion prompt iterations seed output server token next_prompt :
  halts (run_stable_diffusion env prompt iterations seed output server token next_prompt).
Proof.
  unfold run_stable_diffusion.
  halt ltac:(apply halts_seed).
  halt ltac:(apply halts_perform). halt ltac:(apply halts_init).
  halt ltac:(apply halts_pipeline). halt ltac:(apply halts_perform). apply halts_ret.
Qed.

(** In the log of a run that stopped, a call that failed is the last. *)
Lemma stopped_last {A} (r : outcome A) (evs : list event) :
  stopped r evs ->
  forall before ev after,
    evs = before ++ ev :: after -> ev_ok ev = false -> after = [] /\ exists e, r = Raise e.
Proof.
  intros (pre & tail & -> & Hpre & Hr) before ev after E Hev.
  assert (Hno : forall l1 l2, pre = l1 ++ ev :: l2 -> False).
  { intros l1 l2 ->. apply Forall_app in Hpre. destruct Hpre as [_ H].
    inversion H; subst. congruence. }
  assert (Ht : tail = [] \/ exists c, tail = [mk_event c false]).
  { destruct r; auto. }
  destruct Ht as [-> | [c ->]].
  - rewrite app_nil_r in E. exfalso. exact (Hno _ _ E).
  - destruct (exists_last (l := ev :: after) ltac:(discriminate)) as (l & x & El).
    rewrite El, app_assoc in E. apply app_inj_tail in E. destruct E as [E _].
    destruct l as [|y l]; cbn in El.
    + injection El as _ <-. split; [reflexivity|].
      destruct r as [a|e]; [discriminate Hr | eauto].
    + injection El as <- _. exfalso. exact (Hno _ _ E).
Qed.

(** X12: neither entry point calls anything after a call has failed: in
    the log of [main] and in that of [run_stable_diffusion] a call that
    raised is the last one, and the run raises.  So a refused status request
    is not sent again, and no download or forward pass is tried twice. *)
Theorem entry_points_stop_at_failure :
  (forall args (st : state) before ev after,
     trace (snd (main env args st)) = trace st ++ before ++ ev :: after ->
     ev_ok ev = false ->
     after = [] /\ exists e, fst (main env args st) = Raise e) /\
  (forall prompt iterations seed output server token next_prompt (st : state)
          before ev after,
     trace (snd (run_stable_diffusion env prompt iterations seed output server token
                   next_prompt st)) = trace st ++ before ++ ev :: after ->
     ev_ok ev = false ->
     after = [] /\
     exists e, fst (run_stable_diffusion env prompt iterations seed output server token
                      next_prompt st) = Raise e).
Proof.
  split.
  - intros args st before ev after Ht Hev.
    destruct (halts_main args (rng st) st eq_refl) as (evs & Ht' & Hs).
    rewrite Ht' in Ht. apply app_inv_head in Ht.
    exact (stopped_last _ _ Hs _ _ _ Ht Hev).
  - intros prompt iterations seed output server token next_prompt st before ev after Ht Hev.
    destruct (halts_run_stable_diffusion prompt iterations seed output server token
                next_prompt (rng st) st eq_refl) as (evs & Ht' & Hs).
    rewrite Ht' in Ht. apply app_inv_head in Ht.
    exact (stopped_last _ _ Hs _ _ _ Ht Hev).
Qed.

End Failures.

(* ----------------------------------------------------------------- *)
(** ** The theorems of Part IV in the small environment *)

Definition demo_latents : ndarray float := mk_ndarray [1; 1; 2]%nat [0.25; 4]%float.

Definition demo_embeddings : ndarray float := mk_ndarray [2; 2]%nat [0; 1; 344; 1]%float.

Definition demo_lms : demo_scheduler := {| lms := true; steps := [1; 0]%Z |}.

Lemma sampling_loop_returns_witness :
  exists evs final,
    sampling_loop demo_env demo_sd 2 7.5%float "http://localhost:3000" "secret"
      [("id"%string, PInt 7)] demo_embeddings None 0 [1; 0]%Z (demo_latents, demo_lms)
      demo_state = (Ok final, extend demo_state evs) /\
    List.length (filter (fun ev => is_unet (ev_call ev)) evs) = 2%nat /\
    List.length (filter (fun ev => is_step (ev_call ev)) evs) = 2%nat /\
    List.length (put_percents evs) = 2%nat.
Proof.
  assert (Hok : is_ok (fst (sampling_loop demo_env demo_sd 2 7.5%float
                              "http://localhost:3000" "secret" [("id"%string, PInt 7)]
                              demo_embeddings None 0 [1; 0]%Z (demo_latents, demo_lms)
                              demo_state)) = true)
    by (vm_compute; reflexivity).
  destruct (sampling_loop_returns _ _ _ _ _ _ _ demo_env demo_sd 2 7.5%float
              "http://localhost:3000" "secret" [("id"%string, PInt 7)] demo_embeddings
              None [1; 0]%Z 0%nat (demo_latents, demo_lms) demo_state Hok)
    as (evs & final & Hrun & _ & _ & Hu & Hs & Hp).
  exists evs, final. repeat split; auto.
  apply Forall2_length in Hp. rewrite <- Hp. reflexivity.
Defined.

Lemma sampling_loop_percents_sorted_witness :
  exists evs,
    trace (snd (sampling_loop demo_env demo_sd 2 7.5%float "http://localhost:3000"
                  "secret" [("id"%string, PInt 7)] demo_embeddings None 0 [1; 0]%Z
                  (demo_latents, demo_lms) demo_state)) = trace demo_state ++ evs /\
    List.length (put_percents evs) = 2%nat /\
    forall j k pj pk,
      (j <= k)%nat ->
      nth_error (put_percents evs) j = Some pj ->
      nth_error (put_percents evs) k = Some pk ->
      (0 <= pj)%Z /\ (pj <= pk)%Z /\ (pk <= 100)%Z.
Proof.
  apply (sampling_loop_percents_sorted _ _ _ _ _ _ _ demo_env demo_sd 2 7.5%float
           "http://localhost:3000" "secret" [("id"%string, PInt 7)] demo_embeddings
           None [1; 0]%Z (demo_latents, demo_lms) demo_state).
  - cbn. lia.
  - vm_compute. reflexivity.
Defined.

Lemma pipeline_without_id_witness :
  exists evs,
    trace (snd (pipeline demo_env demo_sd 2 7.5%float "http://localhost:3000" "secret"
                  [("name"%string, PStr "a red cube")] "a red cube" 0%float demo_state))
      = trace demo_state ++ evs /\
    Forall (fun ev => is_put (ev_call ev) = false /\ is_step (ev_call ev) = false) evs /\
    (exists e, fst (pipeline demo_env demo_sd 2 7.5%float "http://localhost:3000" "secret"
                      [("name"%string, PStr "a red cube")] "a red cube" 0%float
                      demo_state) = Raise e) /\
    Forall (fun ev => is_decode (ev_call ev) = false) evs.
Proof.
  destruct (pipeline_without_id _ _ _ _ _ _ _ demo_env demo_sd 2 7.5%float
              "http://localhost:3000" "secret" [("name"%string, PStr "a red cube")]
              "a red cube" 0%float demo_state eq_refl) as (evs & Ht & Hq & H).
  exists evs. split; [exact Ht|]. split; [exact Hq|].
  apply H. intros s0 E. vm_compute in E. injection E as <-. discriminate.
Defined.

Lemma guide_batch_witness :
  let raw := mk_ndarray [2; 1; 1; 2]%nat [1; 2; 3; 5]%float in
  exists uncond cond,
    np_index raw 0 = Ok uncond /\ np_index raw 1 = Ok cond /\
    guide 7.5%float raw = Ok (guided 7.5%float uncond cond) /\
    shape (guided 7.5%float uncond cond) = [1; 1; 2]%nat /\
    well_formed (guided 7.5%float uncond cond).
Proof.
  intros raw.
  assert (Hg : guidance_on 7.5%float = true) by (vm_compute; reflexivity).
  assert (Hw : well_formed raw) by (vm_compute; reflexivity).
  apply (proj1 (guide_batch 7.5%float raw 2 [1; 1; 2]%nat Hg eq_refl Hw)).
  lia.
Defined.

Lemma run_stable_diffusion_reproducible_witness :
  exists image pre1 pre2,
    trace (snd (run_stable_diffusion demo_env "a red cube" 2 42 "output.png"
                  "http://localhost:3000" "secret" [("id"%string, PInt 7)] demo_state))
      = trace demo_state ++ pre1 ++ [mk_event (CImwrite "output.png" image) true] /\
    trace (snd (run_stable_diffusion demo_env "a red cube" 2 42 "again.png"
                  "https://example.org" "" [("id"%string, PStr "next")]
                  (mk_state [mk_event (CSeed 1) true] 17%Z)))
      = [mk_event (CSeed 1) true] ++ pre2 ++ [mk_event (CImwrite "again.png" image) true].
Proof.
  apply (run_stable_diffusion_reproducible _ _ _ _ _ _ _ demo_env "a red cube" 2 42
           "output.png" "http://localhost:3000" "secret" [("id"%string, PInt 7)]
           "again.png" "https://example.org" "" [("id"%string, PStr "next")]
           demo_state (mk_state [mk_event (CSeed 1) true] 17%Z));
    vm_compute; reflexivity.
Defined.

Lemma pipeline_returns_witness :
  exists img latents pre,
    fst (pipeline demo_env demo_sd 2 7.5%float "http://localhost:3000" "secret"
           [("id"%string, PInt 7)] "a red cube" 0%float demo_state) = Ok img /\
    trace (snd (pipeline demo_env demo_sd 2 7.5%float "http://localhost:3000" "secret"
                  [("id"%string, PInt 7)] "a red cube" 0%float demo_state))
      = trace demo_state ++ pre ++ [mk_event (CDecode (np_expand_dims0 latents)) true] /\
    List.length (filter (fun ev => is_unet (ev_call ev)) pre) = 2%nat /\
    List.length (filter (fun ev => is_put (ev_call ev)) pre) = 2%nat /\
    List.length (filter (fun ev => is_step (ev_call ev)) pre) = 2%nat.
Proof.
  assert (Hok : is_ok (fst (pipeline demo_env demo_sd 2 7.5%float "http://localhost:3000"
                              "secret" [("id"%string, PInt 7)] "a red cube" 0%float
                              demo_state)) = true)
    by (vm_compute; reflexivity).
  destruct (pipeline_returns _ _ _ _ _ _ _ demo_env demo_sd 2 7.5%float
              "http://localhost:3000" "secret" [("id"%string, PInt 7)] "a red cube"
              0%float demo_state Hok)
    as (emb & s0 & latents0 & evs0 & evs & final & image & img &
        _ & Hs0 & _ & _ & _ & _ & Hv & Ht & _ & _ & Hu & Hp & Hs).
  vm_compute in Hs0. injection Hs0 as <-.
  change (timesteps demo_env {| lms := true; steps := [1; 0]%Z |}) with [1; 0]%Z
    in Hu, Hp, Hs.
  exists img, (fst final), (evs0 ++ evs). auto.
Defined.

Lemma model_input_halves_witness :
  well_formed demo_latents /\
  match scale_model_input demo_env demo_lms 0 (np_stack_pair demo_latents) with
  | Ok x =>
      exists y,
        scale_model_input demo_env demo_lms 0 demo_latents = Ok y /\
        shape x = 2%nat :: shape demo_latents /\ well_formed x /\
        np_index x 0 = Ok y /\ np_index x 1 = Ok y
  | Raise e => scale_model_input demo_env demo_lms 0 demo_latents = Raise e
  end.
Proof.
  assert (Hw : well_formed demo_latents) by (vm_compute; reflexivity).
  split; [exact Hw|].
  exact (model_input_halves _ _ _ _ _ _ _ demo_env demo_lms 0 demo_latents Hw).
Defined.
